(** * NeuroKit: respiration extrema detection and multi-signal orchestration

    A shallow embedding of [neurokit2/rsp/rsp_findpeaks.py] and
    [neurokit2/bio/bio_process.py], with the properties of the design
    document stated and settled against it.

    Conventions of the embedding:
    - a signal (1-d numpy array of floats) is a [list Q]: samples are exact
      rationals, so rounding and NaN samples in the input are abstracted;
      a missing value produced by the code itself (NaN) is [None] in a
      [list (option Q)];
    - the thresholding step of the outlier filter, the one place where a
      product is compared and rounding can decide, is given a second time
      over any arithmetic, with exact rationals and binary64 as instances;
    - sample indices and positions are [nat];
    - a Python exception is a value of [exn]; a call that may raise returns
      a [result], and sequencing is the bind of that monad;
    - a pandas DataFrame is an ordered list of named columns, a dict is a
      [gmap]. *)

From Stdlib Require Import QArith Qabs Lqa Ascii String.
From Stdlib Require Import Floats.PrimFloat.
From stdpp Require Import base option list strings gmap sorting.

Local Open Scope nat_scope.

(** ** Exceptions and results *)

Inductive exn : Type :=
  | IndexError
  | KeyError (key : string)
  | NameError
  | UnboundLocalError
  | ValueError (msg : string).

Inductive result (A : Type) : Type :=
  | Ok (a : A)
  | Raise (e : exn).
Arguments Ok {A} a.
Arguments Raise {A} e.

#[global] Instance result_ret : MRet result := fun A a => Ok a.
#[global] Instance result_bind : MBind result :=
  fun A B f m => match m with Ok a => f a | Raise e => Raise e end.

(** [try: body except NameError: handler].  Only [NameError] (and its
    subclass [UnboundLocalError]) is caught; any other exception goes
    through. *)
Definition try_except_NameError {A} (body handler : result A) : result A :=
  match body with
  | Raise NameError | Raise UnboundLocalError => handler
  | r => r
  end.

Definition is_Ok {A} (r : result A) : Prop := exists a, r = Ok a.

(** ** Comparisons on samples *)

Definition Qltb (x y : Q) : bool := negb (Qle_bool y x).
Definition Qgtb (x y : Q) : bool := Qltb y x.

(** [np.sign] *)
Definition np_sign (x : Q) : Z := Z.sgn (Qnum x).

(** ** The numpy primitives the code uses *)

(** [a[i]] for a non-negative [i]. *)
Definition index {A} (a : list A) (i : nat) : result A :=
  match a !! i with Some v => Ok v | None => Raise IndexError end.

(** [a[-1]] and [a[-2]]. *)
Definition index_last {A} (a : list A) : result A :=
  match length a with 0 => Raise IndexError | S n => index a n end.
Definition index_last2 {A} (a : list A) : result A :=
  match length a with S (S n) => index a n | _ => Raise IndexError end.

(** [a[idx]] for an integer index array [idx]. *)
Definition take_indices {A} (a : list A) (idx : list nat) : result (list A) :=
  mapM (index a) idx.

(** [a[:-1]], [a[1:]] and [a[beg:end]]. *)
Definition but_last {A} (a : list A) : list A := take (length a - 1) a.
Definition from_1 {A} (a : list A) : list A := drop 1 a.
Definition slice {A} (a : list A) (beg end_ : nat) : list A :=
  drop beg (take end_ a).

(** [np.where(mask)[0]]: the positions holding [true], ascending. *)
Fixpoint where_from (i : nat) (mask : list bool) : list nat :=
  match mask with
  | [] => []
  | b :: t => if b then i :: where_from (S i) t else where_from (S i) t
  end.
Definition np_where (mask : list bool) : list nat := where_from 0 mask.

Definition bitwise_and (a b : list bool) : list bool := zip_with andb a b.

(** [np.argmax] and [np.argmin]: position of the first extreme value; an
    empty sequence raises [ValueError]. *)
Fixpoint argbest (better : Q -> Q -> bool) (besti : nat) (best : Q)
    (i : nat) (l : list Q) : nat :=
  match l with
  | [] => besti
  | v :: t =>
      if better v best then argbest better i v (S i) t
      else argbest better besti best (S i) t
  end.

Definition argextreme_of (better : Q -> Q -> bool) (name : string)
    (l : list Q) : result nat :=
  match l with
  | [] =>
      Raise (ValueError ("attempt to get " ++ name ++ " of an empty sequence"))
  | v :: t => Ok (argbest better 0 v 1 t)
  end.
Definition np_argmax : list Q -> result nat := argextreme_of Qgtb "argmax".
Definition np_argmin : list Q -> result nat := argextreme_of Qltb "argmin".

(** [np.diff], [np.abs] after it, [np.mean] (NaN on an empty array). *)
Fixpoint np_diff (a : list Q) : list Q :=
  match a with
  | x :: (y :: _) as t => (y - x)%Q :: np_diff t
  | _ => []
  end.

Definition Qsum (l : list Q) : Q := foldr Qplus 0%Q l.

Definition np_mean (l : list Q) : option Q :=
  match l with
  | [] => None
  | _ => Some (Qsum l / inject_Z (Z.of_nat (length l)))%Q
  end.

(** [v > avg * thr] where [avg] may be NaN: a comparison with NaN is false.
    The product is exact here; [min_diff_in] below takes the arithmetic as a
    parameter and so covers the rounded product of binary64. *)
Definition gt_scaled (avg : option Q) (thr v : Q) : bool :=
  match avg with
  | None => false
  | Some m => Qgtb v (m * thr)%Q
  end.

(** [np.delete(a, idx)] for in-range positions [idx]. *)
Fixpoint delete_from (i : nat) {A} (a : list A) (idx : list nat) : list A :=
  match a with
  | [] => []
  | x :: t =>
      if bool_decide (i ∈ idx) then delete_from (S i) t idx
      else x :: delete_from (S i) t idx
  end.
Definition np_delete {A} (a : list A) (idx : list nat) : list A :=
  delete_from 0 a idx.

(** [np.delete(a, 0)] and [np.delete(a, -1)]: out of bounds on an empty
    array. *)
Definition np_delete_first {A} (a : list A) : result (list A) :=
  match a with [] => Raise IndexError | _ :: t => Ok t end.
Definition np_delete_last {A} (a : list A) : result (list A) :=
  match a with [] => Raise IndexError | _ => Ok (but_last a) end.

(** [a[1::2]] and [a[0:-1:2]]. *)
Fixpoint every_other {A} (a : list A) : list A :=
  match a with
  | [] => []
  | x :: t => x :: match t with [] => [] | _ :: t' => every_other t' end
  end.
Definition odd_positions {A} (a : list A) : list A := every_other (from_1 a).
Definition even_positions_but_last {A} (a : list A) : list A :=
  every_other (but_last a).

(** ** [_rsp_findpeaks_extrema] *)

Inductive crossing := rise | fall.

Definition greater (rsp_cleaned : list Q) : list bool :=
  (fun v => Qgtb v 0) <$> rsp_cleaned.
Definition smaller (rsp_cleaned : list Q) : list bool :=
  (fun v => Qltb v 0) <$> rsp_cleaned.

Definition risex (rsp_cleaned : list Q) : list nat :=
  np_where (bitwise_and (but_last (smaller rsp_cleaned))
                        (from_1 (greater rsp_cleaned))).
Definition fallx (rsp_cleaned : list Q) : list nat :=
  np_where (bitwise_and (but_last (greater rsp_cleaned))
                        (from_1 (smaller rsp_cleaned))).

(** The [if]/[elif] on the first crossings: [startx] stays unbound when
    neither test holds. *)
Definition startx_of (r0 f0 : nat) : option crossing :=
  if bool_decide (r0 < f0) then Some rise
  else if bool_decide (f0 < r0) then Some fall
  else None.

Definition allx_of (rsp_cleaned : list Q) : list nat :=
  merge_sort Nat.le (risex rsp_cleaned ++ fallx rsp_cleaned).

(** One turn of the loop: the extremum between crossings [i] and [i+1]. *)
Definition extremum_at (rsp_cleaned : list Q) (startx : option crossing)
    (allx : list nat) (i : nat) : result nat :=
  argextreme ←
    match startx with
    | Some rise =>
        Ok (if negb (Nat.eqb ((i + 1) mod 2) 0) then np_argmax else np_argmin)
    | Some fall =>
        Ok (if negb (Nat.eqb ((i + 1) mod 2) 0) then np_argmin else np_argmax)
    | None => Raise UnboundLocalError
    end;
  beg ← index allx i;
  end_ ← index allx (i + 1);
  extreme ← argextreme (slice rsp_cleaned beg end_);
  Ok (beg + extreme).

Definition _rsp_findpeaks_extrema (rsp_cleaned : list Q) : result (list nat) :=
  r0 ← index (risex rsp_cleaned) 0;
  f0 ← index (fallx rsp_cleaned) 0;
  let startx := startx_of r0 f0 in
  let allx := allx_of rsp_cleaned in
  mapM (extremum_at rsp_cleaned startx allx) (seq 0 (length allx - 1)).

(** ** [_rsp_findpeaks_outliers] *)

(** Lines 189-191: the positions of the vertical differences that exceed
    the scaled average. *)
Definition vertical_diff_of (amplitudes : list Q) : list Q :=
  Qabs <$> np_diff amplitudes.

Definition min_diff_of (amplitudes : list Q) (outlier_threshold : Q)
    : list nat :=
  let vertical_diff := vertical_diff_of amplitudes in
  let average_diff := np_mean vertical_diff in
  np_where (gt_scaled average_diff outlier_threshold <$> vertical_diff).

(** Lines 189-192, the thresholding step: [extrema = extrema[min_diff]]. *)
Definition outliers_threshold (rsp_cleaned : list Q) (extrema : list nat)
    (outlier_threshold : Q) : result (list nat) :=
  amplitudes ← take_indices rsp_cleaned extrema;
  take_indices extrema (min_diff_of amplitudes outlier_threshold).

(** Lines 197-202, the alternation repair. *)
Definition removeext_of (amplitudes : list Q) : list nat :=
  let extdiffs := np_sign <$> np_diff amplitudes in
  let extdiffs := zip_with Z.add (but_last extdiffs) (from_1 extdiffs) in
  (fun i => i + 1) <$> np_where ((fun s => negb (Z.eqb s 0)) <$> extdiffs).

Definition _rsp_findpeaks_outliers (rsp_cleaned : list Q) (extrema : list nat)
    (outlier_threshold : Q) : result (list nat * list Q) :=
  extrema ← outliers_threshold rsp_cleaned extrema outlier_threshold;
  amplitudes ← take_indices rsp_cleaned extrema;
  let removeext := removeext_of amplitudes in
  let extrema := np_delete extrema removeext in
  let amplitudes := np_delete amplitudes removeext in
  Ok (extrema, amplitudes).

(** ** [_rsp_findpeaks_sanitize] *)

Definition _rsp_findpeaks_sanitize (extrema : list nat) (amplitudes : list Q)
    : result (list nat * list nat) :=
  a0 ← index amplitudes 0;
  a1 ← index amplitudes 1;
  extrema ← (if Qgtb a0 a1 then np_delete_first extrema else Ok extrema);
  al ← index_last amplitudes;
  al2 ← index_last2 amplitudes;
  extrema ← (if Qltb al al2 then np_delete_last extrema else Ok extrema);
  let peaks := odd_positions extrema in
  let troughs := even_positions_but_last extrema in
  Ok (peaks, troughs).

(** ** The two methods *)

(** [d[key]] on a dict. *)
Definition dict_getitem {V} (d : gmap string V) (key : string) : result V :=
  match d !! key with Some v => Ok v | None => Raise (KeyError key) end.

Definition _rsp_findpeaks_khodadad (rsp_cleaned : list Q)
    (outlier_threshold : Q) : result (gmap string (list nat)) :=
  extrema ← _rsp_findpeaks_extrema rsp_cleaned;
  '(extrema, amplitudes) ←
    _rsp_findpeaks_outliers rsp_cleaned extrema outlier_threshold;
  '(peaks, troughs) ← _rsp_findpeaks_sanitize extrema amplitudes;
  Ok (<["RSP_Troughs" := troughs]> (<["RSP_Peaks" := peaks]> ∅)).

Definition _rsp_findpeaks_biosppy (rsp_cleaned : list Q)
    : result (gmap string (list nat)) :=
  _rsp_findpeaks_khodadad rsp_cleaned 0%Q.

(** ** DataFrames *)

(** A DataFrame with a positional row index: its columns, in order. *)
Definition frame (A : Type) : Type := list (string * list A).

Definition columns {A} (df : frame A) : list string := fst <$> df.

(** [len(df)], every column of a DataFrame having that many rows. *)
Definition nrows {A} (df : frame A) : nat :=
  match df with [] => 0 | (_, c) :: _ => length c end.

(** [df[name]]: pandas raises [KeyError] on a missing column. *)
Fixpoint getitem {A} (df : frame A) (name : string) : result (list A) :=
  match df with
  | [] => Raise (KeyError name)
  | (k, c) :: t => if String.eqb k name then Ok c else getitem t name
  end.

(** [df[name] = col]: replaces the column in place, or appends it. *)
Fixpoint setitem {A} (df : frame A) (name : string) (col : list A) : frame A :=
  match df with
  | [] => [(name, col)]
  | (k, c) :: t =>
      if String.eqb k name then (k, col) :: t else (k, c) :: setitem t name col
  end.

(** Modelled from the spec: [_signals_from_peakinfo] is imported from
    [neurokit2/signal/signal_from_indices.py], which is not among the
    sources.  Section 4.4: build two binary indicator series of length N,
    set 1 at each Peak index and each Trough index respectively, 0
    elsewhere. *)
Definition indicator (length : nat) (indices : list nat) : list (option Q) :=
  (fun i => Some (if bool_decide (i ∈ indices) then 1%Q else 0%Q))
    <$> seq 0 length.

Definition _signals_from_peakinfo (info : gmap string (list nat))
    (peak_indices : list nat) (length : nat) : result (frame (option Q)) :=
  peaks ← dict_getitem info "RSP_Peaks";
  troughs ← dict_getitem info "RSP_Troughs";
  Ok [("RSP_Peaks", indicator length peaks);
      ("RSP_Troughs", indicator length troughs)].

(** ** [_rsp_findpeaks_phase] *)

(** [col == 1] *)
Definition eq_one (col : list (option Q)) : list bool :=
  (fun c => match c with Some v => Qeq_bool v 1 | None => false end) <$> col.

(** [~np.isnan(col)] *)
Definition not_nan (col : list (option Q)) : list bool :=
  (fun c => match c with Some _ => true | None => false end) <$> col.

(** [a[idx] = v] for an index array: out of bounds raises. *)
Definition assign_at {A} (a : list A) (idx : list nat) (v : A)
    : result (list A) :=
  if forallb (fun i => Nat.ltb i (length a)) idx
  then Ok (foldl (fun acc i => <[i := v]> acc) a idx)
  else Raise IndexError.

(** [pd.Series(a).fillna(method="pad")]: a missing value takes the last
    value before it, leading missing values stay. *)
Fixpoint pad_from (prev : option Q) (a : list (option Q)) : list (option Q) :=
  match a with
  | [] => []
  | None :: t => prev :: pad_from prev t
  | Some v :: t => Some v :: pad_from (Some v) t
  end.
Definition fillna_pad (a : list (option Q)) : list (option Q) :=
  pad_from None a.

Definition _rsp_findpeaks_phase (signals : frame (option Q))
    : result (list (option Q)) :=
  let inspiration := replicate (nrows signals) None in
  peaks ← getitem signals "RSP_Peaks";
  inspiration ← assign_at inspiration (np_where (eq_one peaks)) (Some 0%Q);
  troughs ← getitem signals "RSP_Troughs";
  inspiration ← assign_at inspiration (np_where (eq_one troughs)) (Some 1%Q);
  last_element ← index_last (np_where (not_nan inspiration));
  Ok (take last_element (fillna_pad inspiration)
        ++ drop last_element inspiration).

(** ** [rsp_findpeaks] *)

(** [str.lower] on ASCII text. *)
Definition ascii_lower (c : ascii) : ascii :=
  let n := nat_of_ascii c in
  if (Nat.leb 65 n && Nat.leb n 90)%bool then ascii_of_nat (n + 32) else c.

Fixpoint lower (s : string) : string :=
  match s with
  | EmptyString => EmptyString
  | String c t => String (ascii_lower c) (lower t)
  end.

(** The first argument: a list, array or Series, or a DataFrame. *)
Inductive rsp_arg : Type :=
  | Sequence (values : list Q)
  | DataFrame (df : frame Q).

Definition default_method : string := "khodadad2018".
Definition default_outlier_threshold : Q := (3 # 10)%Q.

Definition method_error : exn :=
  ValueError ("NeuroKit error: rsp_findpeaks(): 'method' should be "
              ++ "one of 'khodadad2018' or 'biosppy'.").

(** Lines 59-67: the column of a DataFrame argument. *)
Definition retrieve_column (rsp_cleaned : rsp_arg) : result (list Q) :=
  match rsp_cleaned with
  | Sequence values => Ok values
  | DataFrame df =>
      try_except_NameError (getitem df "RSP_Clean")
        (try_except_NameError (getitem df "RSP_Raw")
           (getitem df "RSP"))
  end.

Definition rsp_findpeaks (rsp_cleaned : rsp_arg) (method : string)
    (outlier_threshold : Q)
    : result (frame (option Q) * gmap string (list nat)) :=
  rsp_cleaned ← retrieve_column rsp_cleaned;
  let cleaned := rsp_cleaned in
  let method := lower method in
  info ←
    (if bool_decide (method ∈ ["khodadad"; "khodadad2018"])
     then _rsp_findpeaks_khodadad cleaned outlier_threshold
     else if bool_decide (method = "biosppy")
     then _rsp_findpeaks_biosppy cleaned
     else Raise method_error);
  peak_indices ← dict_getitem info "RSP_Peaks";
  signals ← _signals_from_peakinfo info peak_indices (length rsp_cleaned);
  inspiration ← _rsp_findpeaks_phase signals;
  let signals := setitem signals "RSP_Inspiration" inspiration in
  Ok (signals, info).

(** ** The thresholding step over any arithmetic

    Lines 189-192 once more, with the arithmetic they apply to the samples
    as a parameter: the subtraction of [np.diff], [np.abs], [np.mean], the
    product and the comparison.  What holds of the step for every
    arithmetic holds of the binary64 operations of the code, with their
    rounding and their NaN, as it holds of exact rationals. *)
Class Arithmetic (F : Type) : Type := {
  arith_sub : F -> F -> F;
  arith_abs : F -> F;
  arith_mean : list F -> F;
  arith_mul : F -> F -> F;
  arith_gt : F -> F -> bool
}.

Section Thresholding.
Context {F : Type} {arithmetic : Arithmetic F}.

Fixpoint np_diff_in (a : list F) : list F :=
  match a with
  | x :: (y :: _) as t => arith_sub y x :: np_diff_in t
  | _ => []
  end.

Definition vertical_diff_in (amplitudes : list F) : list F :=
  arith_abs <$> np_diff_in amplitudes.

Definition min_diff_in (amplitudes : list F) (outlier_threshold : F)
    : list nat :=
  let vertical_diff := vertical_diff_in amplitudes in
  let average_diff := arith_mean vertical_diff in
  np_where ((fun v => arith_gt v (arith_mul average_diff outlier_threshold))
              <$> vertical_diff).

Definition outliers_threshold_in (rsp_cleaned : list F) (extrema : list nat)
    (outlier_threshold : F) : result (list nat) :=
  amplitudes ← take_indices rsp_cleaned extrema;
  take_indices extrema (min_diff_in amplitudes outlier_threshold).

(** The same two quantities in the words of the design document (Outlier
    Filter, steps 1 and 2): the vertical distance of each consecutive pair
    of extrema, and the mean of these distances. *)
Definition vertical_distances (amplitudes : list F) : list F :=
  zip_with (fun a b => arith_abs (arith_sub b a))
    amplitudes (drop 1 amplitudes).

Definition mean_distance (amplitudes : list F) : F :=
  arith_mean (vertical_distances amplitudes).

End Thresholding.

(** Exact rationals, NaN being [None]: the arithmetic of the embedding
    above. *)
Definition lift2 (f : Q -> Q -> Q) (x y : option Q) : option Q :=
  match x, y with
  | Some a, Some b => Some (f a b)
  | _, _ => None
  end.

#[global] Instance exact_rationals : Arithmetic (option Q) := {|
  arith_sub := lift2 Qminus;
  arith_abs := fmap Qabs;
  arith_mean := fun l => mapM id l ≫= np_mean;
  arith_mul := lift2 Qmult;
  arith_gt := fun x y =>
    match x, y with
    | Some a, Some b => Qgtb a b
    | _, _ => false
    end
|}.

(** binary64, the arithmetic of a float64 array: every operation rounds to
    nearest, and a comparison with NaN is false.  The sum of [np.mean] is
    taken from left to right; numpy may add in another order, which gives
    the same mean wherever the partial sums are exact. *)
#[global] Instance binary64 : Arithmetic float := {|
  arith_sub := PrimFloat.sub;
  arith_abs := PrimFloat.abs;
  arith_mean := fun l =>
    PrimFloat.div (foldl PrimFloat.add 0%float l)
                  (foldl (fun n _ => PrimFloat.add n 1%float) 0%float l);
  arith_mul := PrimFloat.mul;
  arith_gt := fun x y => PrimFloat.ltb y x
|}.

(** * [bio_process]

    The four per-channel pipelines and the input sanitizer are collaborators
    outside this development: they are parameters, functions from a channel
    and a sampling rate to a table and an info dict, which may raise.  All
    tables carry the default positional row index. *)

Section BioProcess.

Variable cell : Type.
Variable nan : cell.
Variable info_value : Type.

Variable sanitize_input : list cell -> string -> result (list cell).
Variables ecg_process rsp_process eda_process emg_process :
  list cell -> nat -> result (frame cell * gmap string info_value).

(** The first argument is a DataFrame bundling the channels, or one
    channel. *)
Inductive ecg_arg : Type :=
  | EcgFrame (data : frame cell)
  | EcgVector (values : list cell).

(** [pd.concat([a, b], axis=1)]: the columns of [a], then those of [b],
    shorter columns filled with NaN. *)
Definition fill_rows (n : nat) (col : list cell) : list cell :=
  col ++ replicate (n - length col) nan.

Definition pd_concat_axis1 (a b : frame cell) : frame cell :=
  let n := Nat.max (nrows a) (nrows b) in
  (prod_map id (fill_rows n) <$> a) ++ (prod_map id (fill_rows n) <$> b).

(** [d.update(new)]: the values of [new] replace those of [d]. *)
Definition dict_update (d new : gmap string info_value)
    : gmap string info_value :=
  new ∪ d.

(** [data[name] if name in data.keys() else None] *)
Definition column_or_None (data : frame cell) (name : string)
    : result (option (list cell)) :=
  if bool_decide (name ∈ columns data)
  then c ← getitem data name; Ok (Some c)
  else Ok None.

Definition message : string :=
  "NeuroKit error: bio_process(): we expect the user to provide a vector, i.e., a one-dimensional array (such as a list of values).".

(** Lines 88-117: a DataFrame as first argument replaces all five
    arguments. *)
Definition unbundle (ecg : option ecg_arg) (rsp eda emg : option (list cell))
    (keep : option (frame cell))
    : result (option (list cell) * option (list cell) * option (list cell)
              * option (list cell) * option (frame cell)) :=
  match ecg with
  | None => Ok (None, rsp, eda, emg, keep)
  | Some (EcgVector values) => Ok (Some values, rsp, eda, emg, keep)
  | Some (EcgFrame data) =>
      rsp ← column_or_None data "RSP";
      eda ← column_or_None data "EDA";
      emg ← column_or_None data "EMG";
      ecg ← (if bool_decide ("ECG" ∈ columns data)
             then c ← getitem data "ECG"; Ok (Some c)
             else column_or_None data "EKG");
      let cols := ["ECG"; "EKG"; "RSP"; "EDA"; "EMG"] in
      let keep_keys := filter (fun key => key ∉ cols) (columns data) in
      let keep :=
        if bool_decide (length keep_keys ≠ 0)
        then Some (filter (fun kc => kc.1 ∉ cols) data)
        else None in
      Ok (ecg, rsp, eda, emg, keep)
  end.

Definition bio_process (ecg : option ecg_arg) (rsp eda emg : option (list cell))
    (keep : option (frame cell)) (sampling_rate : nat)
    : result (frame cell * gmap string info_value) :=
  let bio_info : gmap string info_value := ∅ in
  let bio_df : frame cell := [] in
  '(ecg, rsp, eda, emg, keep) ← unbundle ecg rsp eda emg keep;
  (* ECG *)
  '(bio_df, bio_info) ←
    match ecg with
    | None => Ok (bio_df, bio_info)
    | Some ecg =>
        ecg ← sanitize_input ecg message;
        '(ecg_signals, ecg_info) ← ecg_process ecg sampling_rate;
        let bio_info := dict_update bio_info ecg_info in
        Ok (pd_concat_axis1 bio_df ecg_signals, bio_info)
    end;
  (* RSP *)
  '(bio_df, bio_info) ←
    match rsp with
    | None => Ok (bio_df, bio_info)
    | Some rsp =>
        rsp ← sanitize_input rsp message;
        '(rsp_signals, rsp_info) ← rsp_process rsp sampling_rate;
        let bio_info := dict_update bio_info rsp_info in
        Ok (pd_concat_axis1 bio_df rsp_signals, bio_info)
    end;
  (* EDA *)
  '(bio_df, bio_info) ←
    match eda with
    | None => Ok (bio_df, bio_info)
    | Some eda =>
        eda ← sanitize_input eda message;
        '(eda_signals, eda_info) ← eda_process eda sampling_rate;
        let bio_info := dict_update bio_info eda_info in
        Ok (pd_concat_axis1 bio_df eda_signals, bio_info)
    end;
  (* EMG *)
  '(bio_df, bio_info) ←
    match emg with
    | None => Ok (bio_df, bio_info)
    | Some emg =>
        emg ← sanitize_input emg message;
        '(emg_signals, emg_info) ← emg_process emg sampling_rate;
        let bio_info := dict_update bio_info emg_info in
        Ok (pd_concat_axis1 bio_df emg_signals, bio_info)
    end;
  (* Additional channels to keep *)
  let bio_df :=
    match keep with
    | None => bio_df
    | Some keep => pd_concat_axis1 bio_df keep
    end in
  Ok (bio_df, bio_info).

(** What one channel contributes: nothing when it is absent, else the
    output of its pipeline on the sanitized channel. *)
Definition channel_output
    (process : list cell -> nat -> result (frame cell * gmap string info_value))
    (channel : option (list cell)) (sampling_rate : nat)
    : result (frame cell * gmap string info_value) :=
  match channel with
  | None => Ok ([], ∅)
  | Some x => x ← sanitize_input x message; process x sampling_rate
  end.

End BioProcess.

Arguments EcgFrame {cell} data.
Arguments EcgVector {cell} values.
Arguments pd_concat_axis1 {cell} nan a b.
Arguments dict_update {info_value} d new.
Arguments unbundle {cell} ecg rsp eda emg keep.
Arguments bio_process {cell} nan {info_value} sanitize_input
  ecg_process rsp_process eda_process emg_process ecg rsp eda emg keep
  sampling_rate.
Arguments channel_output {cell info_value} sanitize_input process channel
  sampling_rate.

(** * Examples and closed forms used in the statements *)

(** The example used to exercise the statements below: four breaths of
    uneven depth. *)
Definition demo_signal : list Q :=
  inject_Z <$> [-1; -2; 1; 3; 2; -1; -4; -2; 1; 5; 2; -3; -1; 2; 1; -1; -2;
                3; -1]%Z.

Definition demo_info : gmap string (list nat) :=
  <["RSP_Troughs" := [6; 11]]> (<["RSP_Peaks" := [9; 13]]> ∅).

Definition demo_signals : frame (option Q) :=
  [("RSP_Peaks", indicator 19 [9; 13]);
   ("RSP_Troughs", indicator 19 [6; 11]);
   ("RSP_Inspiration",
    replicate 6 None ++ replicate 3 (Some 1%Q) ++ replicate 2 (Some 0%Q)
      ++ replicate 2 (Some 1%Q) ++ [Some 0%Q] ++ replicate 5 None)].

(** The extrema the locator finds in it, and their amplitudes. *)
Definition demo_extrema : list nat := [3; 6; 9; 11; 13; 15; 16].
Definition demo_amplitudes : list Q :=
  inject_Z <$> [3; -4; 5; -3; 2; -1; -2]%Z.

(** A signal that never changes sign. *)
Definition flat_signal : list Q := inject_Z <$> [1; 2; 3; 2; 1]%Z.

(** The series after the two assignments, in closed form. *)
Definition mark (peaks troughs : list nat) (k : nat) : option Q :=
  if bool_decide (k ∈ troughs) then Some 1%Q
  else if bool_decide (k ∈ peaks) then Some 0%Q
  else None.

Definition marks (n : nat) (peaks troughs : list nat) : list (option Q) :=
  mark peaks troughs <$> seq 0 n.

Definition marked (peaks troughs : list nat) (m : nat) : Prop :=
  m ∈ peaks \/ m ∈ troughs.

(** What [_rsp_findpeaks_phase] computes from indicator columns of disjoint,
    in-range peaks and troughs. *)
Definition phase_boundary (peaks troughs : list nat)
    (inspiration : list (option Q)) : Prop :=
  (forall p, p ∈ peaks -> inspiration !! p = Some (Some 0%Q)) /\
  (forall t, t ∈ troughs -> inspiration !! t = Some (Some 1%Q)) /\
  (forall k, k < length inspiration ->
     (forall m, marked peaks troughs m -> m < k) ->
     inspiration !! k = Some None) /\
  (forall k m1 m2,
     marked peaks troughs m1 -> marked peaks troughs m2 -> m1 <= k <= m2 ->
     inspiration !! k = Some (Some 0%Q) \/ inspiration !! k = Some (Some 1%Q)) /\
  (forall k m1 m2,
     marked peaks troughs m1 -> marked peaks troughs m2 -> m1 <= k <= m2 ->
     (forall q, m1 < q <= k -> ~ marked peaks troughs q) ->
     inspiration !! k = inspiration !! m1).

(** Stand-ins for the collaborators of [bio_process]: a pipeline that
    returns the channel as its raw and clean columns, and an info dict with
    one key of its own and one key shared by all channels. *)
Definition demo_sanitize (x : list (option Q)) (message : string)
    : result (list (option Q)) := Ok x.

Definition demo_table (name : string) (x : list (option Q))
    : frame (option Q) :=
  [(name +:+ "_Raw", x); (name +:+ "_Clean", x)].

Definition demo_dict (name : string) (tag : nat) : gmap string (list nat) :=
  <[name +:+ "_Peaks" := [tag]]> (<["sampling_rate" := [tag]]> ∅).

Definition demo_process (name : string) (tag : nat) (x : list (option Q))
    (sampling_rate : nat)
    : result (frame (option Q) * gmap string (list nat)) :=
  Ok (demo_table name x, demo_dict name tag).

Definition demo_channel : list (option Q) :=
  (fun z => Some (inject_Z z)) <$> [1; -1; 2]%Z.

(** Four samples whose three vertical distances are 0, 1 and 9, so that
    their mean is 10/3, with 0.3 as binary64 holds it, and that value as a
    rational. *)
Definition boundary_signal : list float :=
  [(-6)%float; (-6)%float; (-5)%float; 4%float].
Definition boundary_exact : list (option Q) :=
  (fun z => Some (inject_Z z)) <$> [-6; -6; -5; 4]%Z.
Definition binary64_0_3 : float := 0x1.3333333333333p-2%float.
Definition exact_0_3 : Q := (5404319552844595 # 18014398509481984)%Q.

(** A signal with a single swing. *)
Definition single_swing : list Q := inject_Z <$> [-1; 1; -1]%Z.

(** The threshold the outlier filter runs with: the argument under the
    Khodadad method, 0 under biosppy (lines 75 and 98). *)
Definition effective_threshold (method : string) (outlier_threshold : Q) : Q :=
  if bool_decide (lower method ∈ ["khodadad"; "khodadad2018"])
  then outlier_threshold else 0%Q.

(** * Vocabulary of the further properties *)

(** Position [e] holds the first largest (smallest) sample of
    [rsp_cleaned[beg:end_]]. *)
Definition first_maximum (rsp_cleaned : list Q) (beg end_ e : nat) : Prop :=
  exists v, rsp_cleaned !! e = Some v /\
    (forall p w, beg <= p < end_ -> rsp_cleaned !! p = Some w -> (w <= v)%Q) /\
    (forall p w, beg <= p < e -> rsp_cleaned !! p = Some w -> (w < v)%Q).

Definition first_minimum (rsp_cleaned : list Q) (beg end_ e : nat) : Prop :=
  exists v, rsp_cleaned !! e = Some v /\
    (forall p w, beg <= p < end_ -> rsp_cleaned !! p = Some w -> (v <= w)%Q) /\
    (forall p w, beg <= p < e -> rsp_cleaned !! p = Some w -> (v < w)%Q).

(** Whether turn [i] of the loop of the locator looks for a maximum, given
    the first rising and the first falling crossing. *)
Definition maximum_sought (r0 f0 i : nat) : bool :=
  if bool_decide (r0 < f0) then Nat.even i else Nat.odd i.

(** The shortest signal that is processed. *)
Definition shortest_signal : list Q := inject_Z <$> [-1; 1; -1; 1; -1]%Z.

(** Three consecutive amplitudes whose two steps cancel in sign: the middle
    one is a strict peak or a strict trough, or all three are equal. *)
Definition turning_or_flat (a b c : Q) : Prop :=
  ((a < b)%Q /\ (c < b)%Q) \/ ((b < a)%Q /\ (b < c)%Q) \/
  ((a == b)%Q /\ (b == c)%Q).

(** Amplitudes that go up and down by turns, never staying level. *)
Definition alternating (amplitudes : list Q) : Prop :=
  (forall j a b,
     amplitudes !! j = Some a -> amplitudes !! (j + 1) = Some b ->
     ~ (a == b)%Q) /\
  (forall j a b c,
     amplitudes !! j = Some a -> amplitudes !! (j + 1) = Some b ->
     amplitudes !! (j + 2) = Some c ->
     ((a < b)%Q /\ (c < b)%Q) \/ ((b < a)%Q /\ (b < c)%Q)).

(** The extrema the sanitizer keeps: without the first one when the
    amplitudes start downwards, without the last one when they end
    downwards. *)
Definition trimmed_extrema (extrema : list nat) (amplitudes : list Q)
    : list nat :=
  let n := length amplitudes in
  let k := match amplitudes !! 0, amplitudes !! 1 with
           | Some a0, Some a1 => if Qgtb a0 a1 then 1 else 0
           | _, _ => 0
           end in
  let k' := match amplitudes !! (n - 1), amplitudes !! (n - 2) with
            | Some al, Some al2 => if Qltb al al2 then 1 else 0
            | _, _ => 0
            end in
  take (n - k - k') (drop k extrema).

(** The exception of the first failing step of a sequence, if any. *)
Fixpoint first_error {A} (steps : list (result A)) : option exn :=
  match steps with
  | [] => None
  | Raise e :: _ => Some e
  | Ok _ :: rest => first_error rest
  end.

(** [data[name]] when the column is there. *)
Definition column_if_present {A} (data : frame A) (name : string)
    : option (list A) :=
  match getitem data name with Ok c => Some c | Raise _ => None end.

(** * Properties *)

(** ** The result monad *)

Lemma bind_Ok {A B} (m : result A) (f : A -> result B) (b : B) :
  m ≫= f = Ok b -> exists a, m = Ok a /\ f a = Ok b.
Proof. destruct m as [a|e]; simpl; [eauto | discriminate]. Qed.

Lemma index_Ok {A} (a : list A) i v : index a i = Ok v <-> a !! i = Some v.
Proof. unfold index. destruct (a !! i); split; congruence. Qed.

Lemma index_Raise {A} (a : list A) i e :
  index a i = Raise e -> e = IndexError /\ length a <= i.
Proof.
  unfold index. destruct (a !! i) eqn:E; [discriminate|].
  intros [= <-]. split; [done|]. by apply lookup_ge_None.
Qed.

Lemma index_nil {A} i : index (@nil A) i = Raise IndexError.
Proof. by destruct i. Qed.

(** [mapM] in the result monad, position by position. *)
Lemma mapM_Ok_lookup {A B} (f : A -> result B) (l : list A) (r : list B) :
  mapM f l = Ok r ->
  length r = length l /\
  forall j x, l !! j = Some x -> exists y, r !! j = Some y /\ f x = Ok y.
Proof.
  revert r. induction l as [|a l IH]; intros r; simpl.
  - intros [= <-]. split; [done|]. intros j x; by rewrite lookup_nil.
  - intros H. apply bind_Ok in H as (y & Hy & H).
    apply bind_Ok in H as (k & Hk & H). injection H as <-.
    destruct (IH _ Hk) as [Hlen Hlk]. split; [simpl; by rewrite Hlen|].
    intros [|j] x; simpl; [intros [= <-]; eauto | apply Hlk].
Qed.

Lemma mapM_Ok_intro {A B} (f : A -> result B) (l : list A) :
  (forall x, x ∈ l -> is_Ok (f x)) -> is_Ok (mapM f l).
Proof.
  induction l as [|a l IH]; intros H; simpl; [by eexists|].
  destruct (H a) as [y Hy]; [by left|]. rewrite Hy. simpl.
  destruct IH as [k Hk]; [intros x Hx; apply H; by right|].
  rewrite Hk. by eexists.
Qed.

Lemma take_indices_Ok {A} (a : list A) (idx : list nat) (r : list A) :
  take_indices a idx = Ok r ->
  length r = length idx /\
  forall j i, idx !! j = Some i -> i < length a /\ r !! j = a !! i.
Proof.
  intros H. apply mapM_Ok_lookup in H as [Hlen H]. split; [done|].
  intros j i Hi. destruct (H j i Hi) as (y & Hy & Hidx).
  apply index_Ok in Hidx. rewrite Hy, Hidx. split; [|done].
  by apply lookup_lt_Some in Hidx.
Qed.

Lemma take_indices_in_range {A} (a : list A) (idx : list nat) :
  (forall i, i ∈ idx -> i < length a) -> is_Ok (take_indices a idx).
Proof.
  intros H. apply mapM_Ok_intro. intros i Hi.
  destruct (lookup_lt_is_Some_2 a i (H i Hi)) as [v Hv].
  exists v. by apply index_Ok.
Qed.

(** ** Comparisons *)

Lemma Qltb_lt x y : Qltb x y = true <-> (x < y)%Q.
Proof.
  unfold Qltb. rewrite negb_true_iff. split.
  - intros H. apply Qnot_le_lt. intros Hle.
    apply Qle_bool_iff in Hle. congruence.
  - intros H. destruct (Qle_bool y x) eqn:E; [|done].
    apply Qle_bool_iff in E. exfalso. by eapply Qlt_not_le.
Qed.

Lemma Qgtb_lt x y : Qgtb x y = true <-> (y < x)%Q.
Proof. apply Qltb_lt. Qed.

(** ** [np.where] *)

Lemma elem_of_where_from i mask k :
  k ∈ where_from i mask <-> exists j, k = i + j /\ mask !! j = Some true.
Proof.
  revert i. induction mask as [|b mask IH]; intros i; simpl.
  - split; [by intros ?%elem_of_nil | by intros (j & _ & ?)].
  - assert (k ∈ where_from (S i) mask <->
            exists j, k = i + S j /\ mask !! j = Some true) as IH'.
    { rewrite IH. split; intros (j & -> & ?); exists j; split; auto; lia. }
    destruct b.
    + rewrite elem_of_cons, IH'. split.
      * intros [->|(j & -> & ?)]; [exists 0 | exists (S j)]; split; auto; lia.
      * intros ([|j] & -> & Hj); [left; lia | right; eauto].
    + rewrite IH'. split.
      * intros (j & -> & ?). exists (S j). eauto.
      * intros ([|j] & -> & Hj); [discriminate | eauto].
Qed.

Lemma elem_of_np_where mask k : k ∈ np_where mask <-> mask !! k = Some true.
Proof.
  unfold np_where. rewrite elem_of_where_from. split.
  - by intros (j & -> & ?).
  - intros ?. by exists k.
Qed.

Lemma np_where_lt mask k : k ∈ np_where mask -> k < length mask.
Proof. rewrite elem_of_np_where. apply lookup_lt_Some. Qed.

Lemma where_from_sorted i mask : StronglySorted lt (where_from i mask).
Proof.
  revert i. induction mask as [|b mask IH]; intros i; simpl; [constructor|].
  destruct b; [|apply IH]. constructor; [apply IH|].
  apply Forall_forall. intros k (j & -> & _)%elem_of_where_from. lia.
Qed.

Lemma np_where_sorted mask : StronglySorted lt (np_where mask).
Proof. apply where_from_sorted. Qed.

(** ** Strictly ascending index sequences *)

Lemma sorted_lookup (R : relation nat) (l : list nat) i j x y :
  StronglySorted R l -> i < j -> l !! i = Some x -> l !! j = Some y -> R x y.
Proof.
  intros Hs. revert i j. induction Hs as [|a l Hs IH Ha]; intros i j Hij.
  - by rewrite lookup_nil.
  - destruct j as [|j]; [lia|]. destruct i as [|i]; simpl.
    + intros [= <-] Hy. rewrite Forall_forall in Ha. apply Ha.
      by eapply list_elem_of_lookup_2.
    + apply IH. lia.
Qed.

Lemma sorted_of_lookup (R : relation nat) (l : list nat) :
  (forall i j x y, i < j -> l !! i = Some x -> l !! j = Some y -> R x y) ->
  StronglySorted R l.
Proof.
  induction l as [|a l IH]; intros H; constructor.
  - apply IH. intros i j x y Hij Hi Hj. apply (H (S i) (S j)); auto. lia.
  - apply Forall_forall. intros y (j & Hj)%list_elem_of_lookup_1.
    apply (H 0 (S j)); auto. lia.
Qed.

Lemma take_indices_sorted (a idx r : list nat) :
  StronglySorted lt a -> StronglySorted lt idx ->
  take_indices a idx = Ok r -> StronglySorted lt r.
Proof.
  intros Ha Hidx Hr. apply take_indices_Ok in Hr as [Hlen Hr].
  apply sorted_of_lookup. intros i j x y Hij Hi Hj.
  destruct (lookup_lt_is_Some_2 idx i) as [p Hp];
    [rewrite <- Hlen; by eapply lookup_lt_Some|].
  destruct (lookup_lt_is_Some_2 idx j) as [q Hq];
    [rewrite <- Hlen; by eapply lookup_lt_Some|].
  destruct (Hr _ _ Hp) as [_ Hi']. destruct (Hr _ _ Hq) as [_ Hj'].
  rewrite Hi in Hi'. rewrite Hj in Hj'.
  eapply (sorted_lookup lt a p q); eauto.
  eapply (sorted_lookup lt idx i j); eauto.
Qed.

Lemma delete_from_Forall {A} (P : A -> Prop) i (a : list A) idx :
  Forall P a -> Forall P (delete_from i a idx).
Proof.
  revert i. induction a as [|x a IH]; intros i Ha; simpl; [done|].
  apply Forall_cons in Ha as [Hx Ha].
  destruct (bool_decide _); [by apply IH|]. constructor; [done | by apply IH].
Qed.

Lemma delete_from_sorted i (a : list nat) idx :
  StronglySorted lt a -> StronglySorted lt (delete_from i a idx).
Proof.
  revert i. induction a as [|x a IH]; intros i Ha; simpl; [done|].
  apply StronglySorted_inv in Ha as [Ha Hx].
  destruct (bool_decide _); [by apply IH|].
  constructor; [by apply IH | by apply delete_from_Forall].
Qed.

Lemma delete_from_length {A B} i (a : list A) (b : list B) idx :
  length a = length b ->
  length (delete_from i a idx) = length (delete_from i b idx).
Proof.
  revert i b. induction a as [|x a IH]; intros i [|y b] Hlen; simpl in *;
    try done.
  destruct (bool_decide _); simpl; [|f_equal]; apply IH; lia.
Qed.

(** ** The extrema locator *)

Lemma argbest_lt better besti best i l :
  besti < i -> argbest better besti best i l < i + length l.
Proof.
  revert besti best i. induction l as [|v l IH]; intros besti best i Hi; simpl.
  - lia.
  - destruct (better v best).
    + specialize (IH i v (S i)). lia.
    + specialize (IH besti best (S i)). lia.
Qed.

Lemma argextreme_of_lt better name l k :
  argextreme_of better name l = Ok k -> k < length l.
Proof.
  destruct l as [|v l]; simpl; [discriminate|]. intros [= <-].
  pose proof (argbest_lt better 0 v 1 l). lia.
Qed.

Lemma slice_length {A} (a : list A) beg end_ :
  length (slice a beg end_) = Nat.min end_ (length a) - beg.
Proof. unfold slice. by rewrite length_drop, length_take. Qed.

Lemma extremum_at_bounds rsp_cleaned startx allx i e :
  extremum_at rsp_cleaned startx allx i = Ok e ->
  exists beg end_, allx !! i = Some beg /\ allx !! (i + 1) = Some end_ /\
    beg <= e /\ e < end_ /\ e < length rsp_cleaned.
Proof.
  unfold extremum_at. intros H.
  apply bind_Ok in H as (argextreme & Harg & H).
  apply bind_Ok in H as (beg & Hbeg%index_Ok & H).
  apply bind_Ok in H as (end_ & Hend%index_Ok & H).
  apply bind_Ok in H as (extreme & Hext & H). injection H as <-.
  assert (extreme < length (slice rsp_cleaned beg end_)) as Hlt.
  { destruct startx as [[]|]; simpl in Harg; [| |discriminate];
      injection Harg as <-;
      destruct (negb _); by eapply argextreme_of_lt. }
  rewrite slice_length in Hlt. exists beg, end_. repeat split; auto; lia.
Qed.

Lemma allx_sorted rsp_cleaned : StronglySorted le (allx_of rsp_cleaned).
Proof. unfold allx_of. apply (StronglySorted_merge_sort _). Qed.

Lemma allx_length rsp_cleaned :
  length (allx_of rsp_cleaned)
  = length (risex rsp_cleaned) + length (fallx rsp_cleaned).
Proof.
  unfold allx_of. rewrite (Permutation_length (merge_sort_Permutation _ _)).
  apply length_app.
Qed.

Lemma extrema_spec rsp_cleaned extrema :
  _rsp_findpeaks_extrema rsp_cleaned = Ok extrema ->
  StronglySorted lt extrema /\
  Forall (fun e => e < length rsp_cleaned) extrema /\
  0 < length extrema.
Proof.
  unfold _rsp_findpeaks_extrema. intros H.
  apply bind_Ok in H as (r0 & Hr0%index_Ok & H).
  apply bind_Ok in H as (f0 & Hf0%index_Ok & H). simpl in H.
  apply lookup_lt_Some in Hr0, Hf0.
  pose proof (allx_length rsp_cleaned) as Hlen.
  pose proof (allx_sorted rsp_cleaned) as Hsorted.
  apply mapM_Ok_lookup in H as [Hl H]. rewrite length_seq in Hl.
  assert (forall j e, extrema !! j = Some e ->
            exists beg end_, allx_of rsp_cleaned !! j = Some beg /\
              allx_of rsp_cleaned !! (j + 1) = Some end_ /\
              beg <= e /\ e < end_ /\ e < length rsp_cleaned) as Hb.
  { intros j e He. pose proof (lookup_lt_Some _ _ _ He) as Hj.
    destruct (H j j) as (y & Hy & Hext); [apply lookup_seq; lia|].
    rewrite He in Hy. injection Hy as <-. by eapply extremum_at_bounds. }
  split; [|split; [|lia]].
  - apply sorted_of_lookup. intros i j x y Hij Hi Hj.
    destruct (Hb _ _ Hi) as (bi & ei & _ & Hei & _ & Hx & _).
    destruct (Hb _ _ Hj) as (bj & ej & Hbj & _ & Hy & _).
    assert (ei <= bj); [|lia].
    destruct (decide (i + 1 = j)) as [<-|Hne]; [by simplify_eq|].
    eapply (sorted_lookup le _ (i + 1) j); eauto. lia.
  - apply Forall_forall. intros e (j & Hj)%list_elem_of_lookup_1.
    by destruct (Hb _ _ Hj) as (? & ? & _ & _ & _ & _ & ?).
Qed.

(** ** The outlier filter *)

Lemma take_indices_subseteq {A} (a : list A) idx r :
  take_indices a idx = Ok r -> forall x, x ∈ r -> x ∈ a.
Proof.
  intros H x (j & Hj)%list_elem_of_lookup_1.
  apply take_indices_Ok in H as [Hlen H].
  destruct (lookup_lt_is_Some_2 idx j) as [i Hi];
    [rewrite <- Hlen; by eapply lookup_lt_Some|].
  destruct (H _ _ Hi) as [_ Heq]. rewrite Hj in Heq.
  by eapply list_elem_of_lookup_2.
Qed.

Lemma outliers_threshold_spec rsp_cleaned extrema thr kept :
  StronglySorted lt extrema ->
  outliers_threshold rsp_cleaned extrema thr = Ok kept ->
  StronglySorted lt kept /\ forall x, x ∈ kept -> x ∈ extrema.
Proof.
  unfold outliers_threshold. intros Hs H.
  apply bind_Ok in H as (amps & Hamps & H). split.
  - eapply take_indices_sorted; [exact Hs | | exact H].
    unfold min_diff_of. apply np_where_sorted.
  - by eapply take_indices_subseteq.
Qed.

Lemma outliers_spec rsp_cleaned extrema thr extrema' amplitudes :
  StronglySorted lt extrema ->
  _rsp_findpeaks_outliers rsp_cleaned extrema thr = Ok (extrema', amplitudes) ->
  StronglySorted lt extrema' /\
  length amplitudes = length extrema' /\
  forall x, x ∈ extrema' -> x ∈ extrema.
Proof.
  unfold _rsp_findpeaks_outliers. intros Hs H.
  apply bind_Ok in H as (kept & Hkept & H).
  apply bind_Ok in H as (amps & Hamps & H). simpl in H.
  injection H as <- <-.
  destruct (outliers_threshold_spec _ _ _ _ Hs Hkept) as [Hk Hsub].
  apply take_indices_Ok in Hamps as [Hlen _].
  split; [by apply delete_from_sorted|]. split.
  - by apply delete_from_length.
  - intros x Hx. apply Hsub. revert x Hx. apply Forall_forall.
    apply delete_from_Forall. by apply Forall_forall.
Qed.

(** ** The sanitizer *)

Lemma every_other_lookup {A} (a : list A) i :
  every_other a !! i = a !! (2 * i).
Proof.
  revert a. induction i as [|i IH]; intros a.
  - by destruct a.
  - destruct a as [|x [|y a]]; simpl; try done.
    rewrite IH. by replace (i + S (i + 0)) with (S (2 * i)) by lia.
Qed.

Lemma every_other_length {A B} (a : list A) (b : list B) :
  length a = length b -> length (every_other a) = length (every_other b).
Proof.
  revert b. induction a as [a IH] using (induction_ltof1 _ length).
  unfold ltof in IH. intros b Hlen.
  destruct a as [|x [|y a]], b as [|x' [|y' b]]; simpl in *; try done.
  f_equal. apply IH; lia.
Qed.

Lemma but_last_length {A} (a : list A) : length (but_last a) = length a - 1.
Proof. unfold but_last. rewrite length_take. lia. Qed.

Lemma from_1_length {A} (a : list A) : length (from_1 a) = length a - 1.
Proof. unfold from_1. by rewrite length_drop. Qed.

Lemma peaks_troughs_length {A} (a : list A) :
  length (odd_positions a) = length (even_positions_but_last a).
Proof.
  apply every_other_length. by rewrite from_1_length, but_last_length.
Qed.

Lemma odd_positions_lookup {A} (a : list A) i :
  odd_positions a !! i = a !! (2 * i + 1).
Proof.
  unfold odd_positions, from_1. rewrite every_other_lookup, lookup_drop.
  f_equal. lia.
Qed.

Lemma even_positions_lookup {A} (a : list A) i x :
  even_positions_but_last a !! i = Some x -> a !! (2 * i) = Some x.
Proof.
  unfold even_positions_but_last, but_last. rewrite every_other_lookup.
  by intros [? _]%lookup_take_Some.
Qed.

Lemma but_last_sorted (a : list nat) :
  StronglySorted lt a -> StronglySorted lt (but_last a).
Proof.
  intros H. unfold but_last.
  rewrite <- (take_drop (length a - 1) a) in H.
  by apply StronglySorted_app_1_l in H.
Qed.

Lemma sanitize_spec extrema amplitudes peaks troughs :
  StronglySorted lt extrema ->
  _rsp_findpeaks_sanitize extrema amplitudes = Ok (peaks, troughs) ->
  exists trimmed,
    StronglySorted lt trimmed /\
    (forall x, x ∈ trimmed -> x ∈ extrema) /\
    peaks = odd_positions trimmed /\
    troughs = even_positions_but_last trimmed.
Proof.
  unfold _rsp_findpeaks_sanitize. intros Hs H.
  apply bind_Ok in H as (a0 & _ & H). apply bind_Ok in H as (a1 & _ & H).
  apply bind_Ok in H as (e1 & He1 & H).
  apply bind_Ok in H as (al & _ & H). apply bind_Ok in H as (al2 & _ & H).
  apply bind_Ok in H as (e2 & He2 & H). simpl in H. injection H as <- <-.
  assert (StronglySorted lt e1 /\ forall x, x ∈ e1 -> x ∈ extrema) as [Hs1 Hsub1].
  { destruct (Qgtb a0 a1); [|by injection He1 as <-].
    destruct extrema as [|x t]; simpl in He1; [discriminate|].
    injection He1 as <-. apply StronglySorted_inv in Hs as [? _].
    split; [done|]. intros y ?. by right. }
  exists e2. split; [|split; [|done]].
  - destruct (Qltb al al2); [|by injection He2 as <-].
    destruct e1 as [|x t]; simpl in He2; [discriminate|].
    injection He2 as <-. by apply but_last_sorted.
  - intros x Hx. apply Hsub1. destruct (Qltb al al2); [|by injection He2 as <-].
    destruct e1 as [|y t]; simpl in He2; [discriminate|].
    injection He2 as <-. unfold but_last in Hx.
    eapply elem_of_sublist; [exact Hx | apply sublist_take].
Qed.

(** ** The pipeline *)

Lemma khodadad_spec rsp_cleaned thr info :
  _rsp_findpeaks_khodadad rsp_cleaned thr = Ok info ->
  exists trimmed,
    StronglySorted lt trimmed /\
    Forall (fun e => e < length rsp_cleaned) trimmed /\
    info = <["RSP_Troughs" := even_positions_but_last trimmed]>
             (<["RSP_Peaks" := odd_positions trimmed]> ∅).
Proof.
  unfold _rsp_findpeaks_khodadad. intros H.
  apply bind_Ok in H as (extrema & Hext & H).
  apply bind_Ok in H as ([extrema' amplitudes] & Hout & H).
  apply bind_Ok in H as ([peaks troughs] & Hsan & H). injection H as <-.
  apply extrema_spec in Hext as (Hs & Hrange & _).
  apply outliers_spec in Hout as (Hs' & _ & Hsub); [|done].
  apply sanitize_spec in Hsan as (trimmed & Hst & Hsub' & -> & ->); [|done].
  exists trimmed. split; [done|]. split; [|done].
  apply Forall_forall. intros x Hx. rewrite Forall_forall in Hrange. auto.
Qed.

(** What a successful call went through. *)
Lemma rsp_findpeaks_Ok rsp_cleaned method thr signals info :
  rsp_findpeaks rsp_cleaned method thr = Ok (signals, info) ->
  exists values thr' peaks troughs inspiration,
    retrieve_column rsp_cleaned = Ok values /\
    _rsp_findpeaks_khodadad values thr' = Ok info /\
    info !! "RSP_Peaks" = Some peaks /\
    info !! "RSP_Troughs" = Some troughs /\
    _rsp_findpeaks_phase
      [("RSP_Peaks", indicator (length values) peaks);
       ("RSP_Troughs", indicator (length values) troughs)] = Ok inspiration /\
    signals = [("RSP_Peaks", indicator (length values) peaks);
               ("RSP_Troughs", indicator (length values) troughs);
               ("RSP_Inspiration", inspiration)].
Proof.
  unfold rsp_findpeaks. intros H.
  apply bind_Ok in H as (values & Hcol & H). simpl in H.
  apply bind_Ok in H as (info' & Hinfo & H).
  apply bind_Ok in H as (peak_indices & Hpk & H).
  apply bind_Ok in H as (signals0 & Hsig & H).
  apply bind_Ok in H as (inspiration & Hphase & H). injection H as <- <-.
  unfold _signals_from_peakinfo in Hsig.
  apply bind_Ok in Hsig as (peaks & Hpeaks & Hsig).
  apply bind_Ok in Hsig as (troughs & Htroughs & Hsig). injection Hsig as <-.
  unfold dict_getitem in Hpeaks, Htroughs.
  destruct (info' !! "RSP_Peaks") as [pk|] eqn:E1; [|discriminate].
  destruct (info' !! "RSP_Troughs") as [tr|] eqn:E2; [|discriminate].
  injection Hpeaks as <-. injection Htroughs as <-.
  assert (exists thr', _rsp_findpeaks_khodadad values thr' = Ok info')
    as [thr' Hk].
  { destruct (bool_decide (lower method ∈ ["khodadad"; "khodadad2018"]));
      [by exists thr|].
    destruct (bool_decide (lower method = "biosppy")); [|discriminate].
    by exists 0%Q. }
  exists values, thr', pk, tr, inspiration. repeat split; auto.
Qed.

Lemma khodadad_info_lookup trimmed :
  let info : gmap string (list nat) :=
    <["RSP_Troughs" := even_positions_but_last trimmed]>
      (<["RSP_Peaks" := odd_positions trimmed]> ∅) in
  info !! "RSP_Peaks" = Some (odd_positions trimmed) /\
  info !! "RSP_Troughs" = Some (even_positions_but_last trimmed).
Proof.
  simpl. split.
  - rewrite lookup_insert_ne by done. apply lookup_insert_eq.
  - apply lookup_insert_eq.
Qed.

Lemma demo_run :
  rsp_findpeaks (Sequence demo_signal) default_method default_outlier_threshold
  = Ok (demo_signals, demo_info).
Proof. vm_compute. reflexivity. Qed.

(** C1.  On every successful call the returned "RSP_Peaks" and
    "RSP_Troughs" index sequences have the same length, and
    Troughs[i] < Peaks[i] < Troughs[i+1] wherever these positions exist. *)
Theorem rsp_findpeaks_alternation rsp_cleaned method thr signals info :
  rsp_findpeaks rsp_cleaned method thr = Ok (signals, info) ->
  exists peaks troughs,
    info !! "RSP_Peaks" = Some peaks /\
    info !! "RSP_Troughs" = Some troughs /\
    length peaks = length troughs /\
    (forall i t p, troughs !! i = Some t -> peaks !! i = Some p -> t < p) /\
    (forall i p t, peaks !! i = Some p -> troughs !! (i + 1) = Some t -> p < t).
Proof.
  intros H. apply rsp_findpeaks_Ok in H
    as (values & thr' & peaks & troughs & insp & _ & Hk & Hp & Ht & _).
  apply khodadad_spec in Hk as (trimmed & Hs & _ & ->).
  destruct (khodadad_info_lookup trimmed) as [Hp' Ht']. simpl in *.
  rewrite Hp' in Hp. rewrite Ht' in Ht. injection Hp as <-. injection Ht as <-.
  eexists _, _. split; [done|]. split; [done|].
  split; [apply peaks_troughs_length|]. split.
  - intros i t p Hti Hpi. apply even_positions_lookup in Hti.
    rewrite odd_positions_lookup in Hpi.
    eapply (sorted_lookup lt trimmed (2 * i) (2 * i + 1)); eauto. lia.
  - intros i p t Hpi Hti. apply even_positions_lookup in Hti.
    rewrite odd_positions_lookup in Hpi.
    eapply (sorted_lookup lt trimmed (2 * i + 1) (2 * (i + 1))); eauto. lia.
Qed.

Lemma rsp_findpeaks_alternation_witness :
  exists peaks troughs,
    demo_info !! "RSP_Peaks" = Some peaks /\
    demo_info !! "RSP_Troughs" = Some troughs /\
    length peaks = length troughs /\
    (forall i t p, troughs !! i = Some t -> peaks !! i = Some p -> t < p) /\
    (forall i p t, peaks !! i = Some p -> troughs !! (i + 1) = Some t -> p < t).
Proof.
  apply (rsp_findpeaks_alternation (Sequence demo_signal) default_method
           default_outlier_threshold demo_signals demo_info).
  vm_compute. reflexivity.
Defined.

(** C2.  Method "biosppy" returns what method "khodadad2018" returns with
    outlier_threshold = 0: the same table and info, or the same error,
    whatever the signal and the threshold passed along. *)
Theorem biosppy_is_khodadad_at_threshold_0 rsp_cleaned thr :
  rsp_findpeaks rsp_cleaned "biosppy" thr
  = rsp_findpeaks rsp_cleaned "khodadad2018" 0%Q.
Proof.
  unfold rsp_findpeaks. destruct (retrieve_column rsp_cleaned); [|done].
  reflexivity.
Qed.

(** C7.  A method name that, lower-cased, is none of the accepted names
    raises the ValueError naming 'khodadad2018' and 'biosppy'; no table and
    no info come back. *)
Theorem rsp_findpeaks_invalid_method rsp_cleaned values method thr :
  retrieve_column rsp_cleaned = Ok values ->
  lower method ∉ ["khodadad"; "khodadad2018"; "biosppy"] ->
  rsp_findpeaks rsp_cleaned method thr
  = Raise (ValueError
      "NeuroKit error: rsp_findpeaks(): 'method' should be one of 'khodadad2018' or 'biosppy'.").
Proof.
  intros Hcol Hm. unfold rsp_findpeaks. rewrite Hcol. simpl.
  rewrite bool_decide_eq_false_2.
  - rewrite bool_decide_eq_false_2; [done|].
    intros Heq. apply Hm. rewrite Heq. do 2 right. by left.
  - intros Hin. apply Hm. rewrite !elem_of_cons in *. tauto.
Qed.

Lemma rsp_findpeaks_invalid_method_witness :
  rsp_findpeaks (Sequence demo_signal) "not_a_method" default_outlier_threshold
  = Raise (ValueError
      "NeuroKit error: rsp_findpeaks(): 'method' should be one of 'khodadad2018' or 'biosppy'.").
Proof.
  apply (rsp_findpeaks_invalid_method (Sequence demo_signal) demo_signal).
  - reflexivity.
  - apply (bool_decide_eq_false_1 _). vm_compute. reflexivity.
Defined.

(** ** Too little oscillation *)

Lemma extrema_no_crossing rsp_cleaned :
  risex rsp_cleaned = [] \/ fallx rsp_cleaned = [] ->
  _rsp_findpeaks_extrema rsp_cleaned = Raise IndexError.
Proof.
  unfold _rsp_findpeaks_extrema. intros [H|H].
  - by rewrite H.
  - rewrite H. destruct (index (risex rsp_cleaned) 0) as [r0|e] eqn:E; [done|].
    by apply index_Raise in E as [-> _].
Qed.

Lemma khodadad_no_crossing rsp_cleaned thr :
  risex rsp_cleaned = [] \/ fallx rsp_cleaned = [] ->
  _rsp_findpeaks_khodadad rsp_cleaned thr = Raise IndexError.
Proof.
  intros H. unfold _rsp_findpeaks_khodadad.
  by rewrite (extrema_no_crossing _ H).
Qed.

(** C3, as stated, fails: a signal without a zero-crossing ends in the
    bare IndexError of [risex[0]], not in a ValueError of the domain. *)
Lemma no_oscillation_is_a_raw_IndexError :
  length (allx_of flat_signal) < 2 /\
  rsp_findpeaks (Sequence flat_signal) default_method default_outlier_threshold
  = Raise IndexError /\
  ~ (exists msg,
       rsp_findpeaks (Sequence flat_signal) default_method
         default_outlier_threshold = Raise (ValueError msg)).
Proof.
  split; [vm_compute; lia|]. split; [reflexivity|].
  intros [msg H]. vm_compute in H. discriminate.
Qed.

(** C3, amended.  With an accepted method, a signal with fewer than two
    zero-crossings has no rising or no falling crossing, and every signal
    with no rising or no falling crossing makes rsp_findpeaks raise
    IndexError. *)
Theorem rsp_findpeaks_no_oscillation rsp_cleaned values method thr :
  retrieve_column rsp_cleaned = Ok values ->
  lower method ∈ ["khodadad"; "khodadad2018"; "biosppy"] ->
  length (allx_of values) < 2 \/ risex values = [] \/ fallx values = [] ->
  rsp_findpeaks rsp_cleaned method thr = Raise IndexError.
Proof.
  intros Hcol Hm Hx.
  assert (risex values = [] \/ fallx values = []) as Hnone.
  { destruct Hx as [Hx|Hx]; [|done]. rewrite allx_length in Hx.
    destruct (risex values); [by left|].
    destruct (fallx values); [by right|]. simpl in Hx. lia. }
  unfold rsp_findpeaks. rewrite Hcol. simpl.
  destruct (bool_decide (lower method ∈ ["khodadad"; "khodadad2018"])) eqn:E1.
  - by rewrite khodadad_no_crossing.
  - apply bool_decide_eq_false in E1.
    rewrite bool_decide_eq_true_2
      by (rewrite !elem_of_cons in *; rewrite elem_of_nil in *; tauto).
    unfold _rsp_findpeaks_biosppy. by rewrite khodadad_no_crossing.
Qed.

Lemma rsp_findpeaks_no_oscillation_witness :
  rsp_findpeaks (Sequence flat_signal) "BioSPPy" default_outlier_threshold
  = Raise IndexError.
Proof.
  apply (rsp_findpeaks_no_oscillation (Sequence flat_signal) flat_signal).
  - reflexivity.
  - apply (bool_decide_eq_true_1 _). vm_compute. reflexivity.
  - left. vm_compute. lia.
Defined.

(** ** Too few extrema after filtering *)

Lemma sanitize_too_few extrema amplitudes :
  length amplitudes < 2 ->
  _rsp_findpeaks_sanitize extrema amplitudes = Raise IndexError.
Proof.
  intros H. unfold _rsp_findpeaks_sanitize.
  destruct amplitudes as [|a0 [|a1 t]]; simpl in *; try done. lia.
Qed.

(** C4, as stated, fails: at outlier_threshold 5 nothing survives the
    filter on a signal that is processed fine at the default threshold,
    and the call ends in the bare IndexError of [amplitudes[0]]. *)
Lemma too_few_extrema_is_a_raw_IndexError :
  (extrema ← _rsp_findpeaks_extrema demo_signal;
   _rsp_findpeaks_outliers demo_signal extrema 5%Q) = Ok ([], []) /\
  is_Ok (rsp_findpeaks (Sequence demo_signal) default_method
           default_outlier_threshold) /\
  rsp_findpeaks (Sequence demo_signal) default_method 5%Q = Raise IndexError /\
  ~ (exists msg,
       rsp_findpeaks (Sequence demo_signal) default_method 5%Q
       = Raise (ValueError msg)).
Proof.
  split; [vm_compute; reflexivity|].
  split; [eexists; vm_compute; reflexivity|].
  split; [vm_compute; reflexivity|].
  intros [msg H]. vm_compute in H. discriminate.
Qed.

(** C4, amended.  Whenever fewer than two extrema survive the outlier
    filter, rsp_findpeaks raises IndexError, from the first comparison of
    the sanitizer.  This holds under every method it accepts, the filter
    running at the given threshold under the Khodadad method and at 0 under
    biosppy. *)
Theorem too_few_extrema_raises_IndexError
    rsp_cleaned values method thr extrema survivors amplitudes :
  retrieve_column rsp_cleaned = Ok values ->
  lower method ∈ ["khodadad"; "khodadad2018"; "biosppy"] ->
  _rsp_findpeaks_extrema values = Ok extrema ->
  _rsp_findpeaks_outliers values extrema (effective_threshold method thr)
  = Ok (survivors, amplitudes) ->
  length survivors < 2 ->
  _rsp_findpeaks_sanitize survivors amplitudes = Raise IndexError /\
  rsp_findpeaks rsp_cleaned method thr = Raise IndexError.
Proof.
  intros Hcol Hm Hext Hout Hlen.
  assert (_rsp_findpeaks_sanitize survivors amplitudes = Raise IndexError)
    as Hsan.
  { apply sanitize_too_few. apply extrema_spec in Hext as (Hs & _ & _).
    apply outliers_spec in Hout as (_ & Heq & _); [|done]. lia. }
  split; [done|].
  unfold rsp_findpeaks. rewrite Hcol. simpl.
  unfold effective_threshold in Hout.
  destruct (bool_decide (lower method ∈ ["khodadad"; "khodadad2018"])) eqn:E.
  - unfold _rsp_findpeaks_khodadad. rewrite Hext. simpl. rewrite Hout. simpl.
    by rewrite Hsan.
  - apply bool_decide_eq_false in E.
    rewrite bool_decide_eq_true_2
      by (rewrite !elem_of_cons in *; rewrite elem_of_nil in *; tauto).
    unfold _rsp_findpeaks_biosppy, _rsp_findpeaks_khodadad.
    rewrite Hext. simpl. rewrite Hout. simpl. by rewrite Hsan.
Qed.

Lemma too_few_extrema_raises_IndexError_witness :
  (_rsp_findpeaks_sanitize [] [] = Raise IndexError /\
   rsp_findpeaks (Sequence demo_signal) "khodadad2018" 5%Q
   = Raise IndexError) /\
  (_rsp_findpeaks_sanitize [] [] = Raise IndexError /\
   rsp_findpeaks (Sequence single_swing) "biosppy" default_outlier_threshold
   = Raise IndexError).
Proof.
  split.
  - apply (too_few_extrema_raises_IndexError (Sequence demo_signal)
             demo_signal "khodadad2018" 5%Q demo_extrema [] []).
    + reflexivity.
    + apply (bool_decide_eq_true_1 _). vm_compute. reflexivity.
    + vm_compute. reflexivity.
    + vm_compute. reflexivity.
    + simpl. lia.
  - apply (too_few_extrema_raises_IndexError (Sequence single_swing)
             single_swing "biosppy" default_outlier_threshold [0] [] []).
    + reflexivity.
    + apply (bool_decide_eq_true_1 _). vm_compute. reflexivity.
    + vm_compute. reflexivity.
    + vm_compute. reflexivity.
    + simpl. lia.
Defined.

(** ** The column of a DataFrame argument *)

Lemma getitem_missing {A} (df : frame A) name :
  name ∉ columns df -> getitem df name = Raise (KeyError name).
Proof.
  induction df as [|[k c] df IH]; simpl; [done|]. intros Hn.
  apply not_elem_of_cons in Hn as [Hne Hn].
  destruct (String.eqb_spec k name); [congruence | auto].
Qed.

Lemma retrieve_column_without_clean df :
  "RSP_Clean" ∉ columns df ->
  retrieve_column (DataFrame df) = Raise (KeyError "RSP_Clean").
Proof. intros H. simpl. by rewrite getitem_missing. Qed.

(** C6.  The code at a table that lacks "RSP_Clean" but has "RSP_Raw": the
    KeyError of the first lookup is not a NameError, so no handler runs and
    the call ends there, although the same samples passed as a sequence are
    processed. *)
Theorem raw_column_is_not_used :
  rsp_findpeaks (DataFrame [("RSP_Raw", demo_signal)]) default_method
    default_outlier_threshold = Raise (KeyError "RSP_Clean") /\
  rsp_findpeaks (Sequence demo_signal) default_method
    default_outlier_threshold = Ok (demo_signals, demo_info).
Proof. split; vm_compute; reflexivity. Qed.

(** ** The thresholding step of the outlier filter *)

Lemma np_diff_lookup (a : list Q) i :
  np_diff a !! i
  = match a !! i, a !! (i + 1) with
    | Some x, Some y => Some (y - x)%Q
    | _, _ => None
    end.
Proof.
  revert i. induction a as [|x a IH]; intros i; [by destruct i|].
  destruct a as [|y a]; [by destruct i as [|[|i]]|].
  destruct i as [|i]; [done|]. apply (IH i).
Qed.

Lemma np_diff_length (a : list Q) : length (np_diff a) = length a - 1.
Proof.
  induction a as [|x a IH]; [done|]. destruct a as [|y a]; [done|].
  change (S (length (np_diff (y :: a))) = S (length (y :: a)) - 1).
  rewrite IH. simpl. lia.
Qed.

Lemma min_diff_spec amplitudes thr i :
  i ∈ min_diff_of amplitudes thr <->
  exists a b m,
    amplitudes !! i = Some a /\ amplitudes !! (i + 1) = Some b /\
    np_mean (vertical_diff_of amplitudes) = Some m /\
    (m * thr < Qabs (b - a))%Q.
Proof.
  unfold min_diff_of. simpl. rewrite elem_of_np_where, list_lookup_fmap.
  unfold vertical_diff_of at 2. rewrite list_lookup_fmap, np_diff_lookup.
  split.
  - destruct (amplitudes !! i) as [a|]; [|done].
    destruct (amplitudes !! (i + 1)) as [b|]; [|done]. simpl.
    destruct (np_mean _) as [m|]; [|done]. simpl.
    intros [= H%Qgtb_lt]. by exists a, b, m.
  - intros (a & b & m & -> & -> & -> & H). simpl. f_equal. by apply Qgtb_lt.
Qed.

Lemma min_diff_lt amplitudes thr i :
  i ∈ min_diff_of amplitudes thr -> i < length amplitudes - 1.
Proof.
  intros (a & b & m & _ & Hb & _)%min_diff_spec.
  apply lookup_lt_Some in Hb. lia.
Qed.

Lemma sorted_lt_length (l : list nat) lo hi :
  StronglySorted lt l -> Forall (fun x => lo <= x < hi) l ->
  length l <= hi - lo.
Proof.
  intros Hs. revert lo. induction Hs as [|x l Hs IH Hx]; intros lo Hb; simpl.
  - lia.
  - apply Forall_cons in Hb as [Hxb Hb].
    assert (length l <= hi - S x); [|lia]. apply IH.
    rewrite Forall_forall in *. intros y Hy.
    specialize (Hx y Hy). specialize (Hb y Hy). lia.
Qed.

Lemma min_diff_length amplitudes thr :
  length (min_diff_of amplitudes thr) <= length amplitudes - 1.
Proof.
  rewrite <- (Nat.sub_0_r (length amplitudes - 1)).
  apply sorted_lt_length; [apply np_where_sorted|].
  apply Forall_forall. intros i Hi%min_diff_lt. lia.
Qed.

(** The extrema kept by the step are those at the positions [min_diff]. *)
Lemma threshold_kept rsp_cleaned extrema thr amplitudes :
  take_indices rsp_cleaned extrema = Ok amplitudes ->
  exists kept,
    outliers_threshold rsp_cleaned extrema thr = Ok kept /\
    length kept = length (min_diff_of amplitudes thr) /\
    forall j i, min_diff_of amplitudes thr !! j = Some i ->
                kept !! j = extrema !! i.
Proof.
  intros Hamps. unfold outliers_threshold. rewrite Hamps. simpl.
  apply take_indices_Ok in Hamps as [Hlen _].
  destruct (take_indices_in_range extrema (min_diff_of amplitudes thr))
    as [kept Hkept].
  { intros i Hi%min_diff_lt. lia. }
  exists kept. split; [done|].
  apply take_indices_Ok in Hkept as [Hl Hk]. split; [done|].
  intros j i Hj. by destruct (Hk _ _ Hj).
Qed.





(** ** The thresholding step over any arithmetic *)

Section ThresholdingProperties.
Context {F : Type} {arithmetic : Arithmetic F}.

Lemma np_diff_in_lookup (a : list F) i :
  np_diff_in a !! i
  = match a !! i, a !! (i + 1) with
    | Some x, Some y => Some (arith_sub y x)
    | _, _ => None
    end.
Proof.
  revert i. induction a as [|x a IH]; intros i; [by destruct i|].
  destruct a as [|y a]; [by destruct i as [|[|i]]|].
  destruct i as [|i]; [done|]. apply (IH i).
Qed.

Lemma np_diff_in_length (a : list F) : length (np_diff_in a) = length a - 1.
Proof.
  induction a as [|x a IH]; [done|]. destruct a as [|y a]; [done|].
  change (S (length (np_diff_in (y :: a))) = S (length (y :: a)) - 1).
  rewrite IH. simpl. lia.
Qed.

(** The source's [np.abs(np.diff(...))] is the list of vertical distances
    of the consecutive pairs. *)
Lemma vertical_diff_in_distances (amplitudes : list F) :
  vertical_diff_in amplitudes = vertical_distances amplitudes.
Proof.
  unfold vertical_diff_in, vertical_distances.
  induction amplitudes as [|x a IH]; [done|].
  destruct a as [|y a]; [done|].
  change (arith_abs (arith_sub y x) :: (arith_abs <$> np_diff_in (y :: a))
          = arith_abs (arith_sub y x)
            :: zip_with (fun a b => arith_abs (arith_sub b a))
                 (y :: a) (drop 1 (y :: a))).
  by rewrite IH.
Qed.

Lemma min_diff_in_spec (amplitudes : list F) thr i :
  i ∈ min_diff_in amplitudes thr <->
  exists a b,
    amplitudes !! i = Some a /\ amplitudes !! (i + 1) = Some b /\
    arith_gt (arith_abs (arith_sub b a))
             (arith_mul (mean_distance amplitudes) thr) = true.
Proof.
  unfold mean_distance. rewrite <- vertical_diff_in_distances.
  unfold min_diff_in. simpl. rewrite elem_of_np_where, list_lookup_fmap.
  set (bound := arith_mul _ thr).
  unfold vertical_diff_in. rewrite list_lookup_fmap, np_diff_in_lookup.
  split.
  - destruct (amplitudes !! i) as [a|]; [|done].
    destruct (amplitudes !! (i + 1)) as [b|]; [|done]. simpl.
    intros [= H]. by exists a, b.
  - intros (a & b & -> & -> & H). simpl. by f_equal.
Qed.

Lemma min_diff_in_lt (amplitudes : list F) thr i :
  i ∈ min_diff_in amplitudes thr -> i < length amplitudes - 1.
Proof.
  intros (a & b & _ & Hb & _)%min_diff_in_spec.
  apply lookup_lt_Some in Hb. lia.
Qed.

Lemma min_diff_in_length (amplitudes : list F) thr :
  length (min_diff_in amplitudes thr) <= length amplitudes - 1.
Proof.
  rewrite <- (Nat.sub_0_r (length amplitudes - 1)).
  apply sorted_lt_length; [apply np_where_sorted|].
  apply Forall_forall. intros i Hi%min_diff_in_lt. lia.
Qed.

Lemma threshold_kept_in (rsp_cleaned : list F) extrema thr amplitudes :
  take_indices rsp_cleaned extrema = Ok amplitudes ->
  exists kept,
    outliers_threshold_in rsp_cleaned extrema thr = Ok kept /\
    length kept = length (min_diff_in amplitudes thr) /\
    forall j i, min_diff_in amplitudes thr !! j = Some i ->
                kept !! j = extrema !! i.
Proof.
  intros Hamps. unfold outliers_threshold_in. rewrite Hamps. simpl.
  apply take_indices_Ok in Hamps as [Hlen _].
  destruct (take_indices_in_range extrema (min_diff_in amplitudes thr))
    as [kept Hkept].
  { intros i Hi%min_diff_in_lt. lia. }
  exists kept. split; [done|].
  apply take_indices_Ok in Hkept as [Hl Hk]. split; [done|].
  intros j i Hj. by destruct (Hk _ _ Hj).
Qed.

(** C10.  In the arithmetic of the samples, whichever it is, and for a
    nonempty sequence of extrema in range: the thresholding step keeps the
    extremum at position i exactly when i < n-1 and the vertical distance
    |amplitude[i+1] - amplitude[i]| exceeds mean_distance * threshold, the
    mean being that of the n-1 vertical distances and difference, absolute
    value, mean, product and comparison being those of the arithmetic.  The
    kept positions are ascending, position n-1 is never among them, and
    fewer extrema come out than went in. *)
Theorem threshold_step_drops_last
    (rsp_cleaned : list F) extrema (thr : F) amplitudes :
  extrema <> [] ->
  take_indices rsp_cleaned extrema = Ok amplitudes ->
  let n := length extrema in
  let min_diff := min_diff_in amplitudes thr in
  (forall i, i ∈ min_diff <->
     i < n - 1 /\
     exists a b,
       amplitudes !! i = Some a /\ amplitudes !! (i + 1) = Some b /\
       arith_gt (arith_abs (arith_sub b a))
                (arith_mul (mean_distance amplitudes) thr) = true) /\
  length (vertical_distances amplitudes) = n - 1 /\
  StronglySorted lt min_diff /\
  ((n - 1) ∉ min_diff) /\
  exists kept,
    outliers_threshold_in rsp_cleaned extrema thr = Ok kept /\
    length kept = length min_diff /\
    length kept < n /\
    forall j i, min_diff !! j = Some i -> kept !! j = extrema !! i.
Proof.
  intros Hne Hamps n min_diff.
  pose proof (take_indices_Ok _ _ _ Hamps) as [Hlen _].
  assert (0 < n) as Hn by (subst n; destruct extrema; [done | simpl; lia]).
  split; [|split; [|split; [|split]]].
  - intros i. subst min_diff. rewrite min_diff_in_spec. split.
    + intros (a & b & Ha & Hb & H). split; [|by exists a, b].
      apply lookup_lt_Some in Hb. subst n. lia.
    + by intros [_ H].
  - rewrite <- vertical_diff_in_distances. unfold vertical_diff_in.
    rewrite length_fmap, np_diff_in_length. subst n. lia.
  - apply np_where_sorted.
  - intros Hin%min_diff_in_lt. subst n. lia.
  - destruct (threshold_kept_in rsp_cleaned extrema thr amplitudes Hamps)
      as (kept & Hk & Hl & Hlk).
    exists kept. repeat split; auto.
    pose proof (min_diff_in_length amplitudes thr). subst n. lia.
Qed.

End ThresholdingProperties.

(** At binary64 and threshold 0.3 the step keeps one of the four extrema of
    the example. *)
Lemma threshold_step_drops_last_witness :
  exists kept,
    outliers_threshold_in boundary_signal [0; 1; 2; 3] binary64_0_3
    = Ok kept /\
    length kept < 4.
Proof.
  destruct (threshold_step_drops_last boundary_signal [0; 1; 2; 3]
              binary64_0_3 boundary_signal)
    as (_ & _ & _ & _ & kept & Hk & _ & Hlt & _).
  - discriminate.
  - vm_compute. reflexivity.
  - exists kept. split; [exact Hk | exact Hlt].
Defined.

(** The step of the embedding above is the step at exact rationals. *)
Lemma np_diff_in_exact (a : list Q) :
  np_diff_in (Some <$> a) = Some <$> np_diff a.
Proof.
  induction a as [|x a IH]; [done|]. destruct a as [|y a]; [done|].
  change (Some (y - x)%Q :: np_diff_in (Some <$> y :: a)
          = Some (y - x)%Q :: (Some <$> np_diff (y :: a))).
  by rewrite IH.
Qed.

Lemma mapM_id_Some (l : list Q) : mapM id (Some <$> l) = Some l.
Proof.
  apply mapM_Some. apply Forall2_fmap_l, Forall_Forall2_diag.
  by apply Forall_true.
Qed.

Lemma vertical_diff_in_exact (amplitudes : list Q) :
  vertical_diff_in (Some <$> amplitudes) = Some <$> vertical_diff_of amplitudes.
Proof.
  unfold vertical_diff_in, vertical_diff_of.
  rewrite np_diff_in_exact, <- !list_fmap_compose. by apply list_fmap_ext.
Qed.

Lemma arith_mean_exact (l : list Q) : arith_mean (Some <$> l) = np_mean l.
Proof.
  change (mapM id (Some <$> l) ≫= np_mean = np_mean l).
  by rewrite mapM_id_Some.
Qed.

Lemma min_diff_in_exact (amplitudes : list Q) (thr : Q) :
  min_diff_in (Some <$> amplitudes) (Some thr) = min_diff_of amplitudes thr.
Proof.
  unfold min_diff_in, min_diff_of.
  rewrite vertical_diff_in_exact, arith_mean_exact, <- list_fmap_compose.
  f_equal. apply list_fmap_ext. intros _ v _. simpl.
  unfold gt_scaled. by destruct (np_mean _).
Qed.

Lemma index_fmap {A B} (f : A -> B) (a : list A) i :
  index (f <$> a) i
  = match index a i with Ok v => Ok (f v) | Raise e => Raise e end.
Proof. unfold index. rewrite list_lookup_fmap. by destruct (a !! i). Qed.

Lemma take_indices_fmap {A B} (f : A -> B) (a : list A) idx :
  take_indices (f <$> a) idx
  = match take_indices a idx with
    | Ok l => Ok (f <$> l)
    | Raise e => Raise e
    end.
Proof.
  unfold take_indices. induction idx as [|i idx IH]; [done|].
  change (mapM (index (f <$> a)) (i :: idx))
    with (y ← index (f <$> a) i; k ← mapM (index (f <$> a)) idx; Ok (y :: k)).
  change (mapM (index a) (i :: idx))
    with (y ← index a i; k ← mapM (index a) idx; Ok (y :: k)).
  rewrite IH, index_fmap.
  destruct (index a i) as [v|e]; [|done]. simpl.
  by destruct (mapM (index a) idx).
Qed.

Lemma outliers_threshold_in_exact (rsp_cleaned : list Q) extrema (thr : Q) :
  outliers_threshold_in (Some <$> rsp_cleaned) extrema (Some thr)
  = outliers_threshold rsp_cleaned extrema thr.
Proof.
  unfold outliers_threshold_in, outliers_threshold.
  rewrite take_indices_fmap.
  destruct (take_indices rsp_cleaned extrema) as [amplitudes|e]; [|done].
  simpl. by rewrite min_diff_in_exact.
Qed.

(** Rounding decides at the boundary: on the example binary64 drops the
    position whose distance 1 equals the rounded product, where exact
    arithmetic at the very rational that binary64 holds for 0.3 keeps it,
    the exact product being below 1. *)
Lemma rounding_decides_at_the_boundary :
  min_diff_in boundary_signal binary64_0_3 = [2] /\
  min_diff_in boundary_exact (Some exact_0_3) = [1; 2] /\
  min_diff_in boundary_exact (Some default_outlier_threshold) = [2].
Proof. repeat split; vm_compute; reflexivity. Qed.

(** ** The inspiration phase *)

Lemma indicator_length n idx : length (indicator n idx) = n.
Proof. unfold indicator. by rewrite length_fmap, length_seq. Qed.

Lemma elem_of_where_indicator n idx k :
  k ∈ np_where (eq_one (indicator n idx)) <-> k < n /\ k ∈ idx.
Proof.
  rewrite elem_of_np_where. unfold eq_one, indicator.
  rewrite !list_lookup_fmap. split.
  - destruct (seq 0 n !! k) as [k'|] eqn:E; [|done].
    apply lookup_seq in E as [-> ?]. simpl.
    destruct (bool_decide_reflect (k ∈ idx)); [done|].
    intros Hq. vm_compute in Hq. discriminate.
  - intros [Hk Hin]. rewrite (lookup_seq_lt 0 n k Hk). simpl.
    by rewrite bool_decide_eq_true_2.
Qed.

Lemma foldl_insert_spec {A} (v : A) (idx : list nat) (a : list A) :
  length (foldl (fun acc i => <[i := v]> acc) a idx) = length a /\
  forall k, k < length a ->
    foldl (fun acc i => <[i := v]> acc) a idx !! k
    = if bool_decide (k ∈ idx) then Some v else a !! k.
Proof.
  revert a. induction idx as [|i idx IH]; intros a; simpl.
  - split; [done|]. intros k _.
    by destruct (bool_decide_reflect (k ∈ @nil nat)) as [?%elem_of_nil|].
  - destruct (IH (<[i := v]> a)) as [Hlen Hlk]. rewrite length_insert in *.
    split; [done|]. intros k Hk. rewrite (Hlk k Hk).
    destruct (bool_decide_reflect (k ∈ idx)) as [Hin|Hin].
    + rewrite bool_decide_eq_true_2; [done | by right].
    + destruct (decide (k = i)) as [->|Hne].
      * rewrite list_lookup_insert_eq by done.
        rewrite bool_decide_eq_true_2; [done | by left].
      * rewrite list_lookup_insert_ne by done.
        rewrite bool_decide_eq_false_2; [done|].
        by intros [?|?]%elem_of_cons.
Qed.

Lemma assign_at_spec {A} (a : list A) idx v :
  (forall i, i ∈ idx -> i < length a) ->
  exists a',
    assign_at a idx v = Ok a' /\ length a' = length a /\
    forall k, k < length a ->
      a' !! k = if bool_decide (k ∈ idx) then Some v else a !! k.
Proof.
  intros Hr. unfold assign_at.
  assert (forallb (fun i => i <? length a) idx = true) as ->.
  { apply forallb_forall. intros i Hi%list_elem_of_In.
    apply Nat.ltb_lt. auto. }
  eexists. split; [done|]. apply foldl_insert_spec.
Qed.

Lemma marks_length n peaks troughs : length (marks n peaks troughs) = n.
Proof. unfold marks. by rewrite length_fmap, length_seq. Qed.

Lemma marks_lookup n peaks troughs k :
  k < n -> marks n peaks troughs !! k = Some (mark peaks troughs k).
Proof.
  intros Hk. unfold marks. by rewrite list_lookup_fmap, lookup_seq_lt.
Qed.

Lemma marks_defined n peaks troughs k v :
  marks n peaks troughs !! k = Some (Some v) ->
  k < n /\ (k ∈ peaks \/ k ∈ troughs) /\ (v = 0%Q \/ v = 1%Q).
Proof.
  intros H. pose proof (lookup_lt_Some _ _ _ H) as Hk.
  rewrite marks_length in Hk. rewrite marks_lookup in H by done.
  unfold mark in H. split; [done|].
  destruct (bool_decide_reflect (k ∈ troughs));
    [injection H as <-; auto|].
  destruct (bool_decide_reflect (k ∈ peaks)); [injection H as <-; auto|].
  discriminate.
Qed.

Lemma phase_Ok n peaks troughs inspiration :
  _rsp_findpeaks_phase
    [("RSP_Peaks", indicator n peaks); ("RSP_Troughs", indicator n troughs)]
  = Ok inspiration ->
  exists last_element,
    index_last (np_where (not_nan (marks n peaks troughs))) = Ok last_element /\
    inspiration = take last_element (fillna_pad (marks n peaks troughs))
                    ++ drop last_element (marks n peaks troughs).
Proof.
  unfold _rsp_findpeaks_phase.
  change (nrows _) with (length (indicator n peaks)).
  rewrite indicator_length.
  change (getitem _ "RSP_Peaks") with (Ok (indicator n peaks)).
  change (getitem _ "RSP_Troughs") with (Ok (indicator n troughs)).
  simpl.
  destruct (assign_at_spec (replicate n (@None Q))
              (np_where (eq_one (indicator n peaks))) (Some 0%Q))
    as (a1 & -> & Hl1 & Ha1).
  { intros i [? _]%elem_of_where_indicator. by rewrite length_replicate. }
  simpl. rewrite length_replicate in *.
  destruct (assign_at_spec a1
              (np_where (eq_one (indicator n troughs))) (Some 1%Q))
    as (a2 & -> & Hl2 & Ha2).
  { intros i [? _]%elem_of_where_indicator. lia. }
  simpl. rewrite Hl1 in *.
  assert (a2 = marks n peaks troughs) as ->.
  { apply list_eq. intros k. destruct (decide (k < n)) as [Hk|Hk].
    - rewrite marks_lookup, Ha2, Ha1 by done. unfold mark.
      rewrite lookup_replicate_2 by done.
      destruct (bool_decide_reflect (k ∈ troughs)) as [Ht|Ht].
      + rewrite bool_decide_eq_true_2; [done|].
        by apply elem_of_where_indicator.
      + rewrite bool_decide_eq_false_2
          by (by intros [_ ?]%elem_of_where_indicator).
        destruct (bool_decide_reflect (k ∈ peaks)) as [Hp|Hp].
        * rewrite bool_decide_eq_true_2; [done|].
          by apply elem_of_where_indicator.
        * by rewrite bool_decide_eq_false_2
            by (by intros [_ ?]%elem_of_where_indicator).
    - rewrite !lookup_ge_None_2; [done | rewrite marks_length; lia | lia]. }
  intros H. apply bind_Ok in H as (last_element & Hlast & H).
  injection H as <-. by exists last_element.
Qed.

Lemma index_last_sorted (l : list nat) x :
  StronglySorted lt l -> index_last l = Ok x ->
  x ∈ l /\ forall y, y ∈ l -> y <= x.
Proof.
  intros Hs. unfold index_last. destruct (length l) as [|n] eqn:Hn; [done|].
  intros Hx%index_Ok. split; [by eapply list_elem_of_lookup_2|].
  intros y (j & Hj)%list_elem_of_lookup_1.
  pose proof (lookup_lt_Some _ _ _ Hj) as Hlt.
  destruct (decide (j = n)) as [->|Hne]; [by simplify_eq|].
  assert (y < x); [|lia].
  eapply (sorted_lookup lt l j n); eauto. lia.
Qed.

(** Forward filling. *)

Lemma pad_from_length prev a : length (pad_from prev a) = length a.
Proof.
  revert prev. induction a as [|[v|] a IH]; intros prev; simpl; auto.
Qed.

Lemma pad_from_keeps prev a k v :
  a !! k = Some (Some v) -> pad_from prev a !! k = Some (Some v).
Proof.
  revert prev k. induction a as [|x a IH]; intros prev k; [done|].
  destruct k as [|k]; simpl.
  - by intros [= ->].
  - intros H. destruct x; simpl; by apply IH.
Qed.

Lemma pad_from_gap prev a k :
  (forall q, q <= k -> a !! q = Some None) -> pad_from prev a !! k = Some prev.
Proof.
  revert k. induction a as [|x a IH]; intros k H.
  - by specialize (H 0 ltac:(lia)).
  - pose proof (H 0 ltac:(lia)) as H0. simpl in H0. injection H0 as ->.
    destruct k as [|k]; simpl; [done|]. apply IH.
    intros q Hq. apply (H (S q)). lia.
Qed.

(** A position takes the value of the last marked position at or before
    it. *)
Lemma pad_from_fill prev a m k v :
  a !! m = Some (Some v) -> m <= k ->
  (forall q, m < q <= k -> a !! q = Some None) ->
  pad_from prev a !! k = Some (Some v).
Proof.
  revert prev m k. induction a as [|x a IH]; intros prev m k; [done|].
  destruct m as [|m]; simpl.
  - intros [= ->] _ H. destruct k as [|k]; simpl; [done|].
    apply pad_from_gap. intros q Hq. apply (H (S q)). lia.
  - intros Hm Hk H. destruct k as [|k]; [lia|].
    assert (forall prev', pad_from prev' a !! k = Some (Some v)) as Hgoal.
    { intros prev'. apply (IH prev' m k); [done | lia |].
      intros q Hq. apply (H (S q)). lia. }
    destruct x; simpl; apply Hgoal.
Qed.

Lemma last_marked_upto (a : list (option Q)) m k v :
  a !! m = Some (Some v) -> m <= k -> k < length a ->
  exists q w, m <= q <= k /\ a !! q = Some (Some w) /\
              forall r, q < r <= k -> a !! r = Some None.
Proof.
  intros Hm. induction k as [|k IH]; intros Hmk Hk.
  - assert (m = 0) as -> by lia. exists 0, v. split; [lia|].
    split; [done|]. intros r Hr. lia.
  - destruct (lookup_lt_is_Some_2 a (S k) Hk) as [[w|] Hw].
    + exists (S k), w. split; [lia|]. split; [done|]. intros r Hr. lia.
    + assert (m <> S k) by congruence.
      destruct IH as (q & w & Hq & Haq & Hgap); [lia | lia |].
      exists q, w. split; [lia|]. split; [done|]. intros r Hr.
      destruct (decide (r = S k)) as [->|]; [done|]. apply Hgap. lia.
Qed.

Lemma pad_from_defined prev a m k v :
  a !! m = Some (Some v) -> m <= k -> k < length a ->
  exists q w, m <= q <= k /\ a !! q = Some (Some w) /\
              pad_from prev a !! k = Some (Some w).
Proof.
  intros Hm Hmk Hk.
  destruct (last_marked_upto a m k v Hm Hmk Hk) as (q & w & Hq & Haq & Hgap).
  exists q, w. split; [done|]. split; [done|].
  eapply pad_from_fill; eauto. lia.
Qed.

Lemma elem_of_where_not_nan (a : list (option Q)) k :
  k ∈ np_where (not_nan a) <-> exists v, a !! k = Some (Some v).
Proof.
  rewrite elem_of_np_where. unfold not_nan. rewrite list_lookup_fmap.
  destruct (a !! k) as [[v|]|]; simpl; split; try done; eauto.
  - by intros [? ?].
  - by intros [? ?].
Qed.

Lemma phase_spec n peaks troughs inspiration :
  (forall p, p ∈ peaks -> p < n /\ p ∉ troughs) ->
  (forall t, t ∈ troughs -> t < n) ->
  _rsp_findpeaks_phase
    [("RSP_Peaks", indicator n peaks); ("RSP_Troughs", indicator n troughs)]
  = Ok inspiration ->
  length inspiration = n /\ phase_boundary peaks troughs inspiration.
Proof.
  intros Hpk Htr H. apply phase_Ok in H as (last & Hlast & ->).
  set (M := marks n peaks troughs) in *.
  apply index_last_sorted in Hlast as [Hin Hmax]; [|apply np_where_sorted].
  apply elem_of_where_not_nan in Hin as [vl Hvl].
  destruct (marks_defined _ _ _ _ _ Hvl) as (Hln & Hlm & Hlv).
  assert (forall k, k < last ->
            (take last (fillna_pad M) ++ drop last M) !! k
            = fillna_pad M !! k) as Hlt.
  { intros k Hk. rewrite lookup_app_l.
    - by rewrite lookup_take_lt.
    - rewrite length_take. unfold fillna_pad.
      rewrite pad_from_length. unfold M. rewrite marks_length. lia. }
  assert (forall k, last <= k ->
            (take last (fillna_pad M) ++ drop last M) !! k = M !! k) as Hge.
  { intros k Hk.
    assert (length (take last (fillna_pad M)) = last) as Hl.
    { rewrite length_take. unfold fillna_pad.
      rewrite pad_from_length. unfold M. rewrite marks_length. lia. }
    rewrite lookup_app_r by lia. rewrite Hl, lookup_drop. f_equal. lia. }
  assert (forall m, marked peaks troughs m ->
            m <= last /\ exists v, M !! m = Some (Some v) /\
              (m ∈ troughs -> v = 1%Q) /\ (m ∉ troughs -> v = 0%Q)) as Hmk.
  { intros m Hm.
    assert (m < n) as Hmn by (destruct Hm as [?%Hpk|?%Htr]; tauto).
    assert (exists v, M !! m = Some (Some v) /\
              (m ∈ troughs -> v = 1%Q) /\ (m ∉ troughs -> v = 0%Q))
      as (v & Hv & Hv').
    { unfold M. rewrite marks_lookup by done. unfold mark.
      destruct (bool_decide_reflect (m ∈ troughs)) as [Ht|Ht];
        [exists 1%Q; by auto|].
      destruct Hm as [Hp|?]; [|done].
      rewrite bool_decide_eq_true_2 by done. exists 0%Q. by auto. }
    split; [|by exists v]. apply Hmax. apply elem_of_where_not_nan. eauto. }
  assert (forall m v, M !! m = Some (Some v) ->
            (take last (fillna_pad M) ++ drop last M) !! m = Some (Some v))
    as Hkeep.
  { intros m v Hv. destruct (decide (m < last)).
    - rewrite Hlt by done. by apply pad_from_keeps.
    - rewrite Hge by lia. done. }
  split.
  { rewrite length_app, length_take, length_drop. unfold fillna_pad.
    rewrite pad_from_length. unfold M. rewrite marks_length. lia. }
  split; [|split; [|split; [|split]]].
  - intros p Hp. destruct (Hmk p) as (_ & v & Hv & _ & H0); [by left|].
    rewrite (H0 (proj2 (Hpk p Hp))) in Hv. by apply Hkeep.
  - intros t Ht. destruct (Hmk t) as (_ & v & Hv & H1 & _); [by right|].
    rewrite (H1 Ht) in Hv. by apply Hkeep.
  - intros k Hk Hafter.
    rewrite length_app, length_take, length_drop in Hk. unfold fillna_pad in Hk.
    rewrite pad_from_length in Hk. unfold M in Hk. rewrite marks_length in Hk.
    assert (last < k) by (apply Hafter; destruct Hlm; [by left | by right]).
    rewrite Hge by lia. unfold M. rewrite marks_lookup by lia. f_equal.
    unfold mark.
    rewrite bool_decide_eq_false_2.
    + rewrite bool_decide_eq_false_2; [done|].
      intros Hin. specialize (Hafter k (or_introl Hin)). lia.
    + intros Hin. specialize (Hafter k (or_intror Hin)). lia.
  - intros k m1 m2 Hm1 Hm2 Hk.
    destruct (Hmk m1 Hm1) as (_ & v1 & Hv1 & _).
    destruct (Hmk m2 Hm2) as (Hm2l & _).
    destruct (decide (k < last)) as [Hkl|Hkl].
    + rewrite Hlt by done.
      destruct (pad_from_defined None M m1 k v1) as (q & w & _ & Hq & Hpad);
        [done | lia | unfold M; rewrite marks_length; lia |].
      unfold fillna_pad. rewrite Hpad.
      destruct (marks_defined _ _ _ _ _ Hq) as (_ & _ & [->| ->]); auto.
    + assert (k = last) as -> by lia. rewrite Hge by lia. rewrite Hvl.
      destruct Hlv as [->| ->]; auto.
  - intros k m1 m2 Hm1 Hm2 Hk Hgap.
    destruct (Hmk m1 Hm1) as (Hm1l & v1 & Hv1 & _).
    destruct (Hmk m2 Hm2) as (Hm2l & _).
    rewrite (Hkeep _ _ Hv1).
    destruct (decide (k = m1)) as [->|Hne]; [by apply Hkeep|].
    assert (k < last) as Hkl.
    { destruct (decide (k = last)) as [->|]; [|lia].
      exfalso. apply (Hgap last); [lia|]. done. }
    rewrite Hlt by done. apply (pad_from_fill None M m1 k v1); [done | lia |].
    intros q Hq. unfold M. rewrite marks_lookup by lia. f_equal.
    unfold mark. rewrite bool_decide_eq_false_2.
    + rewrite bool_decide_eq_false_2; [done|].
      intros Hin. apply (Hgap q Hq). by left.
    + intros Hin. apply (Hgap q Hq). by right.
Qed.

Lemma odd_positions_elem {A} (a : list A) x :
  x ∈ odd_positions a -> exists i, a !! (2 * i + 1) = Some x.
Proof.
  intros (i & Hi)%list_elem_of_lookup_1. rewrite odd_positions_lookup in Hi.
  eauto.
Qed.

Lemma even_positions_elem {A} (a : list A) x :
  x ∈ even_positions_but_last a -> exists i, a !! (2 * i) = Some x.
Proof.
  intros (i & Hi)%list_elem_of_lookup_1. apply even_positions_lookup in Hi.
  eauto.
Qed.

(** C8.  On every successful call the "RSP_Inspiration" column is 0.0 at
    each peak, 1.0 at each trough, missing at every position after the last
    marked index, 0.0 or 1.0 at every position from the first marked index
    to the last, and between two marked indices it repeats the value of the
    marked index before. *)
Theorem inspiration_phase_boundary rsp_cleaned method thr signals info :
  rsp_findpeaks rsp_cleaned method thr = Ok (signals, info) ->
  exists peaks troughs inspiration,
    info !! "RSP_Peaks" = Some peaks /\
    info !! "RSP_Troughs" = Some troughs /\
    getitem signals "RSP_Inspiration" = Ok inspiration /\
    length inspiration = nrows signals /\
    phase_boundary peaks troughs inspiration.
Proof.
  intros H. apply rsp_findpeaks_Ok in H
    as (values & thr' & peaks & troughs & insp & _ & Hk & Hp & Ht & Hph & ->).
  apply khodadad_spec in Hk as (trimmed & Hs & Hrange & ->).
  destruct (khodadad_info_lookup trimmed) as [Hp' Ht']. simpl in *.
  rewrite Hp' in Hp. rewrite Ht' in Ht. injection Hp as <-. injection Ht as <-.
  rewrite Forall_forall in Hrange.
  apply phase_spec in Hph as [Hlen Hb].
  - eexists _, _, insp. split; [done|]. split; [done|]. split; [done|].
    split; [|done]. by rewrite indicator_length.
  - intros p Hp. pose proof Hp as (i & Hi)%odd_positions_elem. split.
    + apply Hrange. by eapply list_elem_of_lookup_2.
    + intros (j & Hj)%even_positions_elem.
      destruct (decide (2 * i + 1 < 2 * j)).
      * pose proof (sorted_lookup lt trimmed _ _ _ _ Hs l Hi Hj). lia.
      * assert (2 * j < 2 * i + 1) as Hlt by lia.
        pose proof (sorted_lookup lt trimmed _ _ _ _ Hs Hlt Hj Hi). lia.
  - intros t (j & Hj)%even_positions_elem.
    apply Hrange. by eapply list_elem_of_lookup_2.
Qed.

Lemma inspiration_phase_boundary_witness :
  exists peaks troughs inspiration,
    demo_info !! "RSP_Peaks" = Some peaks /\
    demo_info !! "RSP_Troughs" = Some troughs /\
    getitem demo_signals "RSP_Inspiration" = Ok inspiration /\
    length inspiration = nrows demo_signals /\
    phase_boundary peaks troughs inspiration.
Proof.
  apply (inspiration_phase_boundary (Sequence demo_signal) default_method
           default_outlier_threshold demo_signals demo_info).
  vm_compute. reflexivity.
Defined.

(** ** [bio_process] *)

Section BioProcessProperties.

Context {cell info_value : Type} (nan : cell).
Context (sanitize_input : list cell -> string -> result (list cell)).
Context (ecg_process rsp_process eda_process emg_process :
           list cell -> nat -> result (frame cell * gmap string info_value)).

Lemma pd_concat_axis1_columns (a b : frame cell) :
  columns (pd_concat_axis1 nan a b) = columns a ++ columns b.
Proof.
  unfold pd_concat_axis1, columns. simpl. rewrite fmap_app.
  rewrite <- !list_fmap_compose. f_equal; apply list_fmap_ext; by intros [].
Qed.

Lemma dict_update_lookup (d new : gmap string info_value) k :
  dict_update d new !! k
  = match new !! k with Some v => Some v | None => d !! k end.
Proof.
  unfold dict_update. rewrite lookup_union.
  by destruct (new !! k), (d !! k).
Qed.

(** Unfolds the block of a channel in the goal, from what the channel
    contributes. *)
Ltac channel_block ch H :=
  destruct ch as [?|]; simpl in H |- *;
  [ apply bind_Ok in H as (? & -> & H); simpl; rewrite H; simpl
  | injection H as <- <- ].

(** C9.  Whatever channels are supplied, when the collaborators succeed
    bio_process returns a table whose columns are those of the ECG, RSP,
    EDA and EMG outputs, in that order, followed by the pass-through
    columns, and an info dict in which a key holds the value of the last
    processed channel that has it. *)
Theorem bio_process_order ecg rsp eda emg keep sampling_rate
    ecg' rsp' eda' emg' keep'
    ecg_signals ecg_info rsp_signals rsp_info
    eda_signals eda_info emg_signals emg_info :
  unbundle ecg rsp eda emg keep = Ok (ecg', rsp', eda', emg', keep') ->
  channel_output sanitize_input ecg_process ecg' sampling_rate
  = Ok (ecg_signals, ecg_info) ->
  channel_output sanitize_input rsp_process rsp' sampling_rate
  = Ok (rsp_signals, rsp_info) ->
  channel_output sanitize_input eda_process eda' sampling_rate
  = Ok (eda_signals, eda_info) ->
  channel_output sanitize_input emg_process emg' sampling_rate
  = Ok (emg_signals, emg_info) ->
  exists bio_df bio_info,
    bio_process nan sanitize_input ecg_process rsp_process eda_process
      emg_process ecg rsp eda emg keep sampling_rate = Ok (bio_df, bio_info) /\
    columns bio_df
    = columns ecg_signals ++ columns rsp_signals ++ columns eda_signals
        ++ columns emg_signals ++ columns (default [] keep') /\
    forall k,
      bio_info !! k
      = match emg_info !! k with
        | Some v => Some v
        | None =>
            match eda_info !! k with
            | Some v => Some v
            | None =>
                match rsp_info !! k with
                | Some v => Some v
                | None => ecg_info !! k
                end
            end
        end.
Proof.
  intros Hu Hecg Hrsp Heda Hemg. unfold bio_process. rewrite Hu. simpl.
  channel_block ecg' Hecg; channel_block rsp' Hrsp;
    channel_block eda' Heda; channel_block emg' Hemg;
    (eexists _, _; split; [reflexivity|]; split;
     [ destruct keep'; simpl;
       rewrite ?pd_concat_axis1_columns; simpl;
       rewrite ?app_nil_r, <- ?app_assoc; reflexivity
     | intros k; rewrite ?dict_update_lookup, ?lookup_empty;
       repeat match goal with
              | |- context [match ?m !! k with _ => _ end] =>
                  destruct (m !! k)
              end; reflexivity ]).
Qed.

End BioProcessProperties.

Lemma bio_process_order_witness :
  exists bio_df bio_info,
    bio_process None demo_sanitize (demo_process "ECG" 1)
      (demo_process "RSP" 2) (demo_process "EDA" 3) (demo_process "EMG" 4)
      (Some (EcgVector demo_channel)) (Some demo_channel) (Some demo_channel)
      None (Some [("Photosensor", demo_channel)]) 1000
    = Ok (bio_df, bio_info) /\
    columns bio_df
    = ["ECG_Raw"; "ECG_Clean"; "RSP_Raw"; "RSP_Clean"; "EDA_Raw"; "EDA_Clean";
       "Photosensor"] /\
    forall k,
      bio_info !! k
      = match (∅ : gmap string (list nat)) !! k with
        | Some v => Some v
        | None =>
            match demo_dict "EDA" 3 !! k with
            | Some v => Some v
            | None =>
                match demo_dict "RSP" 2 !! k with
                | Some v => Some v
                | None => demo_dict "ECG" 1 !! k
                end
            end
        end.
Proof.
  apply (bio_process_order None demo_sanitize (demo_process "ECG" 1)
           (demo_process "RSP" 2) (demo_process "EDA" 3) (demo_process "EMG" 4)
           (Some (EcgVector demo_channel)) (Some demo_channel)
           (Some demo_channel) None (Some [("Photosensor", demo_channel)]) 1000
           (Some demo_channel) (Some demo_channel) (Some demo_channel) None
           (Some [("Photosensor", demo_channel)])
           (demo_table "ECG" demo_channel) (demo_dict "ECG" 1)
           (demo_table "RSP" demo_channel) (demo_dict "RSP" 2)
           (demo_table "EDA" demo_channel) (demo_dict "EDA" 3)
           [] ∅); reflexivity.
Defined.

(** * Further properties *)

(** ** Zero crossings *)

Lemma but_last_lookup {A} (a : list A) i :
  but_last a !! i = if bool_decide (i + 1 < length a) then a !! i else None.
Proof.
  unfold but_last. destruct (bool_decide_reflect (i + 1 < length a)).
  - apply lookup_take_lt. lia.
  - apply lookup_take_ge. lia.
Qed.

Lemma crossing_lookup (f g : Q -> bool) (rsp_cleaned : list Q) i :
  bitwise_and (but_last (f <$> rsp_cleaned)) (from_1 (g <$> rsp_cleaned)) !! i
  = Some true <->
  exists a b, rsp_cleaned !! i = Some a /\ rsp_cleaned !! (i + 1) = Some b /\
              f a = true /\ g b = true.
Proof.
  unfold bitwise_and, from_1. rewrite lookup_zip_with_Some. split.
  - intros (x & y & Hxy & Hx & Hy).
    rewrite lookup_drop, list_lookup_fmap in Hy.
    rewrite but_last_lookup in Hx.
    destruct (bool_decide _); [|done]. rewrite list_lookup_fmap in Hx.
    replace (1 + i) with (i + 1) in Hy by lia.
    destruct (rsp_cleaned !! i) as [a|]; [|done].
    destruct (rsp_cleaned !! (i + 1)) as [b|]; [|done].
    simpl in *. simplify_eq. exists a, b.
    symmetry in Hxy. apply andb_true_iff in Hxy as [? ?]. done.
  - intros (a & b & Ha & Hb & Hfa & Hgb). exists true, true.
    split; [done|]. split.
    + rewrite but_last_lookup, length_fmap.
      rewrite bool_decide_eq_true_2 by (by apply lookup_lt_Some in Hb).
      by rewrite list_lookup_fmap, Ha; simpl; rewrite Hfa.
    + rewrite lookup_drop, list_lookup_fmap.
      replace (1 + i) with (i + 1) by lia. by rewrite Hb; simpl; rewrite Hgb.
Qed.

Lemma elem_of_risex rsp_cleaned i :
  i ∈ risex rsp_cleaned <->
  exists a b, rsp_cleaned !! i = Some a /\ rsp_cleaned !! (i + 1) = Some b /\
              (a < 0)%Q /\ (0 < b)%Q.
Proof.
  unfold risex, smaller, greater. rewrite elem_of_np_where, crossing_lookup.
  split; intros (a & b & Ha & Hb & H1 & H2); exists a, b;
    repeat split; auto; try (by apply Qltb_lt); by apply Qgtb_lt.
Qed.

Lemma elem_of_fallx rsp_cleaned i :
  i ∈ fallx rsp_cleaned <->
  exists a b, rsp_cleaned !! i = Some a /\ rsp_cleaned !! (i + 1) = Some b /\
              (0 < a)%Q /\ (b < 0)%Q.
Proof.
  unfold fallx, smaller, greater. rewrite elem_of_np_where, crossing_lookup.
  split; intros (a & b & Ha & Hb & H1 & H2); exists a, b;
    repeat split; auto; try (by apply Qltb_lt); by apply Qgtb_lt.
Qed.

Lemma risex_fallx_disjoint rsp_cleaned i :
  i ∈ risex rsp_cleaned -> i ∈ fallx rsp_cleaned -> False.
Proof.
  intros (a & b & Ha & _ & Hneg & _)%elem_of_risex
         (a' & b' & Ha' & _ & Hpos & _)%elem_of_fallx.
  simplify_eq. lra.
Qed.

Lemma elem_of_allx rsp_cleaned i :
  i ∈ allx_of rsp_cleaned <-> i ∈ risex rsp_cleaned \/ i ∈ fallx rsp_cleaned.
Proof.
  unfold allx_of. rewrite merge_sort_Permutation. apply elem_of_app.
Qed.

Lemma allx_lt rsp_cleaned i :
  i ∈ allx_of rsp_cleaned -> i + 1 < length rsp_cleaned.
Proof.
  intros [H|H]%elem_of_allx.
  - apply elem_of_risex in H as (a & b & _ & Hb & _).
    by apply lookup_lt_Some in Hb.
  - apply elem_of_fallx in H as (a & b & _ & Hb & _).
    by apply lookup_lt_Some in Hb.
Qed.

(** X1.  The crossings the locator works from: an index is a rising
    (falling) crossing exactly when its sample is negative (positive) and
    the next one positive (negative); no index is both, and every crossing
    has a sample after it. *)
Theorem crossings_characterised rsp_cleaned i :
  (i ∈ risex rsp_cleaned <->
     exists a b, rsp_cleaned !! i = Some a /\ rsp_cleaned !! (i + 1) = Some b /\
                 (a < 0)%Q /\ (0 < b)%Q) /\
  (i ∈ fallx rsp_cleaned <->
     exists a b, rsp_cleaned !! i = Some a /\ rsp_cleaned !! (i + 1) = Some b /\
                 (0 < a)%Q /\ (b < 0)%Q) /\
  ~ (i ∈ risex rsp_cleaned /\ i ∈ fallx rsp_cleaned) /\
  (i ∈ allx_of rsp_cleaned -> i + 1 < length rsp_cleaned).
Proof.
  split; [apply elem_of_risex|]. split; [apply elem_of_fallx|]. split.
  - intros [? ?]. by eapply risex_fallx_disjoint.
  - apply allx_lt.
Qed.

(** ** The locator never fails but for a missing crossing *)

Lemma sorted_lt_NoDup (l : list nat) : StronglySorted lt l -> NoDup l.
Proof.
  induction 1 as [|x l Hs IH Hx]; constructor; [|done].
  intros Hin. rewrite Forall_forall in Hx. specialize (Hx x Hin). lia.
Qed.

Lemma allx_NoDup rsp_cleaned : NoDup (allx_of rsp_cleaned).
Proof.
  unfold allx_of. rewrite merge_sort_Permutation. apply NoDup_app.
  split; [apply sorted_lt_NoDup, np_where_sorted|].
  split; [|apply sorted_lt_NoDup, np_where_sorted].
  intros i Hr Hf. by eapply risex_fallx_disjoint.
Qed.

Lemma allx_strictly_sorted rsp_cleaned :
  StronglySorted lt (allx_of rsp_cleaned).
Proof.
  apply sorted_of_lookup. intros i j x y Hij Hi Hj.
  pose proof (sorted_lookup le _ i j x y (allx_sorted rsp_cleaned) Hij Hi Hj).
  assert (x <> y); [|lia]. intros ->.
  pose proof (NoDup_lookup _ i j y (allx_NoDup rsp_cleaned) Hi Hj). lia.
Qed.

Lemma startx_of_Some r0 f0 : r0 <> f0 -> is_Some (startx_of r0 f0).
Proof.
  intros Hne. unfold startx_of.
  destruct (bool_decide_reflect (r0 < f0)); [by eexists|].
  rewrite bool_decide_eq_true_2 by lia. by eexists.
Qed.

Lemma extremum_at_Ok rsp_cleaned startx i beg end_ :
  is_Some startx ->
  allx_of rsp_cleaned !! i = Some beg ->
  allx_of rsp_cleaned !! (i + 1) = Some end_ ->
  is_Ok (extremum_at rsp_cleaned startx (allx_of rsp_cleaned) i).
Proof.
  intros [c ->] Hbeg Hend.
  assert (beg < end_) as Hlt.
  { eapply (sorted_lookup lt _ i (i + 1));
      eauto using allx_strictly_sorted. lia. }
  assert (end_ + 1 < length rsp_cleaned) as Hin.
  { apply allx_lt. by eapply list_elem_of_lookup_2. }
  unfold extremum_at.
  assert (forall better name,
            is_Ok (argextreme_of better name (slice rsp_cleaned beg end_)))
    as Harg.
  { intros better name. pose proof (slice_length rsp_cleaned beg end_) as Hl.
    destruct (slice rsp_cleaned beg end_); simpl in *; [lia|]. by eexists. }
  apply index_Ok in Hbeg, Hend.
  destruct c; simpl; rewrite Hbeg; simpl; rewrite Hend; simpl;
    destruct (negb _);
    match goal with
    | |- context [np_argmax ?s] =>
        destruct (Harg Qgtb "argmax") as [k Hk];
        unfold np_argmax; rewrite Hk; by eexists
    | |- context [np_argmin ?s] =>
        destruct (Harg Qltb "argmin") as [k Hk];
        unfold np_argmin; rewrite Hk; by eexists
    end.
Qed.

Lemma extrema_Ok_of_crossings rsp_cleaned :
  risex rsp_cleaned <> [] -> fallx rsp_cleaned <> [] ->
  is_Ok (_rsp_findpeaks_extrema rsp_cleaned).
Proof.
  intros Hr Hf. unfold _rsp_findpeaks_extrema.
  destruct (risex rsp_cleaned) as [|r0 rs] eqn:Er; [done|].
  destruct (fallx rsp_cleaned) as [|f0 fs] eqn:Ef; [done|]. simpl.
  apply mapM_Ok_intro. intros i Hi%elem_of_seq.
  destruct (lookup_lt_is_Some_2 (allx_of rsp_cleaned) i) as [beg Hbeg];
    [lia|].
  destruct (lookup_lt_is_Some_2 (allx_of rsp_cleaned) (i + 1))
    as [end_ Hend]; [lia|].
  eapply extremum_at_Ok; eauto. apply startx_of_Some. intros ->.
  apply (risex_fallx_disjoint rsp_cleaned f0).
  - rewrite Er. by left.
  - rewrite Ef. by left.
Qed.

Lemma extrema_cases rsp_cleaned :
  is_Ok (_rsp_findpeaks_extrema rsp_cleaned) \/
  _rsp_findpeaks_extrema rsp_cleaned = Raise IndexError.
Proof.
  destruct (risex rsp_cleaned) as [|r0 rs] eqn:Er.
  { right. apply extrema_no_crossing. by left. }
  destruct (fallx rsp_cleaned) as [|f0 fs] eqn:Ef.
  { right. apply extrema_no_crossing. by right. }
  left. apply extrema_Ok_of_crossings; by rewrite ?Er, ?Ef.
Qed.

(** X2.  The locator returns extrema exactly when the signal has a rising
    and a falling crossing; in every other case it raises IndexError, and it
    raises nothing else. *)
Theorem extrema_Ok_iff_crossings rsp_cleaned :
  (is_Ok (_rsp_findpeaks_extrema rsp_cleaned) <->
   risex rsp_cleaned <> [] /\ fallx rsp_cleaned <> []) /\
  (is_Ok (_rsp_findpeaks_extrema rsp_cleaned) \/
   _rsp_findpeaks_extrema rsp_cleaned = Raise IndexError).
Proof.
  split; [|apply extrema_cases]. split.
  - intros [x Hx]. split; intros Hnil.
    + rewrite extrema_no_crossing in Hx by (by left). discriminate.
    + rewrite extrema_no_crossing in Hx by (by right). discriminate.
  - intros [? ?]. by apply extrema_Ok_of_crossings.
Qed.

(** ** What the locator returns *)

Lemma extrema_intervals rsp_cleaned extrema :
  _rsp_findpeaks_extrema rsp_cleaned = Ok extrema ->
  exists r0 f0,
    risex rsp_cleaned !! 0 = Some r0 /\ fallx rsp_cleaned !! 0 = Some f0 /\
    length extrema = length (allx_of rsp_cleaned) - 1 /\
    forall i, i < length extrema ->
      exists e, extrema !! i = Some e /\
        extremum_at rsp_cleaned (startx_of r0 f0) (allx_of rsp_cleaned) i
        = Ok e.
Proof.
  unfold _rsp_findpeaks_extrema. intros H.
  apply bind_Ok in H as (r0 & Hr0%index_Ok & H).
  apply bind_Ok in H as (f0 & Hf0%index_Ok & H). simpl in H.
  apply mapM_Ok_lookup in H as [Hl H]. rewrite length_seq in Hl.
  exists r0, f0. repeat split; auto. intros i Hi.
  destruct (H i i) as (e & He & Hext); [apply lookup_seq; lia|]. eauto.
Qed.

(** X3.  On success the locator returns one extremum per pair of
    consecutive crossings, each inside its pair's interval [beg, end), so
    the extrema ascend strictly and are valid sample indices. *)
Theorem extrema_one_per_interval rsp_cleaned extrema :
  _rsp_findpeaks_extrema rsp_cleaned = Ok extrema ->
  length extrema + 1
  = length (risex rsp_cleaned) + length (fallx rsp_cleaned) /\
  StronglySorted lt extrema /\
  forall i e, extrema !! i = Some e ->
    exists beg end_,
      allx_of rsp_cleaned !! i = Some beg /\
      allx_of rsp_cleaned !! (i + 1) = Some end_ /\
      beg <= e < end_ /\ e < length rsp_cleaned.
Proof.
  intros H. pose proof (extrema_spec _ _ H) as (Hs & _ & Hpos).
  destruct (extrema_intervals _ _ H) as (r0 & f0 & Hr0 & Hf0 & Hlen & Hi).
  split; [|split; [done|]].
  - rewrite <- allx_length. lia.
  - intros i e He. destruct (Hi i) as (e' & He' & Hext);
      [by eapply lookup_lt_Some|].
    simplify_eq.
    apply extremum_at_bounds in Hext as (beg & end_ & ? & ? & ? & ? & ?).
    exists beg, end_. repeat split; auto.
Qed.

Lemma extrema_one_per_interval_witness :
  length demo_extrema + 1
  = length (risex demo_signal) + length (fallx demo_signal) /\
  StronglySorted lt demo_extrema /\
  forall i e, demo_extrema !! i = Some e ->
    exists beg end_,
      allx_of demo_signal !! i = Some beg /\
      allx_of demo_signal !! (i + 1) = Some end_ /\
      beg <= e < end_ /\ e < length demo_signal.
Proof.
  apply (extrema_one_per_interval demo_signal demo_extrema).
  vm_compute. reflexivity.
Defined.

(** ** The extremum of an interval *)

Section ArgBest.

Context (better : Q -> Q -> bool).
Context (better_irrefl : forall v, better v v = false).
Context (better_below : forall v b w,
           better v b = true -> better w b = false -> better w v = false).
Context (better_above : forall v b w,
           better v b = true -> better w b = false -> better v w = true).

Lemma argbest_first (t p : list Q) besti best :
  p !! besti = Some best ->
  (forall j w, p !! j = Some w -> better w best = false) ->
  (forall j w, j < besti -> p !! j = Some w -> better best w = true) ->
  exists v,
    (p ++ t) !! argbest better besti best (length p) t = Some v /\
    (forall j w, (p ++ t) !! j = Some w -> better w v = false) /\
    (forall j w, j < argbest better besti best (length p) t ->
                 (p ++ t) !! j = Some w -> better v w = true).
Proof.
  revert p besti best. induction t as [|x t IH]; intros p besti best Hb Hall Hbefore.
  - simpl. rewrite app_nil_r. exists best. auto.
  - simpl. replace (p ++ x :: t) with ((p ++ [x]) ++ t)
      by (by rewrite <- app_assoc).
    replace (S (length p)) with (length (p ++ [x]))
      by (rewrite length_app; simpl; lia).
    destruct (better x best) eqn:E.
    + apply IH.
      * rewrite lookup_app_r by lia. by rewrite Nat.sub_diag.
      * intros j w [Hw|[_ Hw]]%lookup_app_Some.
        -- eapply better_below; eauto.
        -- apply list_lookup_singleton_Some in Hw as [_ <-]. done.
      * intros j w Hj [Hw|[Hge _]]%lookup_app_Some.
        -- eapply better_above; eauto.
        -- lia.
    + apply IH.
      * apply lookup_app_l_Some. done.
      * intros j w [Hw|[_ Hw]]%lookup_app_Some; [eauto|].
        apply list_lookup_singleton_Some in Hw as [_ <-]. done.
      * intros j w Hj [Hw|[Hge _]]%lookup_app_Some; [eauto|].
        apply lookup_lt_Some in Hb. lia.
Qed.

Lemma argextreme_of_first name l k :
  argextreme_of better name l = Ok k ->
  exists v, l !! k = Some v /\
    (forall j w, l !! j = Some w -> better w v = false) /\
    (forall j w, j < k -> l !! j = Some w -> better v w = true).
Proof.
  destruct l as [|x t]; simpl; [discriminate|]. intros [= <-].
  apply (argbest_first t [x] 0 x).
  - done.
  - intros [|j] w; [|done]. by intros [= <-].
  - intros j w Hj. lia.
Qed.

End ArgBest.

Lemma slice_lookup {A} (a : list A) beg end_ j :
  slice a beg end_ !! j
  = if bool_decide (beg + j < end_) then a !! (beg + j) else None.
Proof.
  unfold slice. rewrite lookup_drop.
  destruct (bool_decide_reflect (beg + j < end_)).
  - by apply lookup_take_lt.
  - apply lookup_take_ge. lia.
Qed.

Lemma np_argmax_first rsp_cleaned beg end_ k :
  np_argmax (slice rsp_cleaned beg end_) = Ok k ->
  first_maximum rsp_cleaned beg end_ (beg + k).
Proof.
  intros H. apply (argextreme_of_first Qgtb) in H as (v & Hv & Hall & Hbefore).
  - rewrite slice_lookup in Hv. case_bool_decide as Hke; [|done].
    exists v. split; [done|]. split.
    + intros p w Hp Hw. specialize (Hall (p - beg) w).
      rewrite slice_lookup in Hall.
      rewrite bool_decide_eq_true_2 in Hall by lia.
      replace (beg + (p - beg)) with p in Hall by lia.
      specialize (Hall Hw). destruct (Qlt_le_dec v w) as [Hlt|]; [|done].
      apply Qgtb_lt in Hlt. congruence.
    + intros p w Hp Hw. apply Qgtb_lt. apply (Hbefore (p - beg)); [lia|].
      rewrite slice_lookup. case_bool_decide as Hc.
      * by replace (beg + (p - beg)) with p by lia.
      * exfalso. apply Hc. lia.
  - intros v. unfold Qgtb, Qltb. apply negb_false_iff, Qle_bool_iff. lra.
  - intros v b w Hvb Hwb. apply Qgtb_lt in Hvb.
    destruct (Qgtb w v) eqn:E; [|done]. apply Qgtb_lt in E.
    assert (Qgtb w b = true) by (apply Qgtb_lt; lra). congruence.
  - intros v b w Hvb Hwb. apply Qgtb_lt in Hvb. apply Qgtb_lt.
    destruct (Qlt_le_dec w v) as [|Hle]; [done|].
    assert (Qgtb w b = true) by (apply Qgtb_lt; lra). congruence.
Qed.

Lemma np_argmin_first rsp_cleaned beg end_ k :
  np_argmin (slice rsp_cleaned beg end_) = Ok k ->
  first_minimum rsp_cleaned beg end_ (beg + k).
Proof.
  intros H. apply (argextreme_of_first Qltb) in H as (v & Hv & Hall & Hbefore).
  - rewrite slice_lookup in Hv. case_bool_decide as Hke; [|done].
    exists v. split; [done|]. split.
    + intros p w Hp Hw. specialize (Hall (p - beg) w).
      rewrite slice_lookup in Hall.
      rewrite bool_decide_eq_true_2 in Hall by lia.
      replace (beg + (p - beg)) with p in Hall by lia.
      specialize (Hall Hw). destruct (Qlt_le_dec w v) as [Hlt|]; [|done].
      apply Qltb_lt in Hlt. congruence.
    + intros p w Hp Hw. apply Qltb_lt. apply (Hbefore (p - beg)); [lia|].
      rewrite slice_lookup. case_bool_decide as Hc.
      * by replace (beg + (p - beg)) with p by lia.
      * exfalso. apply Hc. lia.
  - intros v. unfold Qltb. apply negb_false_iff, Qle_bool_iff. lra.
  - intros v b w Hvb Hwb. apply Qltb_lt in Hvb.
    destruct (Qltb w v) eqn:E; [|done]. apply Qltb_lt in E.
    assert (Qltb w b = true) by (apply Qltb_lt; lra). congruence.
  - intros v b w Hvb Hwb. apply Qltb_lt in Hvb. apply Qltb_lt.
    destruct (Qlt_le_dec v w) as [|Hle]; [done|].
    assert (Qltb w b = true) by (apply Qltb_lt; lra). congruence.
Qed.

Lemma odd_test_even i : negb (Nat.eqb ((i + 1) mod 2) 0) = Nat.even i.
Proof.
  destruct (Nat.Even_or_Odd i) as [[k ->]|[k ->]].
  - replace (2 * k + 1) with (1 + k * 2) by lia.
    rewrite Nat.Div0.mod_add. simpl. symmetry. apply Nat.even_spec. by exists k.
  - replace (2 * k + 1 + 1) with (0 + (k + 1) * 2) by lia.
    rewrite Nat.Div0.mod_add. simpl. symmetry.
    rewrite <- Nat.negb_odd. apply negb_false_iff, Nat.odd_spec. by exists k.
Qed.

(** X4.  Each extremum is the first largest or the first smallest sample
    of its interval: the largest in the intervals of even rank when the
    first crossing is a rise, in those of odd rank when it is a fall. *)
Theorem extrema_are_interval_extremes rsp_cleaned extrema i e :
  _rsp_findpeaks_extrema rsp_cleaned = Ok extrema ->
  extrema !! i = Some e ->
  exists r0 f0 beg end_,
    risex rsp_cleaned !! 0 = Some r0 /\ fallx rsp_cleaned !! 0 = Some f0 /\
    allx_of rsp_cleaned !! i = Some beg /\
    allx_of rsp_cleaned !! (i + 1) = Some end_ /\
    if maximum_sought r0 f0 i
    then first_maximum rsp_cleaned beg end_ e
    else first_minimum rsp_cleaned beg end_ e.
Proof.
  intros H He.
  destruct (extrema_intervals _ _ H) as (r0 & f0 & Hr0 & Hf0 & Hlen & Hi).
  destruct (Hi i) as (e' & He' & Hext); [by eapply lookup_lt_Some|].
  simplify_eq. unfold extremum_at in Hext.
  apply bind_Ok in Hext as (argextreme & Harg & Hext).
  apply bind_Ok in Hext as (beg & Hbeg%index_Ok & Hext).
  apply bind_Ok in Hext as (end_ & Hend%index_Ok & Hext).
  apply bind_Ok in Hext as (k & Hk & Hext). injection Hext as <-.
  exists r0, f0, beg, end_. repeat split; auto.
  rewrite odd_test_even in Harg. unfold maximum_sought, startx_of in *.
  destruct (bool_decide_reflect (r0 < f0)).
  - injection Harg as <-. destruct (Nat.even i);
      [by apply np_argmax_first | by apply np_argmin_first].
  - destruct (bool_decide (f0 < r0)); [|discriminate]. injection Harg as <-.
    rewrite <- Nat.negb_even. destruct (Nat.even i); simpl;
      [by apply np_argmin_first | by apply np_argmax_first].
Qed.

Lemma extrema_are_interval_extremes_witness :
  exists r0 f0 beg end_,
    risex demo_signal !! 0 = Some r0 /\ fallx demo_signal !! 0 = Some f0 /\
    allx_of demo_signal !! 1 = Some beg /\
    allx_of demo_signal !! (1 + 1) = Some end_ /\
    if maximum_sought r0 f0 1
    then first_maximum demo_signal beg end_ 6
    else first_minimum demo_signal beg end_ 6.
Proof.
  apply (extrema_are_interval_extremes demo_signal demo_extrema 1 6).
  - vm_compute. reflexivity.
  - reflexivity.
Defined.

(** ** Signals that cannot be processed *)

Lemma khodadad_stages rsp_cleaned thr info :
  _rsp_findpeaks_khodadad rsp_cleaned thr = Ok info ->
  exists extrema survivors amplitudes peaks troughs,
    _rsp_findpeaks_extrema rsp_cleaned = Ok extrema /\
    _rsp_findpeaks_outliers rsp_cleaned extrema thr
    = Ok (survivors, amplitudes) /\
    _rsp_findpeaks_sanitize survivors amplitudes = Ok (peaks, troughs) /\
    info = <["RSP_Troughs" := troughs]> (<["RSP_Peaks" := peaks]> ∅).
Proof.
  unfold _rsp_findpeaks_khodadad. intros H.
  apply bind_Ok in H as (extrema & Hext & H).
  apply bind_Ok in H as ([survivors amplitudes] & Hout & H).
  apply bind_Ok in H as ([peaks troughs] & Hsan & H). injection H as <-.
  by exists extrema, survivors, amplitudes, peaks, troughs.
Qed.

Lemma rsp_findpeaks_raise_sequence values method thr e :
  lower method ∈ ["khodadad"; "khodadad2018"; "biosppy"] ->
  (forall thr', _rsp_findpeaks_khodadad values thr' = Raise e) ->
  rsp_findpeaks (Sequence values) method thr = Raise e.
Proof.
  intros Hm H. unfold rsp_findpeaks. simpl.
  destruct (bool_decide (lower method ∈ ["khodadad"; "khodadad2018"])) eqn:E1.
  - by rewrite H.
  - apply bool_decide_eq_false in E1.
    rewrite bool_decide_eq_true_2
      by (rewrite !elem_of_cons in *; rewrite elem_of_nil in *; tauto).
    unfold _rsp_findpeaks_biosppy. by rewrite H.
Qed.

(** X5.  A signal that is never negative, or never positive, has no
    zero-crossing, and rsp_findpeaks raises IndexError on it: the signal
    has to oscillate around zero. *)
Theorem one_signed_signal_raises values method thr :
  lower method ∈ ["khodadad"; "khodadad2018"; "biosppy"] ->
  Forall (fun v => (0 <= v)%Q) values \/ Forall (fun v => (v <= 0)%Q) values ->
  allx_of values = [] /\
  rsp_findpeaks (Sequence values) method thr = Raise IndexError.
Proof.
  intros Hm Hsign.
  assert (risex values = [] /\ fallx values = []) as [Hr Hf].
  { split; apply elem_of_nil_inv; intros i Hi.
    - apply elem_of_risex in Hi as (a & b & Ha & Hb & Hneg & Hpos).
      apply list_elem_of_lookup_2 in Ha, Hb.
      destruct Hsign as [H|H]; rewrite Forall_forall in H.
      + specialize (H a Ha). lra.
      + specialize (H b Hb). lra.
    - apply elem_of_fallx in Hi as (a & b & Ha & Hb & Hpos & Hneg).
      apply list_elem_of_lookup_2 in Ha, Hb.
      destruct Hsign as [H|H]; rewrite Forall_forall in H.
      + specialize (H b Hb). lra.
      + specialize (H a Ha). lra. }
  split.
  - apply length_zero_iff_nil. rewrite allx_length, Hr, Hf. done.
  - apply rsp_findpeaks_raise_sequence; [done|]. intros thr'.
    apply khodadad_no_crossing. by left.
Qed.

Lemma one_signed_signal_raises_witness :
  allx_of flat_signal = [] /\
  rsp_findpeaks (Sequence flat_signal) "khodadad" default_outlier_threshold
  = Raise IndexError.
Proof.
  apply (one_signed_signal_raises flat_signal).
  - apply (bool_decide_eq_true_1 _). vm_compute. reflexivity.
  - left. unfold flat_signal. simpl. repeat constructor; by vm_compute.
Defined.

Lemma delete_from_length_le {A} i (a : list A) idx :
  length (delete_from i a idx) <= length a.
Proof.
  revert i. induction a as [|x a IH]; intros i; simpl; [lia|].
  destruct (bool_decide _); simpl; specialize (IH (S i)); lia.
Qed.

Lemma outliers_length rsp_cleaned extrema thr survivors amplitudes :
  _rsp_findpeaks_outliers rsp_cleaned extrema thr = Ok (survivors, amplitudes) ->
  length survivors <= length extrema - 1.
Proof.
  unfold _rsp_findpeaks_outliers, outliers_threshold. intros H.
  apply bind_Ok in H as (kept & Hkept & H).
  apply bind_Ok in Hkept as (amps & Hamps & Hkept).
  apply bind_Ok in H as (amps' & _ & H). simpl in H. injection H as <- _.
  apply take_indices_Ok in Hamps as [Hl _].
  apply take_indices_Ok in Hkept as [Hl' _].
  pose proof (min_diff_length amps thr).
  pose proof (delete_from_length_le 0 kept (removeext_of amps')).
  unfold np_delete. lia.
Qed.

Lemma sanitize_Ok_length extrema amplitudes r :
  _rsp_findpeaks_sanitize extrema amplitudes = Ok r -> 2 <= length amplitudes.
Proof.
  intros H. destruct (decide (2 <= length amplitudes)); [done|].
  rewrite sanitize_too_few in H by lia. discriminate.
Qed.

(** X6.  A successful call needs at least four zero-crossings, hence at
    least five samples. *)
Theorem success_needs_four_crossings rsp_cleaned values method thr r :
  retrieve_column rsp_cleaned = Ok values ->
  rsp_findpeaks rsp_cleaned method thr = Ok r ->
  4 <= length (risex values) + length (fallx values) /\ 5 <= length values.
Proof.
  intros Hcol H. destruct r as [signals info].
  apply rsp_findpeaks_Ok in H
    as (values' & thr' & peaks & troughs & insp & Hcol' & Hk & _).
  rewrite Hcol in Hcol'. injection Hcol' as <-.
  apply khodadad_stages in Hk
    as (extrema & survivors & amplitudes & pk & tr & Hext & Hout & Hsan & _).
  pose proof (extrema_spec _ _ Hext) as (Hs & _ & _).
  destruct (extrema_intervals _ _ Hext) as (_ & _ & _ & _ & Hlen & _).
  pose proof (allx_length values) as Hall.
  pose proof (outliers_length _ _ _ _ _ Hout).
  pose proof (outliers_spec _ _ _ _ _ Hs Hout) as (_ & Heq & _).
  pose proof (sanitize_Ok_length _ _ _ Hsan).
  pose proof (extrema_spec _ _ Hext) as (_ & _ & Hpos).
  assert (4 <= length (risex values) + length (fallx values)) by lia.
  split; [done|].
  assert (length (allx_of values) <= (length values - 1) - 0).
  { apply sorted_lt_length; [apply allx_strictly_sorted|].
    apply Forall_forall. intros i Hi.
    apply allx_lt in Hi. lia. }
  lia.
Qed.

Lemma success_needs_four_crossings_witness :
  4 <= length (risex shortest_signal) + length (fallx shortest_signal) /\
  5 <= length shortest_signal.
Proof.
  eapply (success_needs_four_crossings (Sequence shortest_signal)
            shortest_signal default_method default_outlier_threshold).
  - reflexivity.
  - vm_compute. reflexivity.
Defined.

(** ** The outlier filter on valid and invalid extrema *)

Lemma mapM_ext_Forall {A B} (f g : A -> result B) (l : list A) :
  Forall (fun x => f x = g x) l -> mapM f l = mapM g l.
Proof.
  induction 1 as [|x l Hx _ IH]; simpl; [done|]. by rewrite Hx, IH.
Qed.

Lemma mapM_cons_result {A B} (f : A -> result B) x (l : list A) :
  mapM f (x :: l) = y ← f x; k ← mapM f l; Ok (y :: k).
Proof. reflexivity. Qed.

Lemma take_shifted_sublist {A} (a : list A) (o : nat) (idx : list nat) r :
  StronglySorted lt idx -> Forall (fun i => o <= i) idx ->
  mapM (fun i => index a (i - o)) idx = Ok r -> r `sublist_of` a.
Proof.
  revert o idx r. induction a as [|x a IH]; intros o idx r Hs Hge H.
  - destruct idx as [|i idx]; [by injection H as <-|].
    by rewrite mapM_cons_result, index_nil in H.
  - destruct idx as [|i idx]; [injection H as <-; apply sublist_nil_l|].
    rewrite mapM_cons_result in H.
    apply StronglySorted_inv in Hs as [Hs Hi].
    apply Forall_cons in Hge as [Hoi Hge].
    assert (mapM (fun j => index (x :: a) (j - o)) idx
            = mapM (fun j => index a (j - S o)) idx) as Hshift.
    { apply mapM_ext_Forall. rewrite Forall_forall in *. intros j Hj.
      specialize (Hi j Hj). specialize (Hge j Hj).
      replace (j - o) with (S (j - S o)) by lia. done. }
    assert (Forall (fun j => S o <= j) idx) as Hge'.
    { rewrite Forall_forall in *. intros j Hj.
      specialize (Hi j Hj). specialize (Hge j Hj). lia. }
    destruct (decide (i = o)) as [->|Hne].
    + rewrite Nat.sub_diag, Hshift in H.
      apply bind_Ok in H as (y & [= <-] & H).
      apply bind_Ok in H as (r' & Hr' & H). injection H as <-.
      apply sublist_skip. by eapply (IH (S o)).
    + replace (i - o) with (S (i - S o)) in H by lia.
      rewrite Hshift in H. apply sublist_cons.
      apply (IH (S o) (i :: idx)); [by constructor | constructor; [lia|done] |].
      by rewrite mapM_cons_result.
Qed.

Lemma take_indices_sublist {A} (a : list A) idx r :
  StronglySorted lt idx -> take_indices a idx = Ok r -> r `sublist_of` a.
Proof.
  intros Hs H. apply (take_shifted_sublist a 0 idx r Hs).
  - apply Forall_forall. intros. lia.
  - rewrite <- H. unfold take_indices. apply mapM_ext_Forall.
    apply Forall_forall. intros i _. by rewrite Nat.sub_0_r.
Qed.

Lemma delete_from_sublist {A} i (a : list A) idx :
  delete_from i a idx `sublist_of` a.
Proof.
  revert i. induction a as [|x a IH]; intros i; simpl; [done|].
  destruct (bool_decide _); [apply sublist_cons | apply sublist_skip]; apply IH.
Qed.

Lemma take_indices_delete {A} (a : list A) i idx del r :
  take_indices a idx = Ok r ->
  take_indices a (delete_from i idx del) = Ok (delete_from i r del).
Proof.
  unfold take_indices. revert i r.
  induction idx as [|e idx IH]; intros i r H; simpl in *.
  - by injection H as <-.
  - apply bind_Ok in H as (v & Hv & H).
    apply bind_Ok in H as (r' & Hr' & H). injection H as <-. simpl.
    destruct (bool_decide _); [by apply IH|].
    simpl. rewrite Hv. simpl. by rewrite (IH (S i) r').
Qed.

Lemma take_indices_out_of_range {A} (a : list A) idx :
  Exists (fun i => length a <= i) idx -> take_indices a idx = Raise IndexError.
Proof.
  unfold take_indices. induction idx as [|i idx IH]; intros H.
  - by apply Exists_nil in H.
  - simpl. destruct (index a i) as [v|e] eqn:E.
    + simpl. apply Exists_cons in H as [H|H].
      * apply index_Ok, lookup_lt_Some in E. lia.
      * by rewrite IH.
    + by apply index_Raise in E as [-> _].
Qed.

Lemma outliers_in_range rsp_cleaned extrema thr :
  Forall (fun e => e < length rsp_cleaned) extrema ->
  exists survivors amplitudes,
    _rsp_findpeaks_outliers rsp_cleaned extrema thr
    = Ok (survivors, amplitudes) /\
    survivors `sublist_of` extrema /\
    take_indices rsp_cleaned survivors = Ok amplitudes.
Proof.
  intros Hrange. rewrite Forall_forall in Hrange.
  destruct (take_indices_in_range rsp_cleaned extrema) as [amps Hamps];
    [done|].
  destruct (threshold_kept rsp_cleaned extrema thr amps Hamps)
    as (kept & Hkept & _).
  pose proof Hkept as Hkept'. unfold outliers_threshold in Hkept'.
  rewrite Hamps in Hkept'. simpl in Hkept'.
  assert (kept `sublist_of` extrema) as Hsub.
  { eapply take_indices_sublist; [|exact Hkept'].
    unfold min_diff_of. apply np_where_sorted. }
  destruct (take_indices_in_range rsp_cleaned kept) as [amps' Hamps'].
  { intros e He. apply Hrange. by eapply elem_of_sublist. }
  assert (_rsp_findpeaks_outliers rsp_cleaned extrema thr
          = Ok (np_delete kept (removeext_of amps'),
                np_delete amps' (removeext_of amps'))) as Hout.
  { unfold _rsp_findpeaks_outliers. rewrite Hkept. simpl.
    rewrite Hamps'. done. }
  eexists _, _. split; [exact Hout|]. split.
  - etrans; [apply delete_from_sublist | done].
  - by apply take_indices_delete.
Qed.

(** X7.  Given extrema that are valid sample indices, the outlier filter
    never fails; it returns a subsequence of them, at least one shorter
    unless there was none, together with the samples at the extrema it
    returns. *)
Theorem outliers_keep_a_subsequence rsp_cleaned extrema thr :
  Forall (fun e => e < length rsp_cleaned) extrema ->
  exists survivors amplitudes,
    _rsp_findpeaks_outliers rsp_cleaned extrema thr
    = Ok (survivors, amplitudes) /\
    survivors `sublist_of` extrema /\
    take_indices rsp_cleaned survivors = Ok amplitudes /\
    length survivors <= length extrema - 1.
Proof.
  intros Hrange.
  destruct (outliers_in_range rsp_cleaned extrema thr Hrange)
    as (survivors & amplitudes & Hout & Hsub & Hamps).
  exists survivors, amplitudes. split_and!; try done.
  by eapply outliers_length.
Qed.

Lemma outliers_keep_a_subsequence_witness :
  exists survivors amplitudes,
    _rsp_findpeaks_outliers demo_signal demo_extrema default_outlier_threshold
    = Ok (survivors, amplitudes) /\
    survivors `sublist_of` demo_extrema /\
    take_indices demo_signal survivors = Ok amplitudes /\
    length survivors <= length demo_extrema - 1.
Proof.
  apply (outliers_keep_a_subsequence demo_signal demo_extrema).
  unfold demo_extrema. repeat constructor; vm_compute; lia.
Defined.

(** X8.  An extremum beyond the end of the signal makes the outlier
    filter raise IndexError. *)
Theorem outliers_out_of_range rsp_cleaned extrema thr :
  Exists (fun e => length rsp_cleaned <= e) extrema ->
  _rsp_findpeaks_outliers rsp_cleaned extrema thr = Raise IndexError.
Proof.
  intros H. unfold _rsp_findpeaks_outliers, outliers_threshold.
  by rewrite take_indices_out_of_range.
Qed.

Lemma outliers_out_of_range_witness :
  _rsp_findpeaks_outliers flat_signal [1; 5] default_outlier_threshold
  = Raise IndexError.
Proof.
  apply outliers_out_of_range. apply Exists_cons. right.
  apply Exists_cons. left. vm_compute. lia.
Defined.

(** ** The threshold of the outlier filter *)

Lemma Qsum_nonneg (l : list Q) :
  Forall (fun v => (0 <= v)%Q) l -> (0 <= Qsum l)%Q.
Proof.
  induction 1 as [|x l Hx _ IH]; simpl; [lra|].
  change (0 <= x + Qsum l)%Q. lra.
Qed.

Lemma np_mean_nonneg (l : list Q) m :
  Forall (fun v => (0 <= v)%Q) l -> np_mean l = Some m -> (0 <= m)%Q.
Proof.
  intros Hl. unfold np_mean. destruct l as [|x l]; [done|].
  intros [= <-]. apply Qsum_nonneg in Hl.
  unfold Qdiv. apply Qmult_le_0_compat; [done|].
  apply Qinv_le_0_compat.
  change 0%Q with (inject_Z 0). rewrite <- Zle_Qle. lia.
Qed.

Lemma vertical_diff_nonneg amplitudes :
  Forall (fun v => (0 <= v)%Q) (vertical_diff_of amplitudes).
Proof.
  unfold vertical_diff_of. apply Forall_fmap, Forall_forall.
  intros x _. apply Qabs_nonneg.
Qed.

(** X9.  A larger outlier_threshold is more conservative: every position
    the thresholding step keeps at the larger threshold it keeps at the
    smaller one, so no more extrema are kept. *)
Theorem larger_threshold_keeps_less
    rsp_cleaned extrema amplitudes thr1 thr2 kept1 kept2 :
  (thr1 <= thr2)%Q ->
  take_indices rsp_cleaned extrema = Ok amplitudes ->
  outliers_threshold rsp_cleaned extrema thr1 = Ok kept1 ->
  outliers_threshold rsp_cleaned extrema thr2 = Ok kept2 ->
  (forall i, i ∈ min_diff_of amplitudes thr2 -> i ∈ min_diff_of amplitudes thr1)
  /\ (forall e, e ∈ kept2 -> e ∈ kept1)
  /\ length kept2 <= length kept1.
Proof.
  intros Hthr Hamps H1 H2.
  assert (forall i, i ∈ min_diff_of amplitudes thr2 ->
                    i ∈ min_diff_of amplitudes thr1) as Hsub.
  { intros i. rewrite !min_diff_spec.
    intros (a & b & m & Ha & Hb & Hm & Hlt). exists a, b, m.
    repeat split; auto.
    pose proof (np_mean_nonneg _ _ (vertical_diff_nonneg amplitudes) Hm).
    assert (m * thr1 <= m * thr2)%Q; [|lra].
    rewrite (Qmult_comm m thr1), (Qmult_comm m thr2).
    by apply Qmult_le_compat_r. }
  destruct (threshold_kept _ _ thr1 _ Hamps) as (k1 & Hk1 & Hl1 & Hlk1).
  destruct (threshold_kept _ _ thr2 _ Hamps) as (k2 & Hk2 & Hl2 & Hlk2).
  rewrite H1 in Hk1. rewrite H2 in Hk2.
  injection Hk1 as <-. injection Hk2 as <-.
  split; [done|]. split.
  - intros e (j & Hj)%list_elem_of_lookup_1.
    destruct (lookup_lt_is_Some_2 (min_diff_of amplitudes thr2) j) as [i Hi];
      [rewrite <- Hl2; by eapply lookup_lt_Some|].
    rewrite (Hlk2 _ _ Hi) in Hj.
    apply list_elem_of_lookup_2, Hsub in Hi.
    apply list_elem_of_lookup_1 in Hi as (j' & Hj').
    eapply list_elem_of_lookup_2. rewrite (Hlk1 _ _ Hj'). done.
  - rewrite Hl1, Hl2. apply submseteq_length, NoDup_submseteq; [|done].
    apply sorted_lt_NoDup. unfold min_diff_of. apply np_where_sorted.
Qed.

Lemma larger_threshold_keeps_less_witness :
  (forall i, i ∈ min_diff_of demo_amplitudes default_outlier_threshold ->
             i ∈ min_diff_of demo_amplitudes 0%Q)
  /\ (forall e, e ∈ [3; 6; 9; 11; 13] -> e ∈ [3; 6; 9; 11; 13; 15])
  /\ length [3; 6; 9; 11; 13] <= length [3; 6; 9; 11; 13; 15].
Proof.
  apply (larger_threshold_keeps_less demo_signal demo_extrema demo_amplitudes
           0%Q default_outlier_threshold
           [3; 6; 9; 11; 13; 15] [3; 6; 9; 11; 13]).
  - by vm_compute.
  - vm_compute. reflexivity.
  - vm_compute. reflexivity.
  - vm_compute. reflexivity.
Defined.

(** ** The alternation repair *)

Lemma np_sign_cases (q : Q) :
  (np_sign q = 1%Z /\ (0 < q)%Q) \/ (np_sign q = 0%Z /\ (q == 0)%Q) \/
  (np_sign q = (-1)%Z /\ (q < 0)%Q).
Proof.
  destruct q as [n d]. unfold np_sign, Qlt, Qeq. simpl.
  destruct n; simpl; [right; left | left | right; right]; split; lia.
Qed.

Lemma sign_sum_zero (a b c : Q) :
  (np_sign (b - a) + np_sign (c - b))%Z = 0%Z <-> turning_or_flat a b c.
Proof.
  unfold turning_or_flat.
  destruct (np_sign_cases (b - a)) as [[-> H1]|[[-> H1]|[-> H1]]];
    destruct (np_sign_cases (c - b)) as [[-> H2]|[[-> H2]|[-> H2]]];
    split; try lia; try (intros _; lra); intros [?|[?|?]]; lra.
Qed.

Lemma elem_of_removeext amplitudes j :
  j ∈ removeext_of amplitudes <->
  exists k a b c,
    j = k + 1 /\ amplitudes !! k = Some a /\ amplitudes !! (k + 1) = Some b /\
    amplitudes !! (k + 2) = Some c /\ ~ turning_or_flat a b c.
Proof.
  unfold removeext_of. simpl. rewrite list_elem_of_fmap. split.
  - intros (k & -> & Hk). apply elem_of_np_where in Hk.
    rewrite list_lookup_fmap in Hk.
    destruct (zip_with Z.add _ _ !! k) as [s|] eqn:Es; [|done].
    simpl in Hk. injection Hk as Hs.
    apply lookup_zip_with_Some in Es as (x & y & -> & Hx & Hy).
    rewrite but_last_lookup in Hx. case_bool_decide; [|done].
    unfold from_1 in Hy. rewrite lookup_drop in Hy.
    rewrite list_lookup_fmap, np_diff_lookup in Hx, Hy.
    replace (1 + k + 1) with (k + 2) in Hy by lia.
    replace (1 + k) with (k + 1) in Hy by lia.
    destruct (amplitudes !! k) as [a|] eqn:Ea; [|done].
    destruct (amplitudes !! (k + 1)) as [b|] eqn:Eb; [|done].
    destruct (amplitudes !! (k + 2)) as [c|] eqn:Ec; [|done].
    simpl in *. simplify_eq. exists k, a, b, c.
    split; [done|]. split; [done|]. split; [done|]. split; [done|].
    intros Ht%sign_sum_zero. apply negb_true_iff, Z.eqb_neq in Hs. done.
  - intros (k & a & b & c & -> & Ha & Hb & Hc & Hnt). exists k.
    split; [done|]. apply elem_of_np_where. rewrite list_lookup_fmap.
    assert (zip_with Z.add (but_last (np_sign <$> np_diff amplitudes))
              (from_1 (np_sign <$> np_diff amplitudes)) !! k
            = Some (np_sign (b - a) + np_sign (c - b))%Z) as ->.
    { apply lookup_zip_with_Some. eexists _, _. split; [done|]. split.
      - rewrite but_last_lookup, length_fmap, np_diff_length.
        rewrite bool_decide_eq_true_2
          by (apply lookup_lt_Some in Hc; lia).
        by rewrite list_lookup_fmap, np_diff_lookup, Ha, Hb.
      - unfold from_1. rewrite lookup_drop, list_lookup_fmap, np_diff_lookup.
        replace (1 + k + 1) with (k + 2) by lia.
        replace (1 + k) with (k + 1) by lia. by rewrite Hb, Hc. }
    simpl. f_equal. apply negb_true_iff, Z.eqb_neq.
    intros Hz%sign_sum_zero. done.
Qed.

(** X10.  The alternation repair removes the extremum at position j
    exactly when j has a neighbour on both sides and its amplitude is
    neither a strict peak nor a strict trough between them, nor level with
    both; so the first and the last position are never removed, and
    amplitudes that already turn at every inner position lose nothing. *)
Theorem repair_removes_inner_breaks amplitudes :
  (forall j, j ∈ removeext_of amplitudes <->
     exists k a b c,
       j = k + 1 /\ amplitudes !! k = Some a /\
       amplitudes !! (k + 1) = Some b /\ amplitudes !! (k + 2) = Some c /\
       ~ turning_or_flat a b c) /\
  (forall j, j ∈ removeext_of amplitudes -> 1 <= j /\ j + 1 < length amplitudes) /\
  ((forall k a b c,
      amplitudes !! k = Some a -> amplitudes !! (k + 1) = Some b ->
      amplitudes !! (k + 2) = Some c -> turning_or_flat a b c) ->
   removeext_of amplitudes = [] /\
   forall extrema : list nat,
     np_delete extrema (removeext_of amplitudes) = extrema).
Proof.
  split; [apply elem_of_removeext|]. split.
  - intros j (k & a & b & c & -> & _ & _ & Hc & _)%elem_of_removeext.
    apply lookup_lt_Some in Hc. lia.
  - intros Hturn.
    assert (removeext_of amplitudes = []) as ->.
    { apply elem_of_nil_inv. intros j.
      intros (k & a & b & c & _ & Ha & Hb & Hc & Hn)%elem_of_removeext.
      apply Hn. by eapply Hturn. }
    split; [done|]. intros extrema. unfold np_delete. generalize 0.
    induction extrema as [|x l IH]; intros i; cbn [delete_from]; [done|].
    destruct (bool_decide_reflect (i ∈ @nil nat)) as [?%elem_of_nil|]; [done|].
    by rewrite IH.
Qed.

(** ** The sanitizer *)

Lemma every_other_length_half {A} (a : list A) :
  length (every_other a) = (length a + 1) / 2.
Proof.
  induction a as [a IH] using (induction_ltof1 _ length). unfold ltof in IH.
  destruct a as [|x [|y a]]; [done | done |].
  change (S (length (every_other a)) = (S (S (length a)) + 1) / 2).
  rewrite IH by (simpl; lia).
  replace (S (S (length a)) + 1) with (length a + 1 + 1 * 2) by lia.
  rewrite Nat.div_add by lia. lia.
Qed.

Lemma odd_positions_length {A} (a : list A) :
  length (odd_positions a) = length a / 2.
Proof.
  unfold odd_positions. rewrite every_other_length_half, from_1_length.
  destruct a as [|x a]; [done|].
  by replace (length (x :: a) - 1 + 1) with (length (x :: a)) by (simpl; lia).
Qed.

Lemma sanitize_closed_form extrema amplitudes :
  length extrema = length amplitudes -> 2 <= length amplitudes ->
  _rsp_findpeaks_sanitize extrema amplitudes
  = Ok (odd_positions (trimmed_extrema extrema amplitudes),
        even_positions_but_last (trimmed_extrema extrema amplitudes)).
Proof.
  intros Hlen Hn. unfold _rsp_findpeaks_sanitize, trimmed_extrema.
  destruct (lookup_lt_is_Some_2 amplitudes 0) as [a0 Ha0]; [lia|].
  destruct (lookup_lt_is_Some_2 amplitudes 1) as [a1 Ha1]; [lia|].
  destruct (lookup_lt_is_Some_2 amplitudes (length amplitudes - 1))
    as [al Hal]; [lia|].
  destruct (lookup_lt_is_Some_2 amplitudes (length amplitudes - 2))
    as [al2 Hal2]; [lia|].
  rewrite Ha0, Ha1, Hal, Hal2.
  rewrite (proj2 (index_Ok _ _ _) Ha0), (proj2 (index_Ok _ _ _) Ha1). simpl.
  assert (index_last amplitudes = Ok al) as ->.
  { unfold index_last. destruct (length amplitudes) as [|n] eqn:E; [lia|].
    apply index_Ok. by replace n with (S n - 1) by lia. }
  assert (index_last2 amplitudes = Ok al2) as ->.
  { unfold index_last2. destruct (length amplitudes) as [|[|n]] eqn:E;
      [lia | lia |].
    apply index_Ok. by replace n with (S (S n) - 2) by lia. }
  destruct extrema as [|e0 extrema]; [simpl in Hlen; lia|].
  destruct (Qgtb a0 a1); simpl.
  - destruct extrema as [|e1 extrema]; [simpl in Hlen; lia|].
    destruct (Qltb al al2); simpl.
    + unfold but_last. simpl in *. rewrite <- Hlen.
      do 3 f_equal; f_equal; lia.
    + rewrite <- Hlen. simpl.
      rewrite firstn_all2 by (simpl; lia). done.
  - destruct (Qltb al al2); simpl.
    + unfold but_last. rewrite <- Hlen. simpl. do 3 f_equal; f_equal; lia.
    + rewrite <- Hlen.
      by rewrite (firstn_all2 (e0 :: extrema)) by (simpl; lia).
Qed.

(** X11.  With as many extrema as amplitudes, the sanitizer succeeds
    exactly when there are at least two of them (else IndexError); it keeps
    all extrema but possibly the first and the last, and returns the kept
    ones at odd positions as peaks and as many at even positions as
    troughs: half of the kept ones each, rounded down. *)
Theorem sanitize_pairs_up extrema amplitudes :
  length extrema = length amplitudes ->
  (length amplitudes < 2 ->
   _rsp_findpeaks_sanitize extrema amplitudes = Raise IndexError) /\
  (2 <= length amplitudes ->
   let trimmed := trimmed_extrema extrema amplitudes in
   _rsp_findpeaks_sanitize extrema amplitudes
   = Ok (odd_positions trimmed, even_positions_but_last trimmed) /\
   length extrema - 2 <= length trimmed <= length extrema /\
   trimmed `sublist_of` extrema /\
   length (odd_positions trimmed) = length trimmed / 2 /\
   length (even_positions_but_last trimmed) = length trimmed / 2).
Proof.
  intros Hlen. split; [apply sanitize_too_few|]. intros Hn. simpl.
  split; [by apply sanitize_closed_form|].
  assert (length extrema - 2 <= length (trimmed_extrema extrema amplitudes)
          <= length extrema) as Hl.
  { unfold trimmed_extrema. rewrite length_take, length_drop.
    destruct (amplitudes !! 0), (amplitudes !! 1),
      (amplitudes !! (length amplitudes - 1)),
      (amplitudes !! (length amplitudes - 2));
      repeat match goal with |- context [if ?b then _ else _] => destruct b end;
      lia. }
  split; [done|]. split.
  - unfold trimmed_extrema. etrans; [apply sublist_take | apply sublist_drop].
  - rewrite <- peaks_troughs_length. split; apply odd_positions_length.
Qed.

Lemma sanitize_pairs_up_witness :
  (length [3%Q; (-4)%Q; 5%Q] < 2 ->
   _rsp_findpeaks_sanitize [3; 6; 9] [3%Q; (-4)%Q; 5%Q] = Raise IndexError) /\
  (2 <= length [3%Q; (-4)%Q; 5%Q] ->
   let trimmed := trimmed_extrema [3; 6; 9] [3%Q; (-4)%Q; 5%Q] in
   _rsp_findpeaks_sanitize [3; 6; 9] [3%Q; (-4)%Q; 5%Q]
   = Ok (odd_positions trimmed, even_positions_but_last trimmed) /\
   length [3; 6; 9] - 2 <= length trimmed <= length [3; 6; 9] /\
   trimmed `sublist_of` [3; 6; 9] /\
   length (odd_positions trimmed) = length trimmed / 2 /\
   length (even_positions_but_last trimmed) = length trimmed / 2).
Proof. apply (sanitize_pairs_up [3; 6; 9] [3%Q; (-4)%Q; 5%Q]). reflexivity. Defined.

(** ** Peaks above their troughs *)

Lemma alternating_up amplitudes j m a b a' b' :
  alternating amplitudes ->
  amplitudes !! j = Some a -> amplitudes !! (j + 1) = Some b -> (a < b)%Q ->
  amplitudes !! (j + 2 * m) = Some a' ->
  amplitudes !! (j + 2 * m + 1) = Some b' -> (a' < b')%Q.
Proof.
  intros [_ Halt] Ha Hb Hab. revert a' b'.
  induction m as [|m IH]; intros a' b' Ha' Hb'.
  - replace (j + 2 * 0) with j in * by lia. by simplify_eq.
  - destruct (lookup_lt_is_Some_2 amplitudes (j + 2 * m)) as [x Hx];
      [apply lookup_lt_Some in Ha'; lia|].
    destruct (lookup_lt_is_Some_2 amplitudes (j + 2 * m + 1)) as [y Hy];
      [apply lookup_lt_Some in Ha'; lia|].
    specialize (IH x y Hx Hy).
    assert (amplitudes !! (j + 2 * m + 2) = Some a') as Ha2
      by (rewrite <- Ha'; f_equal; lia).
    assert (amplitudes !! (j + 2 * m + 1 + 1) = Some a') as Ha3
      by (rewrite <- Ha'; f_equal; lia).
    assert (amplitudes !! (j + 2 * m + 1 + 2) = Some b') as Hb3
      by (rewrite <- Hb'; f_equal; lia).
    destruct (Halt (j + 2 * m) x y a' Hx Hy Ha2) as [[_ ?]|[? _]]; [|lra].
    destruct (Halt (j + 2 * m + 1) y a' b' Hy Ha3 Hb3) as [[? _]|[_ ?]]; lra.
Qed.

Lemma trimmed_offset extrema amplitudes :
  2 <= length amplitudes ->
  exists k a0 a1,
    k <= 1 /\ amplitudes !! 0 = Some a0 /\ amplitudes !! 1 = Some a1 /\
    (k = 0 -> (a0 <= a1)%Q) /\ (k = 1 -> (a1 < a0)%Q) /\
    forall q x, trimmed_extrema extrema amplitudes !! q = Some x ->
                extrema !! (k + q) = Some x.
Proof.
  intros Hn. unfold trimmed_extrema.
  destruct (lookup_lt_is_Some_2 amplitudes 0) as [a0 Ha0]; [lia|].
  destruct (lookup_lt_is_Some_2 amplitudes 1) as [a1 Ha1]; [lia|].
  rewrite Ha0, Ha1. destruct (Qgtb a0 a1) eqn:E.
  - exists 1, a0, a1. split; [lia|]. split; [done|]. split; [done|].
    split; [lia|]. split; [intros _; by apply Qgtb_lt|].
    intros q x [Hq _]%lookup_take_Some. by rewrite lookup_drop in Hq.
  - exists 0, a0, a1. split; [lia|]. split; [done|]. split; [done|].
    split; [|split; [lia|]].
    + intros _. destruct (Qlt_le_dec a1 a0) as [Hlt|]; [|done].
      apply Qgtb_lt in Hlt. congruence.
    + intros q x [Hq _]%lookup_take_Some. by rewrite lookup_drop in Hq.
Qed.

(** X12.  When the amplitudes passed to the sanitizer go up and down by
    turns, every trough it returns is directly followed, among the
    extrema, by its peak, of larger amplitude, and every peak by the next
    trough, of smaller amplitude. *)
Theorem sanitize_peaks_above_troughs extrema amplitudes peaks troughs :
  length extrema = length amplitudes ->
  alternating amplitudes ->
  _rsp_findpeaks_sanitize extrema amplitudes = Ok (peaks, troughs) ->
  (forall i t p, troughs !! i = Some t -> peaks !! i = Some p ->
     exists j a b,
       extrema !! j = Some t /\ extrema !! (j + 1) = Some p /\
       amplitudes !! j = Some a /\ amplitudes !! (j + 1) = Some b /\
       (a < b)%Q) /\
  (forall i p t, peaks !! i = Some p -> troughs !! (i + 1) = Some t ->
     exists j b c,
       extrema !! j = Some p /\ extrema !! (j + 1) = Some t /\
       amplitudes !! j = Some b /\ amplitudes !! (j + 1) = Some c /\
       (c < b)%Q).
Proof.
  intros Hlen Halt Hsan.
  pose proof (sanitize_Ok_length _ _ _ Hsan) as Hn.
  rewrite sanitize_closed_form in Hsan by done. injection Hsan as <- <-.
  destruct (trimmed_offset extrema amplitudes Hn)
    as (k & a0 & a1 & Hk & Ha0 & Ha1 & Hk0 & Hk1 & Hlk).
  (* the amplitudes at the positions of a trough and of its peak go up *)
  assert (forall i a b,
            amplitudes !! (k + 2 * i) = Some a ->
            amplitudes !! (k + 2 * i + 1) = Some b -> (a < b)%Q) as Hup.
  { intros i a b Ha Hb.
    destruct (lookup_lt_is_Some_2 amplitudes k) as [x Hx];
      [apply lookup_lt_Some in Ha; lia|].
    destruct (lookup_lt_is_Some_2 amplitudes (k + 1)) as [y Hy];
      [apply lookup_lt_Some in Hb; lia|].
    apply (alternating_up amplitudes k i x y a b); auto.
    destruct (decide (k = 0)) as [->|Hne].
    - simpl in Hx, Hy. rewrite Ha0 in Hx. rewrite Ha1 in Hy.
      injection Hx as <-. injection Hy as <-. specialize (Hk0 eq_refl).
      destruct Halt as [Hneq _]. specialize (Hneq 0 a0 a1 Ha0 Ha1).
      destruct (Qlt_le_dec a0 a1) as [|Hle]; [done|].
      exfalso. apply Hneq. lra.
    - assert (k = 1) as -> by lia. specialize (Hk1 eq_refl).
      simpl in Hx, Hy. rewrite Ha1 in Hx. injection Hx as <-.
      destruct Halt as [_ Halt].
      destruct (Halt 0 a0 a1 y Ha0 Ha1 Hy) as [[? _]|[_ ?]]; lra. }
  split.
  - intros i t p Ht%even_positions_lookup Hp.
    rewrite odd_positions_lookup in Hp.
    apply Hlk in Ht, Hp.
    replace (k + (2 * i + 1)) with (k + 2 * i + 1) in Hp by lia.
    destruct (lookup_lt_is_Some_2 amplitudes (k + 2 * i)) as [a Ha];
      [rewrite <- Hlen; by eapply lookup_lt_Some|].
    destruct (lookup_lt_is_Some_2 amplitudes (k + 2 * i + 1)) as [b Hb];
      [rewrite <- Hlen; by eapply lookup_lt_Some|].
    exists (k + 2 * i), a, b. repeat split; eauto.
  - intros i p t Hp Ht%even_positions_lookup.
    rewrite odd_positions_lookup in Hp.
    apply Hlk in Ht, Hp.
    assert (extrema !! (k + 2 * i + 1) = Some p) as Hp'
      by (rewrite <- Hp; f_equal; lia).
    assert (extrema !! (k + 2 * i + 1 + 1) = Some t) as Ht'
      by (rewrite <- Ht; f_equal; lia).
    destruct (lookup_lt_is_Some_2 amplitudes (k + 2 * i)) as [a Ha];
      [rewrite <- Hlen; apply lookup_lt_Some in Hp'; lia|].
    destruct (lookup_lt_is_Some_2 amplitudes (k + 2 * i + 1)) as [b Hb];
      [rewrite <- Hlen; by eapply lookup_lt_Some|].
    destruct (lookup_lt_is_Some_2 amplitudes (k + 2 * i + 1 + 1)) as [c Hc];
      [rewrite <- Hlen; by eapply lookup_lt_Some|].
    exists (k + 2 * i + 1), b, c. repeat split; auto.
    pose proof (Hup i a b Ha Hb).
    assert (amplitudes !! (k + 2 * i + 2) = Some c) as Hc'
      by (rewrite <- Hc; f_equal; lia).
    destruct Halt as [_ Halt].
    destruct (Halt (k + 2 * i) a b c Ha Hb Hc') as [[_ ?]|[? _]]; lra.
Qed.

Lemma sanitize_peaks_above_troughs_witness :
  (forall i t p, [6; 11] !! i = Some t -> [9; 13] !! i = Some p ->
     exists j a b,
       [3; 6; 9; 11; 13] !! j = Some t /\ [3; 6; 9; 11; 13] !! (j + 1) = Some p /\
       [3; -4; 5; -3; 2]%Q !! j = Some a /\
       [3; -4; 5; -3; 2]%Q !! (j + 1) = Some b /\ (a < b)%Q) /\
  (forall i p t, [9; 13] !! i = Some p -> [6; 11] !! (i + 1) = Some t ->
     exists j b c,
       [3; 6; 9; 11; 13] !! j = Some p /\ [3; 6; 9; 11; 13] !! (j + 1) = Some t /\
       [3; -4; 5; -3; 2]%Q !! j = Some b /\
       [3; -4; 5; -3; 2]%Q !! (j + 1) = Some c /\ (c < b)%Q).
Proof.
  apply (sanitize_peaks_above_troughs [3; 6; 9; 11; 13] [3; -4; 5; -3; 2]%Q).
  - reflexivity.
  - split.
    + intros [|[|[|[|[|j]]]]] a b; simpl; try done;
        intros [= <-] [= <-]; by vm_compute.
    + intros [|[|[|[|[|j]]]]] a b c; simpl; try done;
        intros [= <-] [= <-] [= <-]; vm_compute; intuition congruence.
  - vm_compute. reflexivity.
Defined.

(** ** The phase column, error cases *)

Lemma where_from_none i mask :
  (forall b, b ∈ mask -> b = false) -> where_from i mask = [].
Proof.
  revert i. induction mask as [|b mask IH]; intros i H; simpl; [done|].
  rewrite (H b) by (by left). apply IH. intros b' Hb'. apply H. by right.
Qed.

(** X13.  The phase derivation raises KeyError when the table lacks the
    "RSP_Peaks" or the "RSP_Troughs" column, and IndexError when no sample
    is marked as a peak or a trough. *)
Theorem phase_error_cases (signals : frame (option Q)) :
  ("RSP_Peaks" ∉ columns signals ->
   _rsp_findpeaks_phase signals = Raise (KeyError "RSP_Peaks")) /\
  (forall peaks,
     getitem signals "RSP_Peaks" = Ok peaks ->
     length peaks <= nrows signals ->
     "RSP_Troughs" ∉ columns signals ->
     _rsp_findpeaks_phase signals = Raise (KeyError "RSP_Troughs")) /\
  (forall peaks troughs,
     getitem signals "RSP_Peaks" = Ok peaks ->
     getitem signals "RSP_Troughs" = Ok troughs ->
     np_where (eq_one peaks) = [] -> np_where (eq_one troughs) = [] ->
     _rsp_findpeaks_phase signals = Raise IndexError).
Proof.
  unfold _rsp_findpeaks_phase. split; [|split].
  - intros H. by rewrite (getitem_missing signals "RSP_Peaks").
  - intros peaks Hpk Hrows H. rewrite Hpk. simpl.
    destruct (assign_at_spec (replicate (nrows signals) (@None Q))
                (np_where (eq_one peaks)) (Some 0%Q)) as (a1 & -> & _).
    { intros i Hi%np_where_lt. unfold eq_one in Hi.
      rewrite length_fmap in Hi. rewrite length_replicate. lia. }
    simpl. by rewrite (getitem_missing signals "RSP_Troughs").
  - intros peaks troughs Hpk Htr Hnone Hnone'.
    rewrite Hpk. simpl. rewrite Hnone. simpl.
    rewrite Htr. simpl. rewrite Hnone'. simpl.
    unfold np_where. rewrite (where_from_none 0); [done|].
    intros b (c & -> & Hc)%list_elem_of_fmap.
    by apply elem_of_replicate in Hc as [-> _].
Qed.

Lemma phase_error_cases_witness :
  _rsp_findpeaks_phase
    [("RSP_Peaks", indicator 4 []); ("RSP_Troughs", indicator 4 [])]
  = Raise IndexError /\
  _rsp_findpeaks_phase [("RSP_Peaks", indicator 4 [1])]
  = Raise (KeyError "RSP_Troughs").
Proof.
  split.
  - apply (phase_error_cases
             [("RSP_Peaks", indicator 4 []); ("RSP_Troughs", indicator 4 [])])
      with (peaks := indicator 4 []) (troughs := indicator 4 []);
      reflexivity.
  - apply (phase_error_cases [("RSP_Peaks", indicator 4 [1])])
      with (peaks := indicator 4 [1]).
    + reflexivity.
    + simpl. lia.
    + apply (bool_decide_eq_false_1 _). vm_compute. reflexivity.
Defined.

(** ** The phase column of a successful call *)

Lemma trimmed_marks_disjoint (trimmed : list nat) n :
  StronglySorted lt trimmed -> Forall (fun e => e < n) trimmed ->
  (forall p, p ∈ odd_positions trimmed ->
     p < n /\ p ∉ even_positions_but_last trimmed) /\
  (forall t, t ∈ even_positions_but_last trimmed -> t < n).
Proof.
  intros Hs Hrange. rewrite Forall_forall in Hrange. split.
  - intros p Hp. pose proof Hp as (i & Hi)%odd_positions_elem. split.
    + apply Hrange. by eapply list_elem_of_lookup_2.
    + intros (j & Hj)%even_positions_elem.
      destruct (decide (2 * i + 1 < 2 * j)) as [Hlt|Hge].
      * pose proof (sorted_lookup lt trimmed _ _ _ _ Hs Hlt Hi Hj). lia.
      * assert (2 * j < 2 * i + 1) as Hlt by lia.
        pose proof (sorted_lookup lt trimmed _ _ _ _ Hs Hlt Hj Hi). lia.
  - intros t (j & Hj)%even_positions_elem.
    apply Hrange. by eapply list_elem_of_lookup_2.
Qed.

(** A successful call, seen through the extrema kept by the sanitizer. *)
Lemma rsp_findpeaks_Ok_trimmed rsp_cleaned method thr signals info :
  rsp_findpeaks rsp_cleaned method thr = Ok (signals, info) ->
  exists values trimmed inspiration,
    retrieve_column rsp_cleaned = Ok values /\
    StronglySorted lt trimmed /\
    Forall (fun e => e < length values) trimmed /\
    info !! "RSP_Peaks" = Some (odd_positions trimmed) /\
    info !! "RSP_Troughs" = Some (even_positions_but_last trimmed) /\
    _rsp_findpeaks_phase
      [("RSP_Peaks", indicator (length values) (odd_positions trimmed));
       ("RSP_Troughs",
        indicator (length values) (even_positions_but_last trimmed))]
    = Ok inspiration /\
    getitem signals "RSP_Inspiration" = Ok inspiration /\
    length inspiration = length values /\
    phase_boundary (odd_positions trimmed) (even_positions_but_last trimmed)
      inspiration.
Proof.
  intros H. apply rsp_findpeaks_Ok in H
    as (values & thr' & peaks & troughs & insp & Hcol & Hk & Hp & Ht & Hph & ->).
  apply khodadad_spec in Hk as (trimmed & Hs & Hrange & ->).
  destruct (khodadad_info_lookup trimmed) as [Hp' Ht']. simpl in *.
  rewrite Hp' in Hp. rewrite Ht' in Ht. injection Hp as <-. injection Ht as <-.
  destruct (trimmed_marks_disjoint trimmed (length values) Hs Hrange)
    as [Hpk Htr].
  pose proof (phase_spec _ _ _ _ Hpk Htr Hph) as [Hlen Hb].
  exists values, trimmed, insp. split_and!; done.
Qed.

Lemma phase_before_first n peaks troughs inspiration k :
  _rsp_findpeaks_phase
    [("RSP_Peaks", indicator n peaks); ("RSP_Troughs", indicator n troughs)]
  = Ok inspiration ->
  (forall m, marked peaks troughs m -> m < n -> k < m) ->
  inspiration !! k = Some None.
Proof.
  intros H Hbefore. apply phase_Ok in H as (last & Hlast & ->).
  apply index_last_sorted in Hlast as [Hin _]; [|apply np_where_sorted].
  apply elem_of_where_not_nan in Hin as [vl Hvl].
  destruct (marks_defined _ _ _ _ _ Hvl) as (Hln & Hlm & _).
  assert (k < last) as Hk by (apply Hbefore; [by destruct Hlm; [left|right] | done]).
  rewrite lookup_app_l.
  - rewrite lookup_take_lt by done. unfold fillna_pad.
    apply pad_from_gap. intros q Hq. rewrite marks_lookup by lia. f_equal.
    unfold mark. rewrite bool_decide_eq_false_2.
    + rewrite bool_decide_eq_false_2; [done|].
      intros Hin. specialize (Hbefore q (or_introl Hin)). lia.
    + intros Hin. specialize (Hbefore q (or_intror Hin)). lia.
  - rewrite length_take. unfold fillna_pad.
    rewrite pad_from_length, marks_length. lia.
Qed.

Lemma sorted_no_index_between (l : list nat) j r t p q :
  StronglySorted lt l ->
  l !! j = Some t -> l !! (j + 1) = Some p -> l !! r = Some q ->
  ~ (t < q < p).
Proof.
  intros Hs Ht Hp Hq [H1 H2].
  destruct (decide (r <= j)) as [Hle|Hgt].
  - destruct (decide (r = j)) as [->|]; [simplify_eq; lia|].
    assert (r < j) as Hlt by lia.
    pose proof (sorted_lookup lt l _ _ _ _ Hs Hlt Hq Ht). lia.
  - destruct (decide (r = j + 1)) as [->|]; [simplify_eq; lia|].
    assert (j + 1 < r) as Hlt by lia.
    pose proof (sorted_lookup lt l _ _ _ _ Hs Hlt Hp Hq). lia.
Qed.

Lemma marked_trimmed (trimmed : list nat) q :
  marked (odd_positions trimmed) (even_positions_but_last trimmed) q ->
  exists r, trimmed !! r = Some q /\
            r + 1 <= 2 * length (odd_positions trimmed).
Proof.
  intros [(i & Hi)%list_elem_of_lookup_1|(i & Hi)%list_elem_of_lookup_1].
  - pose proof (lookup_lt_Some _ _ _ Hi).
    rewrite odd_positions_lookup in Hi. exists (2 * i + 1). split; [done|lia].
  - pose proof (lookup_lt_Some _ _ _ Hi) as Hlt.
    rewrite <- peaks_troughs_length in Hlt.
    apply even_positions_lookup in Hi. exists (2 * i). split; [done|lia].
Qed.

(** X14.  On every successful call "RSP_Inspiration" is the breathing
    phase: missing before the first trough, 1.0 from each trough up to the
    sample before its peak, 0.0 from each peak up to the sample before the
    next trough, 0.0 at the last peak and missing after it. *)
Theorem inspiration_is_the_phase rsp_cleaned method thr signals info :
  rsp_findpeaks rsp_cleaned method thr = Ok (signals, info) ->
  exists peaks troughs inspiration,
    info !! "RSP_Peaks" = Some peaks /\
    info !! "RSP_Troughs" = Some troughs /\
    getitem signals "RSP_Inspiration" = Ok inspiration /\
    (forall t k, troughs !! 0 = Some t -> k < t ->
       inspiration !! k = Some None) /\
    (forall i t p k, troughs !! i = Some t -> peaks !! i = Some p ->
       t <= k < p -> inspiration !! k = Some (Some 1%Q)) /\
    (forall i p t k, peaks !! i = Some p -> troughs !! (i + 1) = Some t ->
       p <= k < t -> inspiration !! k = Some (Some 0%Q)) /\
    (forall p k, peaks !! (length peaks - 1) = Some p ->
       inspiration !! p = Some (Some 0%Q) /\
       (p < k < length inspiration -> inspiration !! k = Some None)).
Proof.
  intros H. apply rsp_findpeaks_Ok_trimmed in H
    as (values & trimmed & insp & _ & Hs & Hrange & Hp & Ht & Hph & Hget
        & Hlen & Hpeak & Htrough & Hafter & _ & Hfill).
  exists (odd_positions trimmed), (even_positions_but_last trimmed), insp.
  split; [done|]. split; [done|]. split; [done|].
  split; [|split; [|split]].
  - intros t k Ht0%even_positions_lookup Hk.
    eapply phase_before_first; [exact Hph|].
    intros m (r & Hr & _)%marked_trimmed _.
    destruct (decide (r = 0)) as [->|]; [simpl in *; simplify_eq; lia|].
    assert (0 < r) as Hlt by lia.
    pose proof (sorted_lookup lt trimmed _ _ _ _ Hs Hlt Ht0 Hr).
    simpl in *. lia.
  - intros i t p k Hti Hpi Hk.
    pose proof Hti as Hti'%even_positions_lookup.
    pose proof Hpi as Hpi'. rewrite odd_positions_lookup in Hpi'.
    assert (t ∈ even_positions_but_last trimmed) as Htin
      by (by eapply list_elem_of_lookup_2).
    assert (p ∈ odd_positions trimmed) as Hpin
      by (by eapply list_elem_of_lookup_2).
    rewrite <- (Htrough t Htin).
    apply (Hfill k t p); [by right | by left | lia |].
    intros q Hq (r & Hr & _)%marked_trimmed.
    apply (sorted_no_index_between trimmed (2 * i) r t p q); auto. lia.
  - intros i p t k Hpi Hti Hk.
    pose proof Hti as Hti'%even_positions_lookup.
    pose proof Hpi as Hpi'. rewrite odd_positions_lookup in Hpi'.
    assert (t ∈ even_positions_but_last trimmed) as Htin
      by (by eapply list_elem_of_lookup_2).
    assert (p ∈ odd_positions trimmed) as Hpin
      by (by eapply list_elem_of_lookup_2).
    rewrite <- (Hpeak p Hpin).
    apply (Hfill k p t); [by left | by right | lia |].
    intros q Hq (r & Hr & _)%marked_trimmed.
    apply (sorted_no_index_between trimmed (2 * i + 1) r p t q); auto; [|lia].
    rewrite <- Hti'. f_equal. lia.
  - intros p k Hlast.
    assert (p ∈ odd_positions trimmed) as Hpin
      by (by eapply list_elem_of_lookup_2).
    split; [by apply Hpeak|]. intros Hk. apply Hafter; [lia|].
    intros m (r & Hr & Hrl)%marked_trimmed.
    pose proof (lookup_lt_Some _ _ _ Hlast) as Hpos.
    rewrite odd_positions_lookup in Hlast.
    destruct (decide (r = 2 * (length (odd_positions trimmed) - 1) + 1))
      as [->|]; [simplify_eq; lia|].
    assert (r < 2 * (length (odd_positions trimmed) - 1) + 1) as Hlt by lia.
    pose proof (sorted_lookup lt trimmed _ _ _ _ Hs Hlt Hr Hlast). lia.
Qed.

Lemma inspiration_is_the_phase_witness :
  exists peaks troughs inspiration,
    demo_info !! "RSP_Peaks" = Some peaks /\
    demo_info !! "RSP_Troughs" = Some troughs /\
    getitem demo_signals "RSP_Inspiration" = Ok inspiration /\
    (forall t k, troughs !! 0 = Some t -> k < t ->
       inspiration !! k = Some None) /\
    (forall i t p k, troughs !! i = Some t -> peaks !! i = Some p ->
       t <= k < p -> inspiration !! k = Some (Some 1%Q)) /\
    (forall i p t k, peaks !! i = Some p -> troughs !! (i + 1) = Some t ->
       p <= k < t -> inspiration !! k = Some (Some 0%Q)) /\
    (forall p k, peaks !! (length peaks - 1) = Some p ->
       inspiration !! p = Some (Some 0%Q) /\
       (p < k < length inspiration -> inspiration !! k = Some None)).
Proof.
  apply (inspiration_is_the_phase (Sequence demo_signal) default_method
           default_outlier_threshold demo_signals demo_info).
  vm_compute. reflexivity.
Defined.

(** ** What a successful call reports *)

Lemma phase_Ok_marked n peaks troughs inspiration :
  _rsp_findpeaks_phase
    [("RSP_Peaks", indicator n peaks); ("RSP_Troughs", indicator n troughs)]
  = Ok inspiration ->
  exists m, marked peaks troughs m.
Proof.
  intros H. apply phase_Ok in H as (last & Hlast & _).
  apply index_last_sorted in Hlast as [Hin _]; [|apply np_where_sorted].
  apply elem_of_where_not_nan in Hin as [vl Hvl].
  destruct (marks_defined _ _ _ _ _ Hvl) as (_ & Hlm & _).
  exists last. destruct Hlm; [by left | by right].
Qed.

(** X15.  A successful call reports at least one peak and one trough;
    every index it reports is a valid sample index and one of the extrema
    the locator found. *)
Theorem success_reports_valid_extrema rsp_cleaned values method thr signals info :
  retrieve_column rsp_cleaned = Ok values ->
  rsp_findpeaks rsp_cleaned method thr = Ok (signals, info) ->
  exists peaks troughs extrema,
    info !! "RSP_Peaks" = Some peaks /\
    info !! "RSP_Troughs" = Some troughs /\
    _rsp_findpeaks_extrema values = Ok extrema /\
    0 < length peaks /\ 0 < length troughs /\
    forall m, m ∈ peaks \/ m ∈ troughs -> m < length values /\ m ∈ extrema.
Proof.
  intros Hcol H. pose proof H as H'.
  apply rsp_findpeaks_Ok_trimmed in H
    as (values' & trimmed & insp & Hcol' & Hs & Hrange & Hp & Ht & Hph & _).
  rewrite Hcol in Hcol'. injection Hcol' as <-.
  apply rsp_findpeaks_Ok in H'
    as (values' & thr' & peaks & troughs & insp' & Hcol' & Hk & Hp' & Ht' & _).
  rewrite Hcol in Hcol'. injection Hcol' as <-.
  rewrite Hp in Hp'. rewrite Ht in Ht'.
  injection Hp' as <-. injection Ht' as <-.
  apply khodadad_stages in Hk
    as (extrema & survivors & amplitudes & pk & tr & Hext & Hout & Hsan & ->).
  destruct (khodadad_info_lookup trimmed) as [_ _].
  rewrite lookup_insert_ne in Hp by done. rewrite lookup_insert_eq in Hp, Ht.
  injection Hp as ->. injection Ht as ->.
  exists (odd_positions trimmed), (even_positions_but_last trimmed), extrema.
  split; [by rewrite lookup_insert_ne, lookup_insert_eq|].
  split; [by rewrite lookup_insert_eq|]. split; [done|].
  pose proof (extrema_spec _ _ Hext) as (Hse & _ & _).
  pose proof (outliers_spec _ _ _ _ _ Hse Hout) as (Hss & _ & Hsub).
  pose proof (sanitize_spec _ _ _ _ Hss Hsan)
    as (trimmed' & _ & Hsub' & Hpk' & Htr').
  destruct (phase_Ok_marked _ _ _ _ Hph) as [m Hm].
  assert (0 < length (odd_positions trimmed)) as Hpos.
  { destruct Hm as [Hm|Hm]; apply list_elem_of_lookup_1 in Hm as [i Hi];
      apply lookup_lt_Some in Hi; [lia|].
    rewrite peaks_troughs_length. lia. }
  split; [done|]. split; [by rewrite <- peaks_troughs_length|].
  rewrite Forall_forall in Hrange. intros x Hx.
  assert (x ∈ trimmed) as Hin.
  { destruct Hx as [(i & Hi)%odd_positions_elem|(i & Hi)%even_positions_elem];
      by eapply list_elem_of_lookup_2. }
  split; [by apply Hrange|]. apply Hsub.
  rewrite Hpk', Htr' in *.
  destruct Hx as [(i & Hi)%odd_positions_elem|(i & Hi)%even_positions_elem];
    apply Hsub'; by eapply list_elem_of_lookup_2.
Qed.

Lemma success_reports_valid_extrema_witness :
  exists peaks troughs extrema,
    demo_info !! "RSP_Peaks" = Some peaks /\
    demo_info !! "RSP_Troughs" = Some troughs /\
    _rsp_findpeaks_extrema demo_signal = Ok extrema /\
    0 < length peaks /\ 0 < length troughs /\
    forall m, m ∈ peaks \/ m ∈ troughs ->
              m < length demo_signal /\ m ∈ extrema.
Proof.
  apply (success_reports_valid_extrema (Sequence demo_signal) demo_signal
           default_method default_outlier_threshold demo_signals demo_info).
  - reflexivity.
  - vm_compute. reflexivity.
Defined.

(** X23.  The table of a successful call has the columns "RSP_Peaks",
    "RSP_Troughs" and "RSP_Inspiration", in this order, each with one row per
    sample of the signal; the first two hold 1 at the reported peaks and
    troughs and 0 elsewhere. *)
Theorem signals_table_shape rsp_cleaned values method thr signals info :
  retrieve_column rsp_cleaned = Ok values ->
  rsp_findpeaks rsp_cleaned method thr = Ok (signals, info) ->
  columns signals = ["RSP_Peaks"; "RSP_Troughs"; "RSP_Inspiration"] /\
  Forall (fun kc => length kc.2 = length values) signals /\
  exists peaks troughs peaks_column troughs_column,
    info !! "RSP_Peaks" = Some peaks /\
    info !! "RSP_Troughs" = Some troughs /\
    getitem signals "RSP_Peaks" = Ok peaks_column /\
    getitem signals "RSP_Troughs" = Ok troughs_column /\
    forall k, k < length values ->
      (peaks_column !! k = Some (Some 1%Q) <-> k ∈ peaks) /\
      (peaks_column !! k = Some (Some 0%Q) <-> k ∉ peaks) /\
      (troughs_column !! k = Some (Some 1%Q) <-> k ∈ troughs) /\
      (troughs_column !! k = Some (Some 0%Q) <-> k ∉ troughs).
Proof.
  intros Hcol H. pose proof H as H'.
  apply rsp_findpeaks_Ok_trimmed in H'
    as (values' & trimmed & insp' & Hcol' & _ & _ & _ & _ & Hph' & _ & Hlen & _).
  rewrite Hcol in Hcol'. injection Hcol' as <-.
  apply rsp_findpeaks_Ok in H
    as (values' & thr' & peaks & troughs & insp & Hcol' & Hk & Hp & Ht & Hph
        & ->).
  rewrite Hcol in Hcol'. injection Hcol' as <-.
  apply khodadad_spec in Hk as (trimmed' & _ & _ & ->).
  destruct (khodadad_info_lookup trimmed') as [Hp' Ht']. simpl in *.
  rewrite Hp' in Hp. rewrite Ht' in Ht. injection Hp as <-. injection Ht as <-.
  assert (length insp = length values) as Hli.
  { destruct (khodadad_info_lookup trimmed) as [_ _].
    apply phase_Ok in Hph as (last & Hlast & ->).
    apply index_last_sorted in Hlast as [Hin _]; [|apply np_where_sorted].
    apply elem_of_where_not_nan in Hin as [vl Hvl].
    apply lookup_lt_Some in Hvl. rewrite marks_length in Hvl.
    rewrite length_app, length_take, length_drop. unfold fillna_pad.
    rewrite pad_from_length, marks_length. lia. }
  split; [done|]. split.
  { repeat constructor; simpl; by rewrite ?indicator_length. }
  eexists _, _, _, _. split; [done|]. split; [done|].
  split; [reflexivity|]. split; [reflexivity|].
  assert (forall idx k, k < length values ->
            (indicator (length values) idx !! k = Some (Some 1%Q) <-> k ∈ idx) /\
            (indicator (length values) idx !! k = Some (Some 0%Q) <-> k ∉ idx))
    as Hind.
  { intros idx k Hk. unfold indicator.
    rewrite list_lookup_fmap, lookup_seq_lt by done. simpl.
    destruct (bool_decide_reflect (k ∈ idx)); split; split;
      try done; try (intros [= ?]; discriminate); intros; done. }
  intros k Hk. destruct (Hind (odd_positions trimmed') k Hk) as [? ?].
  destruct (Hind (even_positions_but_last trimmed') k Hk) as [? ?].
  done.
Qed.

Lemma signals_table_shape_witness :
  columns demo_signals = ["RSP_Peaks"; "RSP_Troughs"; "RSP_Inspiration"] /\
  Forall (fun kc => length kc.2 = length demo_signal) demo_signals /\
  exists peaks troughs peaks_column troughs_column,
    demo_info !! "RSP_Peaks" = Some peaks /\
    demo_info !! "RSP_Troughs" = Some troughs /\
    getitem demo_signals "RSP_Peaks" = Ok peaks_column /\
    getitem demo_signals "RSP_Troughs" = Ok troughs_column /\
    forall k, k < length demo_signal ->
      (peaks_column !! k = Some (Some 1%Q) <-> k ∈ peaks) /\
      (peaks_column !! k = Some (Some 0%Q) <-> k ∉ peaks) /\
      (troughs_column !! k = Some (Some 1%Q) <-> k ∈ troughs) /\
      (troughs_column !! k = Some (Some 0%Q) <-> k ∉ troughs).
Proof.
  apply (signals_table_shape (Sequence demo_signal) demo_signal default_method
           default_outlier_threshold demo_signals demo_info).
  - reflexivity.
  - vm_compute. reflexivity.
Defined.

(** ** The method name *)

Lemma ascii_lower_idemp c : ascii_lower (ascii_lower c) = ascii_lower c.
Proof. destruct c as [[] [] [] [] [] [] [] []]; reflexivity. Qed.

Lemma lower_idemp s : lower (lower s) = lower s.
Proof.
  induction s as [|c s IH]; simpl; [done|]. by rewrite ascii_lower_idemp, IH.
Qed.

(** X16.  The method name is case-insensitive: a name and its lower-case
    form give the same result, and so do any two names that differ only in
    case. *)
Theorem method_is_case_insensitive rsp_cleaned method thr :
  rsp_findpeaks rsp_cleaned (lower method) thr
  = rsp_findpeaks rsp_cleaned method thr /\
  forall method',
    lower method' = lower method ->
    rsp_findpeaks rsp_cleaned method' thr = rsp_findpeaks rsp_cleaned method thr.
Proof.
  split.
  - unfold rsp_findpeaks. by rewrite lower_idemp.
  - intros method' Heq. unfold rsp_findpeaks. by rewrite Heq.
Qed.

(** ** The column of a DataFrame argument, in general *)

Lemma getitem_cases {A} (df : frame A) name :
  (exists c, getitem df name = Ok c /\ name ∈ columns df) \/
  (getitem df name = Raise (KeyError name) /\ name ∉ columns df).
Proof.
  induction df as [|[k c] df IH]; simpl.
  - right. split; [done|]. apply not_elem_of_nil.
  - destruct (String.eqb_spec k name) as [->|Hne].
    + left. exists c. split; [done|]. by left.
    + destruct IH as [(c' & Hc' & Hin)|[Hr Hnin]].
      * left. exists c'. split; [done|]. by right.
      * right. split; [done|]. by intros [?|?]%elem_of_cons.
Qed.

(** X17.  For a DataFrame argument the column used is always "RSP_Clean":
    the call equals the call on that column, and without that column it
    raises KeyError("RSP_Clean") whatever other columns the table has. *)
Theorem dataframe_column_is_RSP_Clean (df : frame Q) method thr :
  retrieve_column (DataFrame df) = getitem df "RSP_Clean" /\
  (forall values,
     getitem df "RSP_Clean" = Ok values ->
     rsp_findpeaks (DataFrame df) method thr
     = rsp_findpeaks (Sequence values) method thr) /\
  ("RSP_Clean" ∉ columns df ->
   rsp_findpeaks (DataFrame df) method thr = Raise (KeyError "RSP_Clean")).
Proof.
  assert (retrieve_column (DataFrame df) = getitem df "RSP_Clean") as Hret.
  { simpl. by destruct (getitem_cases df "RSP_Clean")
      as [(c & -> & _)|[-> _]]. }
  split; [done|]. split.
  - intros values Hv. unfold rsp_findpeaks. by rewrite Hret, Hv.
  - intros Hn. unfold rsp_findpeaks. rewrite Hret.
    by rewrite (getitem_missing df "RSP_Clean").
Qed.

(** ** The exceptions of rsp_findpeaks *)

Lemma index_last_cases {A} (a : list A) :
  is_Ok (index_last a) \/ index_last a = Raise IndexError.
Proof.
  unfold index_last. destruct (length a) as [|n] eqn:E; [by right|].
  destruct (index a n) as [v|e] eqn:Ei; [left; by eexists|].
  right. by apply index_Raise in Ei as [-> _].
Qed.

Lemma phase_indicator_cases n peaks troughs :
  is_Ok (_rsp_findpeaks_phase
           [("RSP_Peaks", indicator n peaks);
            ("RSP_Troughs", indicator n troughs)]) \/
  _rsp_findpeaks_phase
    [("RSP_Peaks", indicator n peaks); ("RSP_Troughs", indicator n troughs)]
  = Raise IndexError.
Proof.
  unfold _rsp_findpeaks_phase.
  change (nrows _) with (length (indicator n peaks)).
  rewrite indicator_length.
  change (getitem _ "RSP_Peaks") with (Ok (indicator n peaks)).
  change (getitem _ "RSP_Troughs") with (Ok (indicator n troughs)).
  simpl.
  destruct (assign_at_spec (replicate n (@None Q))
              (np_where (eq_one (indicator n peaks))) (Some 0%Q))
    as (a1 & -> & Hl1 & _).
  { intros i [? _]%elem_of_where_indicator. by rewrite length_replicate. }
  simpl. rewrite length_replicate in *.
  destruct (assign_at_spec a1
              (np_where (eq_one (indicator n troughs))) (Some 1%Q))
    as (a2 & -> & _ & _).
  { intros i [? _]%elem_of_where_indicator. lia. }
  simpl.
  destruct (index_last_cases (np_where (not_nan a2))) as [[l ->]| ->].
  - left. by eexists.
  - by right.
Qed.

Lemma sanitize_cases extrema amplitudes :
  length extrema = length amplitudes ->
  is_Ok (_rsp_findpeaks_sanitize extrema amplitudes) \/
  _rsp_findpeaks_sanitize extrema amplitudes = Raise IndexError.
Proof.
  intros Hlen. destruct (decide (2 <= length amplitudes)).
  - left. rewrite sanitize_closed_form by done. by eexists.
  - right. apply sanitize_too_few. lia.
Qed.

Lemma khodadad_cases rsp_cleaned thr :
  is_Ok (_rsp_findpeaks_khodadad rsp_cleaned thr) \/
  _rsp_findpeaks_khodadad rsp_cleaned thr = Raise IndexError.
Proof.
  unfold _rsp_findpeaks_khodadad.
  destruct (extrema_cases rsp_cleaned) as [[extrema Hext]|Hext];
    rewrite Hext; [|by right]. simpl.
  pose proof (extrema_spec _ _ Hext) as (Hs & Hrange & _).
  destruct (outliers_in_range rsp_cleaned extrema thr Hrange)
    as (survivors & amplitudes & Hout & _ & Hamps).
  rewrite Hout. simpl.
  apply take_indices_Ok in Hamps as [Hlen _].
  destruct (sanitize_cases survivors amplitudes) as [[[pk tr] ->]| ->];
    [done | left; by eexists | by right].
Qed.

(** X18.  rsp_findpeaks raises nothing but IndexError, the ValueError of
    an unknown method, and, for a DataFrame without that column,
    KeyError("RSP_Clean"). *)
Theorem rsp_findpeaks_raises_only rsp_cleaned method thr e :
  rsp_findpeaks rsp_cleaned method thr = Raise e ->
  e = IndexError \/
  (e = method_error /\
   lower method ∉ ["khodadad"; "khodadad2018"; "biosppy"]) \/
  (e = KeyError "RSP_Clean" /\
   exists df, rsp_cleaned = DataFrame df /\ "RSP_Clean" ∉ columns df).
Proof.
  unfold rsp_findpeaks.
  destruct (retrieve_column rsp_cleaned) as [values|e0] eqn:Hcol.
  - simpl. intros H.
    assert (forall info,
              (dict_getitem info "RSP_Peaks" ≫= fun peak_indices =>
               _signals_from_peakinfo info peak_indices (length values) ≫=
               fun signals =>
               _rsp_findpeaks_phase signals ≫= fun inspiration =>
               Ok (setitem signals "RSP_Inspiration" inspiration, info))
              = Raise e ->
              (exists thr', _rsp_findpeaks_khodadad values thr' = Ok info) ->
              e = IndexError) as Htail.
    { intros info Ht [thr' Hk].
      apply khodadad_stages in Hk as (_ & _ & _ & pk & tr & _ & _ & _ & ->).
      assert ((<["RSP_Troughs" := tr]> (<["RSP_Peaks" := pk]> ∅)
               : gmap string (list nat)) !! "RSP_Peaks" = Some pk) as Hl1
        by (by rewrite lookup_insert_ne, lookup_insert_eq).
      assert ((<["RSP_Troughs" := tr]> (<["RSP_Peaks" := pk]> ∅)
               : gmap string (list nat)) !! "RSP_Troughs" = Some tr) as Hl2
        by apply lookup_insert_eq.
      unfold dict_getitem, _signals_from_peakinfo, dict_getitem in Ht.
      repeat (first [rewrite Hl1 in Ht | rewrite Hl2 in Ht]; simpl in Ht).
      destruct (phase_indicator_cases (length values) pk tr) as [[i Hi]|Hi];
        rewrite Hi in Ht; simpl in Ht; congruence. }
    destruct (bool_decide_reflect
                (lower method ∈ ["khodadad"; "khodadad2018"])) as [Hm|Hm].
    + destruct (khodadad_cases values thr) as [[info Hi]|Hi];
        rewrite Hi in H; simpl in H; [|left; congruence].
      left. apply (Htail info H). eauto.
    + destruct (bool_decide_reflect (lower method = "biosppy")) as [Hb|Hb].
      * unfold _rsp_findpeaks_biosppy in H.
        destruct (khodadad_cases values 0%Q) as [[info Hi]|Hi];
          rewrite Hi in H; simpl in H; [|left; congruence].
        left. apply (Htail info H). eauto.
      * right. left. simpl in H. split; [congruence|].
        rewrite !elem_of_cons, elem_of_nil in *. tauto.
  - simpl. intros [= <-]. right. right.
    destruct rsp_cleaned as [values|df]; [discriminate|].
    simpl in Hcol.
    destruct (getitem_cases df "RSP_Clean") as [(c & Hc & _)|[Hr Hn]];
      rewrite ?Hc, ?Hr in Hcol; simpl in Hcol; [discriminate|].
    injection Hcol as <-. split; [done|]. by exists df.
Qed.

Lemma rsp_findpeaks_raises_only_witness :
  IndexError = IndexError \/
  (IndexError = method_error /\
   lower default_method ∉ ["khodadad"; "khodadad2018"; "biosppy"]) \/
  (IndexError = KeyError "RSP_Clean" /\
   exists df, Sequence flat_signal = DataFrame df /\
              "RSP_Clean" ∉ columns df).
Proof.
  apply (rsp_findpeaks_raises_only (Sequence flat_signal) default_method
           default_outlier_threshold IndexError).
  reflexivity.
Defined.

(** ** [bio_process], further *)

Section BioProcessFurther.

Context {cell info_value : Type} (nan : cell).
Context (sanitize_input : list cell -> string -> result (list cell)).
Context (ecg_process rsp_process eda_process emg_process :
           list cell -> nat -> result (frame cell * gmap string info_value)).

Lemma column_or_None_total (data : frame cell) name :
  column_or_None cell data name = Ok (column_if_present data name).
Proof.
  unfold column_or_None, column_if_present.
  destruct (getitem_cases data name) as [(c & -> & Hin)|[-> Hn]].
  - by rewrite bool_decide_eq_true_2.
  - by rewrite bool_decide_eq_false_2.
Qed.

Lemma columns_filter_not_in (cols : list string) (data : frame cell) :
  columns (filter (fun kc : string * list cell => kc.1 ∉ cols) data)
  = filter (fun key => key ∉ cols) (columns data).
Proof.
  unfold columns. induction data as [|[k c] data IH]; [done|].
  rewrite fmap_cons. simpl. destruct (decide (k ∉ cols)) as [Hk|Hk].
  - rewrite (filter_cons_True (fun kc : string * list cell => kc.1 ∉ cols))
      by done.
    rewrite (filter_cons_True (fun key => key ∉ cols)) by done.
    rewrite fmap_cons. simpl. f_equal. exact IH.
  - rewrite (filter_cons_False (fun kc : string * list cell => kc.1 ∉ cols))
      by done.
    rewrite (filter_cons_False (fun key => key ∉ cols)) by done. exact IH.
Qed.

(** X19.  A DataFrame as first argument never makes the unbundling fail
    and replaces the other arguments: the channels are its "RSP", "EDA",
    "EMG" and "ECG" columns ("EKG" when there is no "ECG"), each absent
    when the column is, and the pass-through table is made of its other
    columns, in their order, absent when there is none. *)
Theorem unbundle_frame (data : frame cell) rsp eda emg keep :
  let cols := ["ECG"; "EKG"; "RSP"; "EDA"; "EMG"] in
  exists keep',
    unbundle (Some (EcgFrame data)) rsp eda emg keep
    = Ok (if bool_decide ("ECG" ∈ columns data)
          then column_if_present data "ECG"
          else column_if_present data "EKG",
          column_if_present data "RSP",
          column_if_present data "EDA",
          column_if_present data "EMG",
          keep') /\
    columns (default [] keep') = filter (fun key => key ∉ cols) (columns data) /\
    default [] keep' `sublist_of` data /\
    (keep' = None <-> forall key, key ∈ columns data -> key ∈ cols).
Proof.
  intros cols. unfold unbundle.
  rewrite (column_or_None_total data "RSP"). simpl.
  rewrite (column_or_None_total data "EDA"). simpl.
  rewrite (column_or_None_total data "EMG"). simpl.
  set (keep_keys := filter (fun key => key ∉ cols) (columns data)).
  set (kept := filter (fun kc : string * list cell => kc.1 ∉ cols) data).
  assert (columns kept = keep_keys) as Hcols
    by (unfold kept, keep_keys; apply columns_filter_not_in).
  assert ((if bool_decide ("ECG" ∈ columns data)
           then getitem data "ECG" ≫= fun c => Ok (Some c)
           else column_or_None cell data "EKG")
          = Ok (if bool_decide ("ECG" ∈ columns data)
                then column_if_present data "ECG"
                else column_if_present data "EKG")) as ->.
  { case_bool_decide as Hin; [|apply column_or_None_total].
    unfold column_if_present.
    destruct (getitem_cases data "ECG") as [(c & -> & _)|[_ Hn]]; done. }
  simpl. eexists. split; [reflexivity|].
  assert (keep_keys = [] <-> forall key, key ∈ columns data -> key ∈ cols)
    as Hnil.
  { split.
    - intros Hk key Hkey. destruct (decide (key ∈ cols)) as [|Hn]; [done|].
      assert (key ∈ keep_keys) as Hin by (by apply list_elem_of_filter).
      rewrite Hk in Hin. by apply elem_of_nil in Hin.
    - intros Hall. apply elem_of_nil_inv. intros key.
      intros [Hn Hin]%list_elem_of_filter. apply Hn. by apply Hall. }
  case_bool_decide as Hlen; simpl.
  - split; [done|]. split; [apply sublist_filter|].
    split; [done|]. intros Hall. apply Hnil in Hall.
    exfalso. apply Hlen.
    assert (length keep_keys = 0) as H0 by (by rewrite Hall). exact H0.
  - assert (keep_keys = []) as Hk.
    { apply length_zero_iff_nil. exact Hlen. }
    split; [by rewrite Hk|]. split; [apply sublist_nil_l|].
    split; [intros _; by apply Hnil | done].
Qed.

(** X20.  A bundled DataFrame is processed like its channels passed one by
    one: bio_process on the table equals bio_process on what the
    unbundling extracts from it. *)
Theorem bio_process_on_frame (data : frame cell) rsp eda emg keep sampling_rate
    ecg' rsp' eda' emg' keep' :
  unbundle (Some (EcgFrame data)) rsp eda emg keep
  = Ok (ecg', rsp', eda', emg', keep') ->
  bio_process nan sanitize_input ecg_process rsp_process eda_process
    emg_process (Some (EcgFrame data)) rsp eda emg keep sampling_rate
  = bio_process nan sanitize_input ecg_process rsp_process eda_process
      emg_process (EcgVector <$> ecg') rsp' eda' emg' keep' sampling_rate.
Proof.
  intros Hu. unfold bio_process. rewrite Hu.
  by destruct ecg' as [x|].
Qed.

(** X21.  The channels are processed in the order ECG, RSP, EDA, EMG and
    the first one that fails decides the exception of bio_process; when
    none fails, bio_process succeeds. *)
Theorem bio_process_first_failure ecg rsp eda emg keep sampling_rate
    ecg' rsp' eda' emg' keep' :
  unbundle ecg rsp eda emg keep = Ok (ecg', rsp', eda', emg', keep') ->
  match first_error
          [channel_output sanitize_input ecg_process ecg' sampling_rate;
           channel_output sanitize_input rsp_process rsp' sampling_rate;
           channel_output sanitize_input eda_process eda' sampling_rate;
           channel_output sanitize_input emg_process emg' sampling_rate]
  with
  | Some e =>
      bio_process nan sanitize_input ecg_process rsp_process eda_process
        emg_process ecg rsp eda emg keep sampling_rate = Raise e
  | None =>
      is_Ok (bio_process nan sanitize_input ecg_process rsp_process
               eda_process emg_process ecg rsp eda emg keep sampling_rate)
  end.
Proof.
  intros Hu. unfold bio_process. rewrite Hu. simpl.
  destruct (channel_output sanitize_input ecg_process ecg' sampling_rate)
    as [[d1 i1]|e1] eqn:H1; simpl.
  2:{ destruct ecg' as [x|]; simpl in H1 |- *; [|discriminate].
      destruct (sanitize_input x message); simpl in H1 |- *;
        [by rewrite H1 | done]. }
  destruct (channel_output sanitize_input rsp_process rsp' sampling_rate)
    as [[d2 i2]|e2] eqn:H2; simpl.
  2:{ destruct ecg' as [x|], rsp' as [y|]; simpl in H1, H2 |- *;
        try discriminate;
        repeat match goal with
        | H : context [sanitize_input ?x message] |- _ =>
            destruct (sanitize_input x message); simpl in *
        end; try discriminate;
        rewrite ?H1, ?H2; simpl; rewrite ?H2; done. }
  destruct (channel_output sanitize_input eda_process eda' sampling_rate)
    as [[d3 i3]|e3] eqn:H3; simpl.
  2:{ destruct ecg' as [x|], rsp' as [y|], eda' as [z|];
        simpl in H1, H2, H3 |- *; try discriminate;
        repeat match goal with
        | H : context [sanitize_input ?x message] |- _ =>
            destruct (sanitize_input x message); simpl in *
        end; try discriminate;
        rewrite ?H1, ?H2, ?H3; simpl; rewrite ?H2, ?H3; simpl;
        rewrite ?H3; done. }
  destruct (channel_output sanitize_input emg_process emg' sampling_rate)
    as [[d4 i4]|e4] eqn:H4; simpl.
  2:{ destruct ecg' as [x|], rsp' as [y|], eda' as [z|], emg' as [w|];
        simpl in H1, H2, H3, H4 |- *; try discriminate;
        repeat match goal with
        | H : context [sanitize_input ?x message] |- _ =>
            destruct (sanitize_input x message); simpl in *
        end; try discriminate;
        rewrite ?H1, ?H2, ?H3, ?H4; simpl; rewrite ?H2, ?H3, ?H4; simpl;
        rewrite ?H3, ?H4; simpl; rewrite ?H4; done. }
  destruct ecg' as [x|], rsp' as [y|], eda' as [z|], emg' as [w|];
    simpl in H1, H2, H3, H4 |- *;
    repeat match goal with
    | H : context [sanitize_input ?x message] |- _ =>
        destruct (sanitize_input x message); simpl in *
    end; try discriminate;
    rewrite ?H1, ?H2, ?H3, ?H4; simpl; rewrite ?H2, ?H3, ?H4; simpl;
    rewrite ?H3, ?H4; simpl; rewrite ?H4; simpl; by eexists.
Qed.

(** X22.  When the collaborators succeed, the keys of the merged info are
    exactly the keys of the per-channel infos, and the merged table has as
    many columns as the channel tables and the pass-through table
    together. *)
Theorem bio_process_keys ecg rsp eda emg keep sampling_rate
    ecg' rsp' eda' emg' keep'
    ecg_signals ecg_info rsp_signals rsp_info
    eda_signals eda_info emg_signals emg_info :
  unbundle ecg rsp eda emg keep = Ok (ecg', rsp', eda', emg', keep') ->
  channel_output sanitize_input ecg_process ecg' sampling_rate
  = Ok (ecg_signals, ecg_info) ->
  channel_output sanitize_input rsp_process rsp' sampling_rate
  = Ok (rsp_signals, rsp_info) ->
  channel_output sanitize_input eda_process eda' sampling_rate
  = Ok (eda_signals, eda_info) ->
  channel_output sanitize_input emg_process emg' sampling_rate
  = Ok (emg_signals, emg_info) ->
  exists bio_df bio_info,
    bio_process nan sanitize_input ecg_process rsp_process eda_process
      emg_process ecg rsp eda emg keep sampling_rate = Ok (bio_df, bio_info) /\
    dom bio_info
    = dom ecg_info ∪ dom rsp_info ∪ dom eda_info ∪ dom emg_info /\
    length bio_df
    = length ecg_signals + length rsp_signals + length eda_signals
        + length emg_signals + length (default [] keep').
Proof.
  intros Hu Hecg Hrsp Heda Hemg. unfold bio_process. rewrite Hu. simpl.
  assert (forall a b : frame cell,
            length (pd_concat_axis1 nan a b) = length a + length b) as Hcat.
  { intros a b. unfold pd_concat_axis1. simpl.
    by rewrite length_app, !length_fmap. }
  destruct ecg' as [x|], rsp' as [y|], eda' as [z|], emg' as [w|];
    simpl in Hecg, Hrsp, Heda, Hemg |- *;
    repeat match goal with
    | H : context [sanitize_input ?x message] |- _ =>
        destruct (sanitize_input x message); simpl in *
    end; try discriminate;
    rewrite ?Hecg, ?Hrsp, ?Heda, ?Hemg; simpl;
    rewrite ?Hrsp, ?Heda, ?Hemg; simpl;
    rewrite ?Heda, ?Hemg; simpl; rewrite ?Hemg; simpl;
    simplify_eq;
    (eexists _, _; split; [reflexivity|]; split;
     [ unfold dict_update; rewrite ?dom_union_L, ?dom_empty_L;
       apply set_eq; intros k; rewrite ?elem_of_union, ?elem_of_empty; tauto
     | destruct keep'; simpl; rewrite ?Hcat; simpl; lia ]).
Qed.

End BioProcessFurther.

Lemma unbundle_frame_witness :
  exists keep',
    unbundle
      (Some (EcgFrame [("EKG", demo_channel); ("Photosensor", demo_channel);
                       ("RSP", demo_channel)]))
      None None None None
    = Ok (Some demo_channel, Some demo_channel, None, None, keep') /\
    columns (default [] keep') = ["Photosensor"].
Proof.
  destruct (unbundle_frame
              [("EKG", demo_channel); ("Photosensor", demo_channel);
               ("RSP", demo_channel)] None None None None)
    as (keep' & Hu & Hc & _).
  exists keep'. split; [exact Hu | exact Hc].
Defined.

Lemma bio_process_on_frame_witness :
  bio_process None demo_sanitize (demo_process "ECG" 1)
    (demo_process "RSP" 2) (demo_process "EDA" 3) (demo_process "EMG" 4)
    (Some (EcgFrame [("EKG", demo_channel); ("Photosensor", demo_channel);
                     ("RSP", demo_channel)]))
    None None None None 1000
  = bio_process None demo_sanitize (demo_process "ECG" 1)
      (demo_process "RSP" 2) (demo_process "EDA" 3) (demo_process "EMG" 4)
      (EcgVector <$> Some demo_channel) (Some demo_channel) None None
      (Some [("Photosensor", demo_channel)]) 1000.
Proof.
  apply (bio_process_on_frame None demo_sanitize).
  reflexivity.
Defined.

Lemma bio_process_first_failure_witness :
  bio_process None demo_sanitize (demo_process "ECG" 1)
    (fun _ _ => Raise IndexError) (fun _ _ => Raise NameError)
    (demo_process "EMG" 4)
    (Some (EcgVector demo_channel)) (Some demo_channel) (Some demo_channel)
    None None 1000
  = Raise IndexError.
Proof.
  apply (bio_process_first_failure None demo_sanitize (demo_process "ECG" 1)
           (fun _ _ => Raise IndexError) (fun _ _ => Raise NameError)
           (demo_process "EMG" 4)
           (Some (EcgVector demo_channel)) (Some demo_channel)
           (Some demo_channel) None None 1000
           (Some demo_channel) (Some demo_channel) (Some demo_channel)
           None None).
  reflexivity.
Defined.

Lemma bio_process_keys_witness :
  exists bio_df bio_info,
    bio_process None demo_sanitize (demo_process "ECG" 1)
      (demo_process "RSP" 2) (demo_process "EDA" 3) (demo_process "EMG" 4)
      (Some (EcgVector demo_channel)) (Some demo_channel) None None
      (Some [("Photosensor", demo_channel)]) 1000
    = Ok (bio_df, bio_info) /\
    dom bio_info
    = dom (demo_dict "ECG" 1) ∪ dom (demo_dict "RSP" 2)
        ∪ dom (∅ : gmap string (list nat)) ∪ dom (∅ : gmap string (list nat)) /\
    length bio_df = 2 + 2 + 0 + 0 + 1.
Proof.
  apply (bio_process_keys None demo_sanitize (demo_process "ECG" 1)
           (demo_process "RSP" 2) (demo_process "EDA" 3) (demo_process "EMG" 4)
           (Some (EcgVector demo_channel)) (Some demo_channel) None None
           (Some [("Photosensor", demo_channel)]) 1000
           (Some demo_channel) (Some demo_channel) None None
           (Some [("Photosensor", demo_channel)])
           (demo_table "ECG" demo_channel) (demo_dict "ECG" 1)
           (demo_table "RSP" demo_channel) (demo_dict "RSP" 2)
           [] ∅ [] ∅); reflexivity.
Defined.
